(** * Depthful localization scripts: catalog audit and repair

    A shallow embedding of the four scripts under [src/Depthful]:

    - [localization_analyzer.py]  (interactive analyse-and-fix),
    - [localization_fixer.py]     (automatic fix with a phrase table),
    - [localization_status.py]    (read-only status),
    - [fix_localizations.py]      (English / state normaliser).

    The scripts work on whatever [json.load] returns, so the embedding
    keeps the dynamically typed document: a [json] value, Python's
    operations on it, and the exceptions they raise. *)

From Stdlib Require Import String Ascii List ZArith Bool Lia Permutation Sorted.
From Stdlib Require Import DecimalString.
From Stdlib Require Import Floats Uint63.
Import ListNotations.
Local Open Scope string_scope.
Local Open Scope list_scope.

(** ** Documents *)

(** What [json.load] builds: [None], [bool], [int], [float], [str],
    [list] and [dict].  A [dict] keeps its insertion order; strings are
    the UTF-8 bytes of the Python [str]. *)
#[warnings="-register-all"]
Inductive json : Type :=
| JNull
| JBool (b : bool)
| JInt (z : Z)
| JFloat (f : float)
| JStr (s : string)
| JArr (l : list json)
| JObj (m : list (string * json)).

(** ** Exceptions *)

Inductive pyerr : Type :=
  KeyError | TypeError | AttributeError | UnicodeEncodeError.

Inductive result (A : Type) : Type :=
| Ok (a : A)
| Raise (e : pyerr).

Arguments Ok {A} a.
Arguments Raise {A} e.

Definition bind {A B : Type} (r : result A) (k : A -> result B) : result B :=
  match r with
  | Ok a => k a
  | Raise e => Raise e
  end.

Notation "x <- e ;; k" := (bind e (fun x => k))
  (at level 61, e at next level, right associativity).

(** ** Python dictionaries as insertion-ordered association lists *)

Section Dict.
Context {V : Type}.

Fixpoint dict_get (m : list (string * V)) (k : string) : option V :=
  match m with
  | [] => None
  | (k', v) :: rest => if String.eqb k k' then Some v else dict_get rest k
  end.

(** [m[k] = v]: an existing key keeps its position, a new key goes last. *)
Fixpoint dict_set (m : list (string * V)) (k : string) (v : V)
  : list (string * V) :=
  match m with
  | [] => [(k, v)]
  | (k', v') :: rest =>
      if String.eqb k k' then (k', v) :: rest else (k', v') :: dict_set rest k v
  end.

Definition dict_keys (m : list (string * V)) : list string := map fst m.

Definition dict_mem (k : string) (m : list (string * V)) : bool :=
  match dict_get m k with Some _ => true | None => false end.

End Dict.

(** ** Python sets of strings *)

Definition set_mem (x : string) (s : list string) : bool :=
  existsb (String.eqb x) s.

(** [a - b] *)
Definition set_diff (a b : list string) : list string :=
  filter (fun x => negb (set_mem x b)) a.

Arguments set_diff : simpl never.

(** [a.issubset(b)] *)
Definition set_issubset (a b : list string) : bool :=
  forallb (fun x => set_mem x b) a.

(** ** Python operations on documents *)

(** [needle in hay] for two [str]. *)
Fixpoint is_substring (needle hay : string) : bool :=
  String.prefix needle hay
  || match hay with
     | EmptyString => false
     | String _ hay' => is_substring needle hay'
     end.

(** Code points of a UTF-8 string: the bytes that are not continuation
    bytes [10xxxxxx]. *)
Fixpoint str_len (s : string) : nat :=
  match s with
  | EmptyString => 0
  | String c s' =>
      let n := nat_of_ascii c in
      if (Nat.leb 128 n && Nat.ltb n 192)%bool then str_len s' else S (str_len s')
  end.

(** [v == s] for a [str] literal [s]. *)
Definition py_eq_str (v : json) (s : string) : bool :=
  match v with
  | JStr s' => String.eqb s' s
  | _ => false
  end.

(** [v == False]: besides [False] itself, Python's numeric equality makes
    [0] and [0.0] equal to [False]. *)
Definition py_eq_False (v : json) : bool :=
  match v with
  | JBool b => negb b
  | JInt z => Z.eqb z 0
  | JFloat f => PrimFloat.eqb f 0%float
  | _ => false
  end.

(** [v.get(k, default)] *)
Definition py_get (v : json) (k : string) (default : json) : result json :=
  match v with
  | JObj m => Ok (match dict_get m k with Some x => x | None => default end)
  | _ => Raise AttributeError
  end.

(** [v.keys()] *)
Definition py_keys (v : json) : result (list string) :=
  match v with
  | JObj m => Ok (dict_keys m)
  | _ => Raise AttributeError
  end.

(** [v.items()] *)
Definition py_items (v : json) : result (list (string * json)) :=
  match v with
  | JObj m => Ok m
  | _ => Raise AttributeError
  end.

(** [v[k]] with a [str] subscript. *)
Definition py_getitem (v : json) (k : string) : result json :=
  match v with
  | JObj m => match dict_get m k with Some x => Ok x | None => Raise KeyError end
  | _ => Raise TypeError
  end.

(** [v[k] = x] with a [str] subscript. *)
Definition py_setitem (v : json) (k : string) (x : json) : result json :=
  match v with
  | JObj m => Ok (JObj (dict_set m k x))
  | _ => Raise TypeError
  end.

(** [k in v] for a [str] [k]: key of a dict, element of a list,
    substring of a str. *)
Definition py_contains (k : string) (v : json) : result bool :=
  match v with
  | JObj m => Ok (dict_mem k m)
  | JArr l => Ok (existsb (fun x => py_eq_str x k) l)
  | JStr s => Ok (is_substring k s)
  | _ => Raise TypeError
  end.

(** [len(v)] *)
Definition py_len (v : json) : result Z :=
  match v with
  | JObj m => Ok (Z.of_nat (length m))
  | JArr l => Ok (Z.of_nat (length l))
  | JStr s => Ok (Z.of_nat (str_len s))
  | _ => Raise TypeError
  end.

(** [v.copy()], a shallow copy: the nested objects stay shared, which a
    value does not show. *)
Definition py_copy (v : json) : result json :=
  match v with
  | JObj _ | JArr _ => Ok v
  | _ => Raise AttributeError
  end.

(** [x in d] for a dict [d] with [str] keys and any document [x]:
    lists and dicts are unhashable. *)
Definition py_in_table {V : Type} (x : json) (d : list (string * V))
  : result (option V) :=
  match x with
  | JStr s => Ok (dict_get d s)
  | JArr _ | JObj _ => Raise TypeError
  | _ => Ok None
  end.

(** [a / b * 100] on two counts.  True division of two [int]s below
    [2^53] is the binary64 quotient of their exact conversions. *)
Definition float_of_count (n : Z) : float := PrimFloat.of_uint63 (Uint63.of_Z n).

Definition percentage (a b : Z) : float :=
  PrimFloat.mul (PrimFloat.div (float_of_count a) (float_of_count b)) 100%float.

(** ** Text and the console *)

(** [s[:n]]: the first [n] code points of a UTF-8 string. *)
Fixpoint str_prefix (n : nat) (s : string) : string :=
  match s with
  | EmptyString => EmptyString
  | String c s' =>
      let b := nat_of_ascii c in
      if (Nat.leb 128 b && Nat.ltb b 192)%bool
      then String c (str_prefix n s')
      else
        match n with
        | O => EmptyString
        | S n' => String c (str_prefix n' s')
        end
  end.

(** [str(n)] of an [int], as an f-string renders it. *)
Definition str_of_int (n : Z) : string := NilZero.string_of_int (Z.to_int n).

(** [sep.join(parts)] *)
Definition join (sep : string) (parts : list string) : string :=
  String.concat sep parts.

Fixpoint is_ascii (text : string) : bool :=
  match text with
  | EmptyString => true
  | String c rest => Nat.ltb (nat_of_ascii c) 128 && is_ascii rest
  end.

(** Whether [sys.stdout] can encode [text].  [console] stands for the
    codec of the stream, which is fixed outside the scripts: [console
    text] holds when the codec has every character of [text].  The ASCII
    characters every codec of a text stream has. *)
Definition accepts (console : string -> bool) (text : string) : bool :=
  is_ascii text || console text.

(** [print(text)]: the stream, taken to be open, encodes the text and
    raises [UnicodeEncodeError] on a character its codec lacks, as a lone
    surrogate is for UTF-8. *)
Definition py_print (console : string -> bool) (text : string) : result unit :=
  if accepts console text then Ok tt else Raise UnicodeEncodeError.

(** The Localization every repair inserts:
    [{"stringUnit": {"state": "translated", "value": value}}]. *)
Definition translated_unit (value : json) : json :=
  JObj [("stringUnit", JObj [("state", JStr "translated"); ("value", value)])].

(** [EXPECTED_LANGUAGES], the same set literal in the three scripts that
    have one. *)
Definition EXPECTED_LANGUAGES : list string :=
  ["ar"; "de"; "es"; "fr"; "hi"; "ja"; "ko"; "pt"; "zh-Hans"; "en"].

(** The report dict built by [analyze_completeness]. *)
Record analysis : Type := mk_analysis {
  total_keys : Z;
  complete_keys : Z;
  incomplete_keys : list string;
  missing_languages : list (string * list string);
  should_not_translate : Z;
  completion_percentage : float
}.

Definition count_excluded (a : analysis) : analysis :=
  mk_analysis (total_keys a) (complete_keys a) (incomplete_keys a)
    (missing_languages a) (should_not_translate a + 1) (completion_percentage a).

Definition count_complete (a : analysis) : analysis :=
  mk_analysis (total_keys a) (complete_keys a + 1) (incomplete_keys a)
    (missing_languages a) (should_not_translate a) (completion_percentage a).

Definition add_incomplete (a : analysis) (key : string) : analysis :=
  mk_analysis (total_keys a) (complete_keys a) (incomplete_keys a ++ [key])
    (missing_languages a) (should_not_translate a) (completion_percentage a).

Definition record_missing (a : analysis) (key : string) (missing : list string)
  : analysis :=
  mk_analysis (total_keys a) (complete_keys a) (incomplete_keys a)
    (dict_set (missing_languages a) key missing)
    (should_not_translate a) (completion_percentage a).

Definition set_percentage (a : analysis) (p : float) : analysis :=
  mk_analysis (total_keys a) (complete_keys a) (incomplete_keys a)
    (missing_languages a) (should_not_translate a) p.

Definition initial_analysis (total : Z) : analysis :=
  mk_analysis total 0 [] [] 0 0%float.

(** The tail shared by both [analyze_completeness]:
    [if translatable_keys > 0: analysis['completion_percentage'] = ...] *)
Definition finish_analysis (a : analysis) : analysis :=
  let translatable_keys := (total_keys a - should_not_translate a)%Z in
  if (translatable_keys >? 0)%Z
  then set_percentage a (percentage (complete_keys a) translatable_keys)
  else a.

(** A [for key, value in strings.items()] loop whose body may raise. *)
Fixpoint for_items {S : Type} (body : S -> string -> json -> result S)
  (items : list (string * json)) (s : S) : result S :=
  match items with
  | [] => Ok s
  | (key, value) :: rest => s' <- body s key value ;; for_items body rest s'
  end.

(** A [for x in xs] loop whose body may raise. *)
Fixpoint for_each {X S : Type} (body : S -> X -> result S)
  (xs : list X) (s : S) : result S :=
  match xs with
  | [] => Ok s
  | x :: rest => s' <- body s x ;; for_each body rest s'
  end.

(** [table[key][lang]] when [key in table and lang in table[key]]. *)
Definition lookup_phrase (table : list (string * list (string * string)))
  (key lang : string) : option string :=
  match dict_get table key with
  | Some row => dict_get row lang
  | None => None
  end.

Arguments lookup_phrase : simpl never.

(** Storing into a nested dict that was read through [v[k]] changes
    [v] in place; on values the change is written back along the path. *)
Definition update_field (v : json) (k : string) (x : json) : json :=
  match v with
  | JObj m => JObj (dict_set m k x)
  | _ => v
  end.

(** [fixed_data['strings'][key]['localizations'][lang] = translation] *)
Definition assign_localization (d : json) (key lang : string)
  (translation : json) : result json :=
  strings <- py_getitem d "strings" ;;
  entry <- py_getitem strings key ;;
  localizations <- py_getitem entry "localizations" ;;
  localizations' <- py_setitem localizations lang translation ;;
  Ok (update_field d "strings"
        (update_field strings key
           (update_field entry "localizations" localizations'))).

(** ** localization_analyzer.py *)

Module localization_analyzer.

(** The [for lang, loc_data in localizations.items()] scan with its
    [break]. *)
Fixpoint all_translated (items : list (string * json)) : result bool :=
  match items with
  | [] => Ok true
  | (_, loc_data) :: rest =>
      string_unit <- py_get loc_data "stringUnit" (JObj []) ;;
      state <- py_get string_unit "state" JNull ;;
      if py_eq_str state "translated" then all_translated rest else Ok false
  end.

(** Body of the loop of [analyze_completeness].  [list_of_set] is the
    order in which [list(missing_languages)] enumerates a set. *)
Definition analyze_entry (list_of_set : list string -> list string)
  (a : analysis) (key : string) (value : json) : result analysis :=
  should <- py_get value "shouldTranslate" JNull ;;
  if py_eq_False should then Ok (count_excluded a)
  else
    localizations <- py_get value "localizations" (JObj []) ;;
    available_languages <- py_keys localizations ;;
    let missing := set_diff EXPECTED_LANGUAGES available_languages in
    match missing with
    | _ :: _ =>
        Ok (record_missing (add_incomplete a key) key (list_of_set missing))
    | [] =>
        items <- py_items localizations ;;
        ok <- all_translated items ;;
        if ok then Ok (count_complete a) else Ok (add_incomplete a key)
    end.

Definition analyze_completeness (list_of_set : list string -> list string)
  (data : json) : result analysis :=
  strings <- py_get data "strings" (JObj []) ;;
  total <- py_len strings ;;
  items <- py_items strings ;;
  a <- for_items (analyze_entry list_of_set) items (initial_analysis total) ;;
  Ok (finish_analysis a).

Definition translation_map : list (string * list (string * string)) :=
  [ (" of ",
     [ ("ar", "من"); ("de", "von"); ("es", "de"); ("fr", "de"); ("hi", "का");
       ("ja", "の"); ("ko", "~의"); ("pt", "de"); ("zh-Hans", "的");
       ("en", " of ") ]);
    ("-",
     [ ("ar", "-"); ("de", "-"); ("es", "-"); ("fr", "-"); ("hi", "-");
       ("ja", "-"); ("ko", "-"); ("pt", "-"); ("zh-Hans", "-"); ("en", "-") ]);
    (":",
     [ ("ar", ":"); ("de", ":"); ("es", ":"); ("fr", ":"); ("hi", ":");
       ("ja", ":"); ("ko", ":"); ("pt", ":"); ("zh-Hans", ":"); ("en", ":") ]) ].

Definition generate_missing_translations (data : json) (key : string)
  (missing_languages : list string) : result (list (string * json)) :=
  strings <- py_getitem data "strings" ;;
  entry <- py_getitem strings key ;;
  existing_localizations <- py_get entry "localizations" (JObj []) ;;
  has_en <- py_contains "en" existing_localizations ;;
  english_value <-
    (if has_en
     then en <- py_getitem existing_localizations "en" ;;
          string_unit <- py_getitem en "stringUnit" ;;
          py_getitem string_unit "value"
     else Ok (JStr key)) ;;
  Ok (fold_left
        (fun new_translations lang =>
           let value :=
             match lookup_phrase translation_map key lang with
             | Some v => JStr v
             | None => english_value
             end in
           dict_set new_translations lang (translated_unit value))
        missing_languages []).

(** What a round does to the document for a key with missing languages:
    the translations are generated and stored one by one.  [data] and
    [fixed_data = data.copy()] share the ['strings'] dict, so a single
    document [d] stands for both. *)
Definition add_translations (d : json) (key : string)
  (missing_languages : list string) : result json :=
  new_translations <- generate_missing_translations d key missing_languages ;;
  for_items (fun d' lang translation =>
               assign_localization d' key lang translation)
    new_translations d.

(** The text of the [print] that ends such a round. *)
Definition fixed_message (key : string) (missing_languages : list string)
  : string :=
  ("Fixed '" ++ key ++ "' -> Added "
   ++ str_of_int (Z.of_nat (length missing_languages)) ++ " languages: "
   ++ join ", " missing_languages)%string.

(** One round of [for key in analysis['incomplete_keys']]. *)
Definition fix_key (console : string -> bool) (a : analysis) (d : json)
  (key : string) : result json :=
  match dict_get (missing_languages a) key with
  | Some (lang0 :: langs) =>
      d' <- add_translations d key (lang0 :: langs) ;;
      printed <- py_print console (fixed_message key (lang0 :: langs)) ;;
      Ok d'
  | _ => Ok d
  end.

(** The text of the [print] before the loop. *)
Definition fixing_message (incomplete_keys : list string) : string :=
  String "010"
    ("FIXING " ++ str_of_int (Z.of_nat (length incomplete_keys))
     ++ " incomplete keys...")%string.

Definition fix_localizations (console : string -> bool)
  (list_of_set : list string -> list string) (data : json) : result json :=
  a <- analyze_completeness list_of_set data ;;
  fixed_data <- py_copy data ;;
  printed <- py_print console (fixing_message (incomplete_keys a)) ;;
  for_each (fix_key console a) (incomplete_keys a) fixed_data.

End localization_analyzer.

(** ** localization_fixer.py *)

Module localization_fixer.

Definition TRANSLATION_MAPPINGS : list (string * list (string * string)) :=
[
  ("Documentation",
   [
    ("ar", "Ø§Ù„ØªÙˆØ«ÙŠÙ‚");
    ("de", "Dokumentation");
    ("es", "DocumentaciÃ³n");
    ("fr", "Documentation");
    ("hi", "à¤ªà¥à¤°à¤²à¥‡à¤–à¤¨");
    ("ja", "ãƒ‰ã‚­ãƒ¥ãƒ¡ãƒ³ãƒˆ");
    ("ko", "ë¬¸ì„œ");
    ("pt", "DocumentaÃ§Ã£o");
    ("zh-Hans", "æ–‡æ¡£");
    ("en", "Documentation")
   ]);
  ("Email Support",
   [
    ("ar", "Ø¯Ø¹Ù… Ø§Ù„Ø¨Ø±ÙŠØ¯ Ø§Ù„Ø¥Ù„ÙƒØªØ±ÙˆÙ†ÙŠ");
    ("de", "E-Mail-Support");
    ("es", "Soporte por correo");
    ("fr", "Support par e-mail");
    ("hi", "à¤ˆà¤®à¥‡à¤² à¤¸à¤®à¤°à¥à¤¥à¤¨");
    ("ja", "ãƒ¡ãƒ¼ãƒ«ã‚µãƒãƒ¼ãƒˆ");
    ("ko", "ì´ë©”ì¼ ì§€ì›");
    ("pt", "Suporte por e-mail");
    ("zh-Hans", "é‚®ä»¶æ”¯æŒ");
    ("en", "Email Support")
   ]);
  ("Hide Completed Items",
   [
    ("ar", "Ø¥Ø®ÙØ§Ø¡ Ø§Ù„Ø¹Ù†Ø§ØµØ± Ø§Ù„Ù…ÙƒØªÙ…Ù„Ø©");
    ("de", "Erledigte Elemente ausblenden");
    ("es", "Ocultar elementos completados");
    ("fr", "Masquer les Ã©lÃ©ments terminÃ©s");
    ("hi", "à¤ªà¥‚à¤°à¥à¤£ à¤†à¤‡à¤Ÿà¤® à¤›à¥à¤ªà¤¾à¤à¤‚");
    ("ja", "å®Œäº†ã—ãŸã‚¢ã‚¤ãƒ†ãƒ ã‚’éžè¡¨ç¤º");
    ("ko", "ì™„ë£Œëœ í•­ëª© ìˆ¨ê¸°ê¸°");
    ("pt", "Ocultar itens concluÃ­dos");
    ("zh-Hans", "éšè—å·²å®Œæˆé¡¹ç›®");
    ("en", "Hide Completed Items")
   ]);
  ("Organizes habits and tasks by time periods: Morning, Afternoon, Evening, and Today",
   [
    ("ar", "ÙŠÙ†Ø¸Ù… Ø§Ù„Ø¹Ø§Ø¯Ø§Øª ÙˆØ§Ù„Ù…Ù‡Ø§Ù… Ø­Ø³Ø¨ Ø§Ù„ÙØªØ±Ø§Øª Ø§Ù„Ø²Ù…Ù†ÙŠØ©: Ø§Ù„ØµØ¨Ø§Ø­ØŒ Ø¨Ø¹Ø¯ Ø§Ù„Ø¸Ù‡Ø±ØŒ Ø§Ù„Ù…Ø³Ø§Ø¡ØŒ ÙˆØ§Ù„ÙŠÙˆÙ…");
    ("de", "Organisiert Gewohnheiten und Aufgaben nach Tageszeiten: Morgen, Nachmittag, Abend und Heute");
    ("es", "Organiza hÃ¡bitos y tareas por perÃ­odos de tiempo: MaÃ±ana, Tarde, Noche y Hoy");
    ("fr", "Organise les habitudes et tÃ¢ches par pÃ©riodes : Matin, AprÃ¨s-midi, Soir et Aujourd'hui");
    ("hi", "à¤¸à¤®à¤¯ à¤…à¤µà¤§à¤¿ à¤•à¥‡ à¤…à¤¨à¥à¤¸à¤¾à¤° à¤†à¤¦à¤¤à¥‹à¤‚ à¤”à¤° à¤•à¤¾à¤°à¥à¤¯à¥‹à¤‚ à¤•à¥‹ à¤µà¥à¤¯à¤µà¤¸à¥à¤¥à¤¿à¤¤ à¤•à¤°à¤¤à¤¾ à¤¹à¥ˆ: à¤¸à¥à¤¬à¤¹, à¤¦à¥‹à¤ªà¤¹à¤°, à¤¶à¤¾à¤®, à¤”à¤° à¤†à¤œ");
    ("ja", "ç¿’æ…£ã¨ã‚¿ã‚¹ã‚¯ã‚’æ™‚é–“å¸¯åˆ¥ã«æ•´ç†ï¼šæœã€åˆå¾Œã€å¤•æ–¹ã€ä»Šæ—¥");
    ("ko", "ìŠµê´€ê³¼ ìž‘ì—…ì„ ì‹œê°„ëŒ€ë³„ë¡œ ì •ë¦¬: ì•„ì¹¨, ì˜¤í›„, ì €ë…, ì˜¤ëŠ˜");
    ("pt", "Organiza hÃ¡bitos e tarefas por perÃ­odos: ManhÃ£, Tarde, Noite e Hoje");
    ("zh-Hans", "æŒ‰æ—¶é—´æ®µç»„ç»‡ä¹ æƒ¯å’Œä»»åŠ¡ï¼šä¸Šåˆã€ä¸‹åˆã€æ™šä¸Šå’Œä»Šå¤©");
    ("en", "Organizes habits and tasks by time periods: Morning, Afternoon, Evening, and Today")
   ]);
  ("Hides completed habits and tasks from view",
   [
    ("ar", "ÙŠØ®ÙÙŠ Ø§Ù„Ø¹Ø§Ø¯Ø§Øª ÙˆØ§Ù„Ù…Ù‡Ø§Ù… Ø§Ù„Ù…ÙƒØªÙ…Ù„Ø© Ù…Ù† Ø§Ù„Ø¹Ø±Ø¶");
    ("de", "Blendet erledigte Gewohnheiten und Aufgaben aus");
    ("es", "Oculta hÃ¡bitos y tareas completados de la vista");
    ("fr", "Cache les habitudes et tÃ¢ches terminÃ©es");
    ("hi", "à¤ªà¥‚à¤°à¥à¤£ à¤†à¤¦à¤¤à¥‹à¤‚ à¤”à¤° à¤•à¤¾à¤°à¥à¤¯à¥‹à¤‚ à¤•à¥‹ à¤¦à¥ƒà¤¶à¥à¤¯ à¤¸à¥‡ à¤›à¥à¤ªà¤¾à¤¤à¤¾ à¤¹à¥ˆ");
    ("ja", "å®Œäº†ã—ãŸç¿’æ…£ã¨ã‚¿ã‚¹ã‚¯ã‚’éžè¡¨ç¤ºã«ã—ã¾ã™");
    ("ko", "ì™„ë£Œëœ ìŠµê´€ê³¼ ìž‘ì—…ì„ ë³´ê¸°ì—ì„œ ìˆ¨ê¹ë‹ˆë‹¤");
    ("pt", "Oculta hÃ¡bitos e tarefas concluÃ­dos da visualizaÃ§Ã£o");
    ("zh-Hans", "ä»Žè§†å›¾ä¸­éšè—å·²å®Œæˆçš„ä¹ æƒ¯å’Œä»»åŠ¡");
    ("en", "Hides completed habits and tasks from view")
   ]);
  ("Time-Based Filtering",
   [
    ("ar", "Ø§Ù„ØªØµÙÙŠØ© Ø§Ù„Ù‚Ø§Ø¦Ù…Ø© Ø¹Ù„Ù‰ Ø§Ù„ÙˆÙ‚Øª");
    ("de", "Zeitbasierte Filterung");
    ("es", "Filtrado basado en tiempo");
    ("fr", "Filtrage temporel");
    ("hi", "à¤¸à¤®à¤¯-à¤†à¤§à¤¾à¤°à¤¿à¤¤ à¤«à¤¼à¤¿à¤²à¥à¤Ÿà¤°à¤¿à¤‚à¤—");
    ("ja", "æ™‚é–“ãƒ™ãƒ¼ã‚¹ãƒ•ã‚£ãƒ«ã‚¿ãƒªãƒ³ã‚°");
    ("ko", "ì‹œê°„ ê¸°ë°˜ í•„í„°ë§");
    ("pt", "Filtragem baseada em tempo");
    ("zh-Hans", "åŸºäºŽæ—¶é—´çš„è¿‡æ»¤");
    ("en", "Time-Based Filtering")
   ]);
  ("View Options",
   [
    ("ar", "Ø®ÙŠØ§Ø±Ø§Øª Ø§Ù„Ø¹Ø±Ø¶");
    ("de", "Ansichtsoptionen");
    ("es", "Opciones de vista");
    ("fr", "Options d'affichage");
    ("hi", "à¤¦à¥ƒà¤¶à¥à¤¯ à¤µà¤¿à¤•à¤²à¥à¤ª");
    ("ja", "è¡¨ç¤ºã‚ªãƒ—ã‚·ãƒ§ãƒ³");
    ("ko", "ë³´ê¸° ì˜µì…˜");
    ("pt", "OpÃ§Ãµes de visualizaÃ§Ã£o");
    ("zh-Hans", "æŸ¥çœ‹é€‰é¡¹");
    ("en", "View Options")
   ]);
  ("Nothing to do.",
   [
    ("ar", "Ù„Ø§ ÙŠÙˆØ¬Ø¯ Ø´ÙŠØ¡ Ù„Ù„Ù‚ÙŠØ§Ù… Ø¨Ù‡.");
    ("de", "Nichts zu tun.");
    ("es", "Nada que hacer.");
    ("fr", "Rien Ã  faire.");
    ("hi", "à¤•à¥à¤› à¤¨à¤¹à¥€à¤‚ à¤•à¤°à¤¨à¤¾.");
    ("ja", "ã‚„ã‚‹ã“ã¨ã¯ã‚ã‚Šã¾ã›ã‚“ã€‚");
    ("ko", "í•  ì¼ì´ ì—†ìŠµë‹ˆë‹¤.");
    ("pt", "Nada para fazer.");
    ("zh-Hans", "æ— äº‹å¯åšã€‚");
    ("en", "Nothing to do.")
   ]);
  ("Habit Reminders",
   [
    ("ar", "ØªØ°ÙƒÙŠØ±Ø§Øª Ø§Ù„Ø¹Ø§Ø¯Ø§Øª");
    ("de", "Gewohnheitserinnerungen");
    ("es", "Recordatorios de hÃ¡bitos");
    ("fr", "Rappels d'habitudes");
    ("hi", "à¤†à¤¦à¤¤ à¤…à¤¨à¥à¤¸à¥à¤®à¤¾à¤°à¤•");
    ("ja", "ç¿’æ…£ãƒªãƒžã‚¤ãƒ³ãƒ€ãƒ¼");
    ("ko", "ìŠµê´€ ì•Œë¦¼");
    ("pt", "Lembretes de hÃ¡bitos");
    ("zh-Hans", "ä¹ æƒ¯æé†’");
    ("en", "Habit Reminders")
   ]);
  ("Enable reminders",
   [
    ("ar", "ØªÙ…ÙƒÙŠÙ† Ø§Ù„ØªØ°ÙƒÙŠØ±Ø§Øª");
    ("de", "Erinnerungen aktivieren");
    ("es", "Habilitar recordatorios");
    ("fr", "Activer les rappels");
    ("hi", "à¤…à¤¨à¥à¤¸à¥à¤®à¤¾à¤°à¤• à¤¸à¤•à¥à¤·à¤® à¤•à¤°à¥‡à¤‚");
    ("ja", "ãƒªãƒžã‚¤ãƒ³ãƒ€ãƒ¼ã‚’æœ‰åŠ¹ã«ã™ã‚‹");
    ("ko", "ì•Œë¦¼ í™œì„±í™”");
    ("pt", "Ativar lembretes");
    ("zh-Hans", "å¯ç”¨æé†’");
    ("en", "Enable reminders")
   ]);
  ("All reminders disabled",
   [
    ("ar", "Ø¬Ù…ÙŠØ¹ Ø§Ù„ØªØ°ÙƒÙŠØ±Ø§Øª Ù…Ø¹Ø·Ù„Ø©");
    ("de", "Alle Erinnerungen deaktiviert");
    ("es", "Todos los recordatorios desactivados");
    ("fr", "Tous les rappels dÃ©sactivÃ©s");
    ("hi", "à¤¸à¤­à¥€ à¤…à¤¨à¥à¤¸à¥à¤®à¤¾à¤°à¤• à¤…à¤•à¥à¤·à¤®");
    ("ja", "ã™ã¹ã¦ã®ãƒªãƒžã‚¤ãƒ³ãƒ€ãƒ¼ãŒç„¡åŠ¹");
    ("ko", "ëª¨ë“  ì•Œë¦¼ì´ ë¹„í™œì„±í™”ë¨");
    ("pt", "Todos os lembretes desativados");
    ("zh-Hans", "æ‰€æœ‰æé†’å·²ç¦ç”¨");
    ("en", "All reminders disabled")
   ])
].

(** Body of the loop of [analyze_completeness]: presence of the ten
    codes alone decides. *)
Definition analyze_entry (list_of_set : list string -> list string)
  (a : analysis) (key : string) (value : json) : result analysis :=
  should <- py_get value "shouldTranslate" JNull ;;
  if py_eq_False should then Ok (count_excluded a)
  else
    localizations <- py_get value "localizations" (JObj []) ;;
    available_languages <- py_keys localizations ;;
    let missing := set_diff EXPECTED_LANGUAGES available_languages in
    match missing with
    | _ :: _ =>
        Ok (record_missing (add_incomplete a key) key (list_of_set missing))
    | [] => Ok (count_complete a)
    end.

Definition analyze_completeness (list_of_set : list string -> list string)
  (data : json) : result analysis :=
  strings <- py_get data "strings" (JObj []) ;;
  total <- py_len strings ;;
  items <- py_items strings ;;
  a <- for_items (analyze_entry list_of_set) items (initial_analysis total) ;;
  Ok (finish_analysis a).

Definition get_translation_value (key language : string)
  (existing_localizations : json) : result json :=
  match lookup_phrase TRANSLATION_MAPPINGS key language with
  | Some v => Ok (JStr v)
  | None =>
      if String.eqb language "en" then Ok (JStr key)
      else
        has_en <- py_contains "en" existing_localizations ;;
        if has_en
        then
          en <- py_getitem existing_localizations "en" ;;
          string_unit <- py_getitem en "stringUnit" ;;
          english_value <- py_getitem string_unit "value" ;;
          row <- py_in_table english_value TRANSLATION_MAPPINGS ;;
          match row with
          | Some translations =>
              match dict_get translations language with
              | Some v => Ok (JStr v)
              | None => Ok english_value
              end
          | None => Ok english_value
          end
        else Ok (JStr key)
  end.

(** [json.loads(json.dumps(data))]: an equal document sharing nothing
    with [data]. *)
Definition deep_copy (data : json) : json := data.

(** What the name [existing_localizations] denotes while the inner loop
    runs.  When the entry had a ['localizations'] key it is that very
    dict, which the loop is filling; otherwise it is the default [{}] of
    [.get], a dict of its own that stays empty. *)
Definition existing_localizations_now (shared : bool) (detached : json)
  (d : json) (key : string) : result json :=
  if shared
  then strings <- py_getitem d "strings" ;;
       entry <- py_getitem strings key ;;
       py_getitem entry "localizations"
  else Ok detached.

(** What a round does to the document for a key with missing languages:
    the ['localizations'] key is ensured and a Localization is stored
    for each missing language. *)
Definition add_translations (d : json) (key : string)
  (missing_languages : list string) : result json :=
  strings <- py_getitem d "strings" ;;
  entry <- py_getitem strings key ;;
  detached <- py_get entry "localizations" (JObj []) ;;
  shared <- py_contains "localizations" entry ;;
  d1 <- (if shared then Ok d
         else
           entry' <- py_setitem entry "localizations" (JObj []) ;;
           Ok (update_field d "strings" (update_field strings key entry'))) ;;
  for_each
    (fun d' lang =>
       existing_localizations <-
         existing_localizations_now shared detached d' key ;;
       translation_value <-
         get_translation_value key lang existing_localizations ;;
       assign_localization d' key lang (translated_unit translation_value))
    missing_languages d1.

(** The text of the [print] that ends such a round: the key, cut to its
    first fifty characters and followed by dots when it has more. *)
Definition fixed_message (key : string) (missing_languages : list string)
  : string :=
  ("Fixed '" ++ str_prefix 50 key
   ++ (if (Z.of_nat (str_len key) >? 50)%Z then "..." else "")
   ++ "' -> Added " ++ str_of_int (Z.of_nat (length missing_languages))
   ++ " languages")%string.

(** One round of [for key in analysis['incomplete_keys']], on the
    document and the counter [fixed_count]. *)
Definition fix_key (console : string -> bool) (a : analysis)
  (state : json * Z) (key : string) : result (json * Z) :=
  let (fixed_data, fixed_count) := state in
  match dict_get (missing_languages a) key with
  | Some (lang0 :: langs) =>
      fixed_data' <- add_translations fixed_data key (lang0 :: langs) ;;
      let fixed_count' := (fixed_count + 1)%Z in
      printed <- py_print console (fixed_message key (lang0 :: langs)) ;;
      Ok (fixed_data', fixed_count')
  | _ => Ok (fixed_data, fixed_count)
  end.

(** The texts of the [print]s before and after the loop. *)
Definition fixing_message (incomplete_keys : list string) : string :=
  ("Fixing " ++ str_of_int (Z.of_nat (length incomplete_keys))
   ++ " incomplete keys...")%string.

Definition summary_message (fixed_count : Z) : string :=
  ("Fixed " ++ str_of_int fixed_count
   ++ " keys with missing translations")%string.

Definition fix_localizations (console : string -> bool)
  (list_of_set : list string -> list string) (data : json) : result json :=
  a <- analyze_completeness list_of_set data ;;
  let fixed_data := deep_copy data in
  printed <- py_print console (fixing_message (incomplete_keys a)) ;;
  state <- for_each (fix_key console a) (incomplete_keys a) (fixed_data, 0%Z) ;;
  printed' <- py_print console (summary_message (snd state)) ;;
  Ok (fst state).

End localization_fixer.

(** ** localization_status.py *)

Module localization_status.

Record status : Type := mk_status {
  total_keys : Z;
  should_not_translate : Z;
  complete_keys : Z
}.

Definition check_entry (s : status) (key : string) (value : json)
  : result status :=
  should <- py_get value "shouldTranslate" JNull ;;
  if py_eq_False should
  then Ok (mk_status (total_keys s) (should_not_translate s + 1) (complete_keys s))
  else
    localizations <- py_get value "localizations" (JObj []) ;;
    available_languages <- py_keys localizations ;;
    if set_issubset EXPECTED_LANGUAGES available_languages
    then Ok (mk_status (total_keys s) (should_not_translate s) (complete_keys s + 1))
    else Ok s.

(** [(complete_keys / translatable_keys * 100) if translatable_keys > 0
    else 0]: a [float], or the [int] zero. *)
Definition completion_percentage (s : status) : json :=
  let translatable_keys := (total_keys s - should_not_translate s)%Z in
  if (translatable_keys >? 0)%Z
  then JFloat (percentage (complete_keys s) translatable_keys)
  else JInt 0.

(** The counting part of [check_localization_status], on the loaded
    document. *)
Definition check_localization_status (data : json) : result (status * json) :=
  strings <- py_get data "strings" (JObj []) ;;
  total <- py_len strings ;;
  items <- py_items strings ;;
  s <- for_items check_entry items (mk_status total 0 0) ;;
  Ok (s, completion_percentage s).

End localization_status.

(** ** fix_localizations.py *)

Module fix_localizations.

(** Body of [for lang_code, localization in localizations.items()]. *)
Definition coerce_state (localization : json) : result json :=
  has_unit <- py_contains "stringUnit" localization ;;
  if has_unit
  then
    string_unit <- py_getitem localization "stringUnit" ;;
    has_state <- py_contains "state" string_unit ;;
    if negb has_state
    then
      string_unit' <- py_setitem string_unit "state" (JStr "translated") ;;
      Ok (update_field localization "stringUnit" string_unit')
    else
      state <- py_getitem string_unit "state" ;;
      if negb (py_eq_str state "translated")
      then
        string_unit' <- py_setitem string_unit "state" (JStr "translated") ;;
        Ok (update_field localization "stringUnit" string_unit')
      else Ok localization
  else Ok localization.

(** A loop over [d.items()] that updates the values in place. *)
Fixpoint update_items (body : string -> json -> result json)
  (items : list (string * json)) : result (list (string * json)) :=
  match items with
  | [] => Ok []
  | (k, v) :: rest =>
      v' <- body k v ;;
      rest' <- update_items body rest ;;
      Ok ((k, v') :: rest')
  end.

(** Body of [for string_key, string_data in data['strings'].items()]. *)
Definition fix_entry (string_key : string) (string_data : json) : result json :=
  should <- py_get string_data "shouldTranslate" JNull ;;
  if py_eq_False should then Ok string_data
  else
    has_localizations <- py_contains "localizations" string_data ;;
    if negb has_localizations then Ok string_data
    else
      localizations <- py_getitem string_data "localizations" ;;
      has_en <- py_contains "en" localizations ;;
      nonempty <- (if has_en then Ok false
                   else n <- py_len localizations ;; Ok (n >? 0)%Z) ;;
      localizations1 <-
        (if nonempty
         then py_setitem localizations "en" (translated_unit (JStr string_key))
         else Ok localizations) ;;
      items <- py_items localizations1 ;;
      items' <- update_items (fun _ localization => coerce_state localization)
                  items ;;
      Ok (update_field string_data "localizations" (JObj items')).

(** [fix_localizations(file_path)] as a function from the document read
    to the document the file holds afterwards.  Without a ['strings']
    key the script returns before writing. *)
Definition fix_localizations (data : json) : result json :=
  has_strings <- py_contains "strings" data ;;
  if negb has_strings then Ok data
  else
    strings <- py_getitem data "strings" ;;
    items <- py_items strings ;;
    items' <- update_items fix_entry items ;;
    Ok (update_field data "strings" (JObj items')).

End fix_localizations.

(** ** The repair loops without their prints *)

(** What the two repair loops do to the document when no [print]
    raises.  The theorems are about the functions of the scripts; these
    serve their proofs. *)
Module silent.

Definition analyzer_fix_key (a : analysis) (d : json) (key : string)
  : result json :=
  match dict_get (missing_languages a) key with
  | Some (lang0 :: langs) =>
      localization_analyzer.add_translations d key (lang0 :: langs)
  | _ => Ok d
  end.

Definition analyzer_fix_localizations
  (list_of_set : list string -> list string) (data : json) : result json :=
  a <- localization_analyzer.analyze_completeness list_of_set data ;;
  fixed_data <- py_copy data ;;
  for_each (analyzer_fix_key a) (incomplete_keys a) fixed_data.

Definition fixer_fix_key (a : analysis) (d : json) (key : string)
  : result json :=
  match dict_get (missing_languages a) key with
  | Some (lang0 :: langs) =>
      localization_fixer.add_translations d key (lang0 :: langs)
  | _ => Ok d
  end.

Definition fixer_fix_localizations
  (list_of_set : list string -> list string) (data : json) : result json :=
  a <- localization_fixer.analyze_completeness list_of_set data ;;
  for_each (fixer_fix_key a) (incomplete_keys a)
    (localization_fixer.deep_copy data).

End silent.

(** ** Reading a catalog *)

(** The entries: [data.get('strings', {})] when it is a dict. *)
Definition strings_of (d : json) : list (string * json) :=
  match d with
  | JObj m =>
      match dict_get m "strings" with
      | Some (JObj s) => s
      | _ => []
      end
  | _ => []
  end.

Definition entry_of (d : json) (key : string) : option json :=
  dict_get (strings_of d) key.

(** [shouldTranslate == False] *)
Definition excluded (entry : json) : bool :=
  match entry with
  | JObj fields =>
      match dict_get fields "shouldTranslate" with
      | Some v => py_eq_False v
      | None => false
      end
  | _ => false
  end.

(** The ['localizations'] mapping of an entry, empty when the entry has
    none. *)
Definition localizations_of (entry : json) : list (string * json) :=
  match entry with
  | JObj fields =>
      match dict_get fields "localizations" with
      | Some (JObj locs) => locs
      | _ => []
      end
  | _ => []
  end.

Definition has_localizations (entry : json) : bool :=
  match entry with
  | JObj fields => dict_mem "localizations" fields
  | _ => false
  end.

Definition localization_of (d : json) (key lang : string) : option json :=
  match entry_of d key with
  | Some entry => dict_get (localizations_of entry) lang
  | None => None
  end.

(** Target codes absent from the entry. *)
Definition missing_of (entry : json) : list string :=
  set_diff EXPECTED_LANGUAGES (dict_keys (localizations_of entry)).

Definition string_unit_of (localization : json) : option json :=
  match localization with
  | JObj fields => dict_get fields "stringUnit"
  | _ => None
  end.

Definition state_of (localization : json) : option json :=
  match string_unit_of localization with
  | Some (JObj unit) => dict_get unit "state"
  | _ => None
  end.

Definition value_of (localization : json) : option json :=
  match string_unit_of localization with
  | Some (JObj unit) => dict_get unit "value"
  | _ => None
  end.

Definition is_translated (localization : json) : bool :=
  match state_of localization with
  | Some state => py_eq_str state "translated"
  | None => false
  end.

Definition all_states_translated (entry : json) : bool :=
  forallb (fun kv => is_translated (snd kv)) (localizations_of entry).

(** Complete by presence: translatable and no target code missing. *)
Definition complete_by_presence (entry : json) : bool :=
  negb (excluded entry)
  && match missing_of entry with [] => true | _ :: _ => false end.

(** Complete by presence and state. *)
Definition complete_by_state (entry : json) : bool :=
  complete_by_presence entry && all_states_translated entry.

Definition count_entries (p : json -> bool) (s : list (string * json)) : Z :=
  Z.of_nat (length (filter (fun kv => p (snd kv)) s)).

(** The outcome of one round of an analysis loop. *)
Inductive verdict : Type :=
| Excluded
| Missing (codes : list string)
| Untranslated
| Complete.

Definition verdict_of (strict : bool) (entry : json) : verdict :=
  if excluded entry then Excluded
  else
    match missing_of entry with
    | (_ :: _) as codes => Missing codes
    | [] =>
        if strict && negb (all_states_translated entry)
        then Untranslated else Complete
    end.

Definition apply_verdict (list_of_set : list string -> list string)
  (a : analysis) (kv : string * verdict) : analysis :=
  match snd kv with
  | Excluded => count_excluded a
  | Missing codes =>
      record_missing (add_incomplete a (fst kv)) (fst kv) (list_of_set codes)
  | Untranslated => add_incomplete a (fst kv)
  | Complete => count_complete a
  end.

Definition verdicts (strict : bool) (items : list (string * json))
  : list (string * verdict) :=
  map (fun kv => (fst kv, verdict_of strict (snd kv))) items.

Definition is_incomplete (v : verdict) : bool :=
  match v with
  | Missing _ | Untranslated => true
  | _ => false
  end.

Definition complete_under (strict : bool) (entry : json) : bool :=
  if strict then complete_by_state entry else complete_by_presence entry.

(** The report of a successful analysis, field by field. *)
Record reported (list_of_set : list string -> list string) (strict : bool)
  (d : json) (a : analysis) : Prop := {
  rep_total : total_keys a = Z.of_nat (length (strings_of d));
  rep_excluded : should_not_translate a = count_entries excluded (strings_of d);
  rep_complete :
    complete_keys a = count_entries (complete_under strict) (strings_of d);
  rep_incomplete :
    incomplete_keys a
    = map fst (filter (fun kv => is_incomplete (verdict_of strict (snd kv)))
                 (strings_of d));
  rep_missing :
    forall k e, NoDup (dict_keys (strings_of d)) ->
      entry_of d k = Some e ->
      dict_get (missing_languages a) k
      = match verdict_of strict e with
        | Missing codes => Some (list_of_set codes)
        | _ => None
        end;
  rep_percentage :
    completion_percentage a
    = if (total_keys a - should_not_translate a >? 0)%Z
      then percentage (complete_keys a) (total_keys a - should_not_translate a)
      else 0%float
}.

(** ** The synthesis chain *)

(** The chain as the specification words it: the phrase table entry for
    [(key, L)]; else the key when [L] is ['en']; else the canonical
    value, the value of the existing ['en'] Localization if present and
    otherwise the key. *)
Definition canonical_value (key : string) (locs : list (string * json))
  : option json :=
  match dict_get locs "en" with
  | Some en => value_of en
  | None => Some (JStr key)
  end.

Definition spec_choice (table : list (string * list (string * string)))
  (key lang : string) (locs : list (string * json)) : option json :=
  match lookup_phrase table key lang with
  | Some v => Some (JStr v)
  | None =>
      if String.eqb lang "en" then Some (JStr key)
      else canonical_value key locs
  end.

(** The chain with the extra step of [get_translation_value]: before
    falling back to an English value taken from the entry, that value is
    itself looked up in the phrase table. *)
Definition via_english (table : list (string * list (string * string)))
  (lang : string) (english_value : json) : option json :=
  match english_value with
  | JStr s =>
      match lookup_phrase table s lang with
      | Some v => Some (JStr v)
      | None => Some english_value
      end
  | JArr _ | JObj _ => None
  | _ => Some english_value
  end.

Definition fixer_choice (table : list (string * list (string * string)))
  (key lang : string) (locs : list (string * json)) : option json :=
  match lookup_phrase table key lang with
  | Some v => Some (JStr v)
  | None =>
      if String.eqb lang "en" then Some (JStr key)
      else
        match dict_get locs "en" with
        | Some en =>
            match value_of en with
            | Some english_value => via_english table lang english_value
            | None => None
            end
        | None => Some (JStr key)
        end
  end.

(** ** How repair relates an entry to the entry it started from *)

Section Grown.
Variable choice : string -> string -> list (string * json) -> option json.

(** [locs] is [locs0] plus synthesized Localizations under target codes
    that [locs0] lacks. *)
Definition filled (key : string) (locs0 locs : list (string * json)) : Prop :=
  (forall lang x, dict_get locs0 lang = Some x -> dict_get locs lang = Some x)
  /\ (forall lang, dict_get locs0 lang = None ->
        dict_get locs lang = None
        \/ (In lang EXPECTED_LANGUAGES
            /\ exists v, choice key lang locs0 = Some v
                 /\ dict_get locs lang = Some (translated_unit v))).

Definition grown (key : string) (entry0 entry : json) : Prop :=
  entry = entry0
  \/ (excluded entry0 = false
      /\ exists fields locs,
           entry0 = JObj fields
           /\ entry = JObj (dict_set fields "localizations" (JObj locs))
           /\ filled key (localizations_of entry0) locs).

Definition grown_items (s0 s : list (string * json)) : Prop :=
  Forall2 (fun kv0 kv => fst kv = fst kv0 /\ grown (fst kv0) (snd kv0) (snd kv))
    s0 s.

End Grown.

(** The document [JObj m] with entries [s], once the entry [JObj e]
    under [key] has been given the localizations [locs]. *)
Definition plug (m s e : list (string * json)) (key : string)
  (locs : list (string * json)) : json :=
  JObj (dict_set m "strings"
          (JObj (dict_set s key
                   (JObj (dict_set e "localizations" (JObj locs)))))).

(** What one round of a repair loop does to the document. *)
Definition key_step
  (choice : string -> string -> list (string * json) -> option json)
  (fix_key : analysis -> json -> string -> result json) : Prop :=
  forall a m s key e0 d',
    dict_get m "strings" = Some (JObj s) ->
    dict_get s key = Some e0 ->
    fix_key a (JObj m) key = Ok d' ->
    match dict_get (missing_languages a) key with
    | Some (lang0 :: langs) =>
        (forall lang, In lang (lang0 :: langs) -> In lang (missing_of e0)) ->
        exists e locs,
          e0 = JObj e
          /\ d' = plug m s e key locs
          /\ filled choice key (localizations_of e0) locs
          /\ (forall lang, In lang (lang0 :: langs) -> dict_mem lang locs = true)
    | _ => d' = JObj m
    end.

(** A key whose round changes nothing: the report lists no missing
    code for it. *)
Definition idle (a : analysis) (k : string) : Prop :=
  match dict_get (missing_languages a) k with
  | Some (_ :: _) => False
  | _ => True
  end.

(** The localizations after the English step of the normaliser:
    ['en'] is added, valued with the key, when it is absent and some
    other code is present. *)
Definition with_english (key : string) (locs : list (string * json))
  : list (string * json) :=
  if negb (dict_mem "en" locs) && (Z.of_nat (length locs) >? 0)%Z
  then dict_set locs "en" (translated_unit (JStr key))
  else locs.

(** ** The schema of a catalog *)

(** A Localization as the data model has it: a dict whose
    ['stringUnit'] is a dict with a string under ['value']. *)
Definition localization_ok (localization : json) : bool :=
  match value_of localization with
  | Some (JStr _) => true
  | _ => false
  end.

(** An entry: a dict whose ['localizations'], if any, maps codes to
    Localizations. *)
Definition entry_ok (entry : json) : bool :=
  match entry with
  | JObj fields =>
      match dict_get fields "localizations" with
      | None => true
      | Some (JObj locs) => forallb (fun kv => localization_ok (snd kv)) locs
      | Some _ => false
      end
  | _ => false
  end.

(** A catalog: a dict whose ['strings'] maps keys to entries. *)
Definition well_formed (d : json) : bool :=
  match d with
  | JObj m =>
      match dict_get m "strings" with
      | Some (JObj s) => forallb (fun kv => entry_ok (snd kv)) s
      | _ => false
      end
  | _ => false
  end.

(** Every translatable entry has a ['localizations'] mapping. *)
Definition all_mapped (d : json) : bool :=
  forallb (fun kv => excluded (snd kv) || has_localizations (snd kv))
    (strings_of d).

Definition all_ok (locs : list (string * json)) : Prop :=
  Forall (fun kv => localization_ok (snd kv) = true) locs.

(** What one round needs of the entry it works on, and leaves true. *)
Definition round_total (Pre : json -> Prop)
  (fix_key : analysis -> json -> string -> result json) : Prop :=
  forall a m s key e,
    dict_get m "strings" = Some (JObj s) ->
    dict_get s key = Some e ->
    Pre e ->
    fix_key a (JObj m) key = Ok (JObj m)
    \/ exists e',
         Pre e'
         /\ fix_key a (JObj m) key
            = Ok (JObj (dict_set m "strings" (JObj (dict_set s key e')))).

(** A dict built by [json.load] has no key twice. *)
Fixpoint nodupb (l : list string) : bool :=
  match l with
  | [] => true
  | x :: rest => negb (set_mem x rest) && nodupb rest
  end.

Definition unique_keys (d : json) : bool := nodupb (dict_keys (strings_of d)).

(** Repair, by either script. *)
Definition repairs (console : string -> bool)
  (list_of_set : list string -> list string) (d d' : json) : Prop :=
  localization_fixer.fix_localizations console list_of_set d = Ok d'
  \/ localization_analyzer.fix_localizations console list_of_set d = Ok d'.

Definition has_all_codes (d : json) (key : string) : Prop :=
  exists entry,
    entry_of d key = Some entry
    /\ forall lang, In lang EXPECTED_LANGUAGES ->
         dict_mem lang (localizations_of entry) = true.

(** The console accepts what a repair prints at the end of the round of
    [key]: for the automatic one whatever the number of missing
    languages, for the interactive one whichever target codes are
    missing. *)
Definition fixer_prints (console : string -> bool) (key : string) : Prop :=
  forall langs,
    accepts console (localization_fixer.fixed_message key langs) = true.

Definition analyzer_prints (console : string -> bool) (key : string) : Prop :=
  forall langs,
    incl langs EXPECTED_LANGUAGES ->
    accepts console (localization_analyzer.fixed_message key langs) = true.

(** ** Sample catalogs *)

(** One order in which a set may be enumerated: that of its listing. *)
Definition source_order (s : list string) : list string := s.

(** A console whose codec is UTF-8: it has every character but the
    surrogates, which show as a byte [ED] followed by a byte in
    [A0..BF]. *)
Fixpoint has_surrogate (text : string) : bool :=
  match text with
  | String c ((String c' _) as rest) =>
      (Nat.eqb (nat_of_ascii c) 237
       && Nat.leb 160 (nat_of_ascii c') && Nat.ltb (nat_of_ascii c') 192)
      || has_surrogate rest
  | _ => false
  end.

Definition utf8_console (text : string) : bool := negb (has_surrogate text).

Definition string_unit (state value : string) : json :=
  JObj [("stringUnit", JObj [("state", JStr state); ("value", JStr value)])].

Definition catalog (entries : list (string * json)) : json :=
  JObj [("sourceLanguage", JStr "en"); ("strings", JObj entries);
        ("version", JStr "1.0")].

(** An entry Xcode has just extracted: no ['localizations'] yet. *)
Definition bare_catalog : json := catalog [("Save", JObj [])].

Definition save_catalog : json :=
  catalog
    [("Save",
      JObj [("localizations", JObj [("en", string_unit "translated" "Save")])])].

(** A key that is not the English text. *)
Definition doc_title_catalog : json :=
  catalog
    [("doc.title",
      JObj [("localizations",
             JObj [("en", string_unit "translated" "Documentation")])])].

Definition ten_codes (fr_state : string) : list (string * json) :=
  [("ar", string_unit "translated" "حفظ");
   ("de", string_unit "translated" "Sichern");
   ("es", string_unit "translated" "Guardar");
   ("fr", string_unit fr_state "Enregistrer");
   ("hi", string_unit "translated" "Save");
   ("ja", string_unit "translated" "Save");
   ("ko", string_unit "translated" "Save");
   ("pt", string_unit "translated" "Salvar");
   ("zh-Hans", string_unit "translated" "Save");
   ("en", string_unit "translated" "Save")].

(** All ten codes present, the French one awaiting review. *)
Definition review_entry : json :=
  JObj [("localizations", JObj (ten_codes "needs_review"))].

Definition review_catalog : json :=
  catalog
    [("Save", review_entry);
     ("Open",
      JObj [("localizations", JObj [("en", string_unit "translated" "Open")])])].

Definition plural_variations : json :=
  JObj [("variations", JObj [("plural", JObj [])])].

(** A French Localization that carries plural variations instead of a
    ['stringUnit']. *)
Definition variations_catalog : json :=
  catalog
    [("%lld items",
      JObj [("localizations",
             JObj [("fr", plural_variations);
                   ("de", string_unit "new" "%lld Objekte")])])].

(** The Localization a run left under [key] and [lang], if it
    returned. *)
Definition localization_after (r : result json) (key lang : string)
  : option json :=
  match r with
  | Ok d' => localization_of d' key lang
  | Raise _ => None
  end.

Definition entry_after (r : result json) (key : string) : option json :=
  match r with
  | Ok d' => entry_of d' key
  | Raise _ => None
  end.

Definition version_entry : json :=
  JObj [("shouldTranslate", JBool false);
        ("localizations", JObj [("fr", string_unit "new" "v1.0")])].

Definition excluded_catalog : json :=
  catalog
    [("v1.0", version_entry);
     ("Save",
      JObj [("localizations", JObj [("en", string_unit "translated" "Save")])])].

(** ** What an analysis can read *)

(** An entry the presence-only loop body reads without raising: a dict
    that is excluded, or whose ['localizations'], if any, is a dict. *)
Definition readable_entry (entry : json) : bool :=
  match entry with
  | JObj fields =>
      excluded entry
      || match dict_get fields "localizations" with
         | None | Some (JObj _) => true
         | Some _ => false
         end
  | _ => false
  end.

(** A document the presence-only analysis reads without raising. *)
Definition readable (d : json) : bool :=
  match d with
  | JObj m =>
      match dict_get m "strings" with
      | None => true
      | Some (JObj s) => forallb (fun kv => readable_entry (snd kv)) s
      | Some _ => false
      end
  | _ => false
  end.

(** The three counters of a report, as the status script keeps them. *)
Definition status_of (a : analysis) : localization_status.status :=
  localization_status.mk_status (total_keys a) (should_not_translate a)
    (complete_keys a).

(** Translatable and not complete. *)
Definition incomplete_under (strict : bool) (entry : json) : bool :=
  negb (excluded entry) && negb (complete_under strict entry).

(** ** Fields of a dict *)

(** The value under [f] when [v] is a dict that has the key. *)
Definition field_of (v : json) (f : string) : option json :=
  match v with
  | JObj m => dict_get m f
  | _ => None
  end.

(** The keys of a dict, in order. *)
Definition field_names (v : json) : list string :=
  match v with
  | JObj m => dict_keys m
  | _ => []
  end.

(** [d'] is [d], or [d] with other entries under its ['strings'] key. *)
Definition strings_rewritten (d d' : json) : Prop :=
  d' = d
  \/ exists m s s',
       d = JObj m
       /\ dict_get m "strings" = Some (JObj s)
       /\ d' = JObj (dict_set m "strings" (JObj s')).

(** A field of the ['stringUnit'] of a Localization. *)
Definition unit_field (localization : json) (f : string) : option json :=
  match string_unit_of localization with
  | Some string_unit => field_of string_unit f
  | None => None
  end.

(** ** localization_analyzer.py: the breakdown printed by [print_analysis] *)

Module print_analysis.

(** A dict with [int] keys, in insertion order. *)
Fixpoint int_get {V : Type} (m : list (Z * V)) (k : Z) : option V :=
  match m with
  | [] => None
  | (k', v) :: rest => if (k =? k')%Z then Some v else int_get rest k
  end.

Fixpoint int_set {V : Type} (m : list (Z * V)) (k : Z) (v : V)
  : list (Z * V) :=
  match m with
  | [] => [(k, v)]
  | (k', v') :: rest =>
      if (k =? k')%Z then (k, v) :: rest else (k', v') :: int_set rest k v
  end.

(** [analysis['missing_languages'].get(key, [])] *)
Definition missing_langs (a : analysis) (key : string) : list string :=
  match dict_get (missing_languages a) key with
  | Some langs => langs
  | None => []
  end.

(** Body of [for key in analysis['incomplete_keys']], which groups the
    keys by the number of their missing languages. *)
Definition group_key (a : analysis) (missing_counts : list (Z * list string))
  (key : string) : result (list (Z * list string)) :=
  let count := Z.of_nat (length (missing_langs a key)) in
  let missing_counts1 :=
    match int_get missing_counts count with
    | None => int_set missing_counts count []
    | Some _ => missing_counts
    end in
  match int_get missing_counts1 count with
  | Some keys => Ok (int_set missing_counts1 count (keys ++ [key]))
  | None => Raise KeyError
  end.

Fixpoint insert_descending (x : Z) (l : list Z) : list Z :=
  match l with
  | [] => [x]
  | y :: rest =>
      if (y <? x)%Z then x :: l else y :: insert_descending x rest
  end.

(** [sorted(counts, reverse=True)] *)
Definition sorted_reverse (counts : list Z) : list Z :=
  fold_right insert_descending [] counts.

(** [print(text)], with the lines printed so far. *)
Definition emit (console : string -> bool) (out : list string) (text : string)
  : result (list string) :=
  printed <- py_print console text ;;
  Ok (out ++ [text]).

(** The texts printed for a count: the heading, the line of a key, the
    line for the keys left out. *)
Definition heading (count : Z) (keys : list string) : string :=
  String "010"
    ("Missing " ++ str_of_int count ++ " language(s) ("
     ++ str_of_int (Z.of_nat (length keys)) ++ " keys):")%string.

Definition key_line (a : analysis) (key : string) : string :=
  ("  '" ++ key ++ "' -> Missing: " ++ join ", " (missing_langs a key))%string.

Definition more_line (keys : list string) : string :=
  ("  ... and " ++ str_of_int (Z.of_nat (length keys) - 10)
   ++ " more keys")%string.

(** Body of [for key in keys[:10]]. *)
Definition print_key (console : string -> bool) (a : analysis)
  (out : list string) (key : string) : result (list string) :=
  emit console out (key_line a key).

(** Body of [for count in sorted(missing_counts.keys(), reverse=True)]. *)
Definition print_group (console : string -> bool) (a : analysis)
  (missing_counts : list (Z * list string)) (out : list string) (count : Z)
  : result (list string) :=
  match int_get missing_counts count with
  | Some keys =>
      out1 <- emit console out (heading count keys) ;;
      out2 <- for_each (print_key console a) (firstn 10 keys) out1 ;;
      if (Z.of_nat (length keys) >? 10)%Z
      then emit console out2 (more_line keys)
      else Ok out2
  | None => Raise KeyError
  end.

(** The part of [print_analysis] under [if analysis['incomplete_keys']],
    returning the lines it has printed. *)
Definition breakdown (console : string -> bool) (a : analysis)
  : result (list string) :=
  match incomplete_keys a with
  | [] => Ok []
  | _ :: _ =>
      out1 <- emit console [] "MISSING TRANSLATIONS BREAKDOWN:" ;;
      out2 <- emit console out1 "----------------------------------------" ;;
      missing_counts <- for_each (group_key a) (incomplete_keys a) [] ;;
      for_each (print_group console a missing_counts)
        (sorted_reverse (map fst missing_counts)) out2
  end.

End print_analysis.

(** The number of missing languages the report records for a key. *)
Definition count_of (a : analysis) (key : string) : Z :=
  Z.of_nat (length (print_analysis.missing_langs a key)).

(** The keys of [keys] with [count] missing languages, in order. *)
Definition keys_with (a : analysis) (count : Z) (keys : list string)
  : list string :=
  filter (fun key => (count_of a key =? count)%Z) keys.

(** What the breakdown shows for one count: the count, the number of
    keys that have it, the keys shown with their missing languages, and
    the number of keys left out if any. *)
Record group : Type := mk_group {
  group_count : Z;
  group_size : Z;
  group_examples : list (string * list string);
  group_more : option Z
}.

(** The group of a count as the report determines it: the incomplete
    keys with that many missing languages, the first ten of them shown
    in report order. *)
Definition group_of (a : analysis) (count : Z) : group :=
  let keys := keys_with a count (incomplete_keys a) in
  mk_group count (Z.of_nat (length keys))
    (map (fun key => (key, print_analysis.missing_langs a key))
       (firstn 10 keys))
    (if (Z.of_nat (length keys) >? 10)%Z
     then Some (Z.of_nat (length keys) - 10)%Z
     else None).

(** The lines a group is printed as. *)
Definition group_lines (g : group) : list string :=
  (String "010"
     ("Missing " ++ str_of_int (group_count g) ++ " language(s) ("
      ++ str_of_int (group_size g) ++ " keys):")%string
   :: map (fun example =>
             ("  '" ++ fst example ++ "' -> Missing: "
              ++ join ", " (snd example))%string)
        (group_examples g))
  ++ match group_more g with
     | Some n => [("  ... and " ++ str_of_int n ++ " more keys")%string]
     | None => []
     end.

(** The lines of the whole breakdown: nothing without a group, else the
    title, the rule and the groups. *)
Definition report_lines (groups : list group) : list string :=
  match groups with
  | [] => []
  | _ :: _ =>
      "MISSING TRANSLATIONS BREAKDOWN:"
      :: "----------------------------------------"
      :: concat (map group_lines groups)
  end.

Definition nonempty (keys : list string) : option (list string) :=
  match keys with
  | [] => None
  | _ :: _ => Some keys
  end.

(** [missing_counts] once the keys of [done] have been grouped. *)
Definition grouped (a : analysis) (done : list string)
  (missing_counts : list (Z * list string)) : Prop :=
  NoDup (map fst missing_counts)
  /\ forall count,
       print_analysis.int_get missing_counts count
       = nonempty (keys_with a count done).

Definition total_size (groups : list group) : Z :=
  fold_right Z.add 0%Z (map group_size groups).

(** A printing step [f] prints the lines [lines] after those already
    printed, or raises [UnicodeEncodeError] at one of them that the
    console rejects. *)
Definition emits (console : string -> bool)
  (f : list string -> result (list string)) (lines : list string) : Prop :=
  forall out,
    match f out with
    | Ok out' => out' = out ++ lines
    | Raise err =>
        err = UnicodeEncodeError
        /\ exists text, In text lines /\ accepts console text = false
    end.

(** Another order: the listing read backwards. *)
Definition reverse_order (s : list string) : list string := rev s.

(** A key ending in a lone surrogate, U+D800, which a JSON text can hold
    in an escape. *)
Definition surrogate_key : string :=
  String "K" (String "237" (String "160" (String "128" EmptyString))).

Definition surrogate_catalog : json :=
  catalog
    [(surrogate_key,
      JObj [("localizations", JObj [("en", string_unit "translated" "K")])])].

(** Three keys, one of them with the ten codes, all translated. *)
Definition thirds_catalog : json :=
  catalog
    [("Save", JObj [("localizations", JObj (ten_codes "translated"))]);
     ("Open",
      JObj [("localizations", JObj [("en", string_unit "translated" "Open")])]);
     ("Close",
      JObj [("localizations",
             JObj [("en", string_unit "translated" "Close")])])].

(** * Properties *)

(** ** Dictionaries and sets *)

Section DictFacts.
Context {V : Type}.
Implicit Types (m : list (string * V)) (k : string) (v : V).

Lemma dict_get_set_same m k v : dict_get (dict_set m k v) k = Some v.
Proof.
  induction m as [|[k' v'] m IH]; simpl.
  - now rewrite String.eqb_refl.
  - destruct (String.eqb k k') eqn:E; simpl; rewrite E; auto.
Qed.

Lemma dict_get_set_other m k k' v :
  k' <> k -> dict_get (dict_set m k v) k' = dict_get m k'.
Proof.
  intros Hne. induction m as [|[k1 v1] m IH]; simpl.
  - destruct (String.eqb_spec k' k); congruence.
  - destruct (String.eqb_spec k k1) as [->|]; simpl.
    + destruct (String.eqb_spec k' k1); congruence.
    + now rewrite IH.
Qed.

Lemma dict_set_get_id m k v : dict_get m k = Some v -> dict_set m k v = m.
Proof.
  induction m as [|[k1 v1] m IH]; simpl; [discriminate|].
  destruct (String.eqb_spec k k1) as [->|]; intros H.
  - congruence.
  - now rewrite IH.
Qed.

Lemma dict_set_set m k v v' : dict_set (dict_set m k v) k v' = dict_set m k v'.
Proof.
  induction m as [|[k1 v1] m IH]; simpl.
  - now rewrite String.eqb_refl.
  - destruct (String.eqb k k1) eqn:E; simpl; rewrite E; congruence.
Qed.

Lemma dict_get_In m k v : dict_get m k = Some v -> In (k, v) m.
Proof.
  induction m as [|[k1 v1] m IH]; simpl; [discriminate|].
  destruct (String.eqb_spec k k1) as [->|]; intros H.
  - left. congruence.
  - right. auto.
Qed.

Lemma dict_get_None m k : dict_get m k = None <-> ~ In k (dict_keys m).
Proof.
  induction m as [|[k1 v1] m IH]; simpl; [tauto|].
  destruct (String.eqb_spec k k1) as [->|]; split; intros H.
  - discriminate.
  - exfalso. apply H. now left.
  - intros [E|Hin]; [congruence|]. now apply IH.
  - apply IH. intros Hin. apply H. now right.
Qed.

Lemma dict_mem_In m k : dict_mem k m = true <-> In k (dict_keys m).
Proof.
  unfold dict_mem. destruct (dict_get m k) eqn:E.
  - split; [intros _|reflexivity].
    apply dict_get_In in E. apply (in_map fst) in E. exact E.
  - split; [discriminate|]. intros H. now apply dict_get_None in E.
Qed.

Lemma In_dict_get m k v :
  NoDup (dict_keys m) -> In (k, v) m -> dict_get m k = Some v.
Proof.
  induction m as [|[k1 v1] m IH]; simpl; [tauto|].
  intros Hnd [E|Hin]; inversion Hnd as [|? ? Hnot Hnd']; subst.
  - inversion E; subst. now rewrite String.eqb_refl.
  - destruct (String.eqb_spec k k1) as [->|]; auto.
    exfalso. apply Hnot. apply (in_map fst) in Hin. exact Hin.
Qed.

Lemma dict_mem_set m k v l :
  dict_mem l (dict_set m k v) = true <-> l = k \/ dict_mem l m = true.
Proof.
  unfold dict_mem. destruct (String.eqb_spec l k) as [->|Hne].
  - rewrite dict_get_set_same. tauto.
  - rewrite dict_get_set_other by assumption. tauto.
Qed.

End DictFacts.

Lemma set_mem_In x s : set_mem x s = true <-> In x s.
Proof.
  unfold set_mem. rewrite existsb_exists. split.
  - intros [y [Hy E]]. apply String.eqb_eq in E. now subst.
  - intros H. exists x. split; [assumption|apply String.eqb_refl].
Qed.

Lemma set_diff_In x a b : In x (set_diff a b) <-> In x a /\ ~ In x b.
Proof.
  unfold set_diff. rewrite filter_In, negb_true_iff.
  split; intros [H1 H2]; split; auto.
  - intros Hb. apply set_mem_In in Hb. congruence.
  - destruct (set_mem x b) eqn:E; [|reflexivity].
    apply set_mem_In in E. tauto.
Qed.

Lemma set_issubset_diff a b :
  set_issubset a b = match set_diff a b with [] => true | _ :: _ => false end.
Proof.
  unfold set_issubset, set_diff.
  induction a as [|x a IH]; simpl; [reflexivity|].
  destruct (set_mem x b); simpl; auto.
Qed.

Lemma missing_of_spec entry lang :
  In lang (missing_of entry)
  <-> In lang EXPECTED_LANGUAGES
      /\ dict_get (localizations_of entry) lang = None.
Proof. unfold missing_of. rewrite set_diff_In, dict_get_None. tauto. Qed.

(** ** Results *)

Lemma bind_Ok {A B} (r : result A) (k : A -> result B) (b : B) :
  bind r k = Ok b -> exists a, r = Ok a /\ k a = Ok b.
Proof. destruct r; simpl; [eauto|discriminate]. Qed.

Tactic Notation "inv_bind" hyp(H) :=
  let x := fresh "x" in
  let Hx := fresh "Hx" in
  apply bind_Ok in H; destruct H as [x [Hx H]].

Tactic Notation "inv_bind" hyp(H) "as" ident(x) ident(Hx) :=
  apply bind_Ok in H; destruct H as [x [Hx H]].

(** ** The analysis loops *)

Lemma all_translated_forallb items b :
  localization_analyzer.all_translated items = Ok b ->
  b = forallb (fun kv => is_translated (snd kv)) items.
Proof.
  revert b. induction items as [|[lang loc] items IH]; simpl; intros b H.
  - congruence.
  - destruct loc as [| | | | | |fields]; try discriminate. simpl in H.
    unfold is_translated, state_of, string_unit_of. simpl.
    destruct (dict_get fields "stringUnit") as [unit|]; simpl in H.
    + destruct unit as [| | | | | |u]; try discriminate. simpl in H.
      destruct (dict_get u "state") as [st|]; simpl in H.
      * destruct (py_eq_str st "translated"); simpl; [auto|congruence].
      * simpl. congruence.
    + simpl. congruence.
Qed.

(** What the first reads of a loop body return. *)
Lemma get_should value v :
  py_get value "shouldTranslate" JNull = Ok v ->
  py_eq_False v = excluded value.
Proof.
  destruct value as [| | | | | |fields]; try discriminate.
  simpl. intros [= <-]. now destruct (dict_get fields "shouldTranslate").
Qed.

Lemma get_localizations value x ks :
  py_get value "localizations" (JObj []) = Ok x ->
  py_keys x = Ok ks ->
  x = JObj (localizations_of value)
  /\ ks = dict_keys (localizations_of value).
Proof.
  destruct value as [| | | | | |fields]; try discriminate.
  simpl. intros [= <-].
  destruct (dict_get fields "localizations") as [[| | | | | |l]|];
    try discriminate; simpl; intros [= <-]; auto.
Qed.

Section Analysis.
Variable list_of_set : list string -> list string.

(** Each round of the strict loop applies the verdict of its entry. *)
Lemma analyzer_entry_verdict a key value a' :
  localization_analyzer.analyze_entry list_of_set a key value = Ok a' ->
  a' = apply_verdict list_of_set a (key, verdict_of true value).
Proof.
  unfold localization_analyzer.analyze_entry, apply_verdict, verdict_of.
  intros H. inv_bind H as should Hs. rewrite (get_should _ _ Hs) in H. simpl.
  destruct (excluded value); [now inversion H|].
  inv_bind H as locs Hl. inv_bind H as ks Hk.
  destruct (get_localizations _ _ _ Hl Hk) as [-> ->].
  fold (missing_of value) in H.
  destruct (missing_of value); [|now inversion H].
  simpl in H. inv_bind H as ok Hok. apply all_translated_forallb in Hok. subst.
  unfold all_states_translated.
  destruct (forallb _ (localizations_of value)); now inversion H.
Qed.

(** Each round of the presence-only loop applies the verdict of its
    entry. *)
Lemma fixer_entry_verdict a key value a' :
  localization_fixer.analyze_entry list_of_set a key value = Ok a' ->
  a' = apply_verdict list_of_set a (key, verdict_of false value).
Proof.
  unfold localization_fixer.analyze_entry, apply_verdict, verdict_of.
  intros H. inv_bind H as should Hs. rewrite (get_should _ _ Hs) in H. simpl.
  destruct (excluded value); [now inversion H|].
  inv_bind H as locs Hl. inv_bind H as ks Hk.
  destruct (get_localizations _ _ _ Hl Hk) as [-> ->].
  fold (missing_of value) in H.
  destruct (missing_of value); now inversion H.
Qed.

Lemma for_items_verdicts strict body items a0 a :
  (forall a key value a',
      body a key value = Ok a' ->
      a' = apply_verdict list_of_set a (key, verdict_of strict value)) ->
  for_items body items a0 = Ok a ->
  a = fold_left (apply_verdict list_of_set) (verdicts strict items) a0.
Proof.
  intros Hbody. revert a0.
  induction items as [|[key value] items IH]; simpl; intros a0 H.
  - congruence.
  - inv_bind H. apply Hbody in Hx. subst x. now apply IH.
Qed.

Lemma fold_total vs a0 :
  total_keys (fold_left (apply_verdict list_of_set) vs a0) = total_keys a0.
Proof.
  revert a0. induction vs as [|[k v] vs IH]; simpl; intros; [reflexivity|].
  rewrite IH. now destruct v.
Qed.

Lemma fold_percentage vs a0 :
  completion_percentage (fold_left (apply_verdict list_of_set) vs a0)
  = completion_percentage a0.
Proof.
  revert a0. induction vs as [|[k v] vs IH]; simpl; intros; [reflexivity|].
  rewrite IH. now destruct v.
Qed.

Lemma fold_excluded strict items a0 :
  should_not_translate
    (fold_left (apply_verdict list_of_set) (verdicts strict items) a0)
  = (should_not_translate a0 + count_entries excluded items)%Z.
Proof.
  unfold count_entries. revert a0.
  induction items as [|[k e] items IH]; simpl; intros a0; [lia|].
  rewrite IH. unfold apply_verdict, verdict_of. simpl.
  destruct (excluded e); simpl.
  - lia.
  - destruct (missing_of e); simpl; [|reflexivity].
    destruct (strict && negb (all_states_translated e)); reflexivity.
Qed.

Lemma verdict_complete strict e :
  complete_under strict e
  = match verdict_of strict e with Complete => true | _ => false end.
Proof.
  unfold complete_under, complete_by_state, complete_by_presence, verdict_of.
  destruct strict, (excluded e), (missing_of e), (all_states_translated e);
    reflexivity.
Qed.

Lemma fold_complete strict items a0 :
  complete_keys
    (fold_left (apply_verdict list_of_set) (verdicts strict items) a0)
  = (complete_keys a0 + count_entries (complete_under strict) items)%Z.
Proof.
  unfold count_entries. revert a0.
  induction items as [|[k e] items IH]; simpl; intros a0; [lia|].
  rewrite IH, verdict_complete. unfold apply_verdict. simpl.
  destruct (verdict_of strict e); simpl; try rewrite Nat2Z.inj_succ; lia.
Qed.

Lemma fold_incomplete strict items a0 :
  incomplete_keys
    (fold_left (apply_verdict list_of_set) (verdicts strict items) a0)
  = incomplete_keys a0
    ++ map fst (filter (fun kv => is_incomplete (verdict_of strict (snd kv)))
                  items).
Proof.
  revert a0. induction items as [|[k e] items IH]; simpl; intros a0.
  - now rewrite app_nil_r.
  - rewrite IH. unfold apply_verdict. simpl.
    destruct (verdict_of strict e); simpl; try reflexivity;
      now rewrite <- app_assoc.
Qed.

Lemma fold_missing_absent strict items a0 k :
  ~ In k (dict_keys items) ->
  dict_get (missing_languages
              (fold_left (apply_verdict list_of_set) (verdicts strict items) a0))
    k
  = dict_get (missing_languages a0) k.
Proof.
  revert a0. induction items as [|[k1 e] items IH]; simpl; intros a0 H.
  - reflexivity.
  - rewrite IH by tauto. unfold apply_verdict. simpl.
    destruct (verdict_of strict e); simpl; try reflexivity.
    apply dict_get_set_other. intros E. apply H. left. now symmetry.
Qed.

Lemma fold_missing strict items a0 k e :
  NoDup (dict_keys items) ->
  dict_get items k = Some e ->
  dict_get (missing_languages
              (fold_left (apply_verdict list_of_set) (verdicts strict items) a0))
    k
  = match verdict_of strict e with
    | Missing codes => Some (list_of_set codes)
    | _ => dict_get (missing_languages a0) k
    end.
Proof.
  revert a0. induction items as [|[k1 e1] items IH]; simpl; intros a0 Hnd H.
  - discriminate.
  - inversion Hnd as [|? ? Hnot Hnd']; subst.
    destruct (String.eqb_spec k k1) as [->|Hne].
    + inversion H; subst e1. rewrite fold_missing_absent by assumption.
      unfold apply_verdict. simpl.
      destruct (verdict_of strict e); simpl; try reflexivity.
      apply dict_get_set_same.
    + rewrite IH by assumption.
      destruct (verdict_of strict e); try reflexivity;
        unfold apply_verdict; simpl;
        destruct (verdict_of strict e1); simpl; try reflexivity;
        now apply dict_get_set_other.
Qed.

Lemma finish_fields a :
  total_keys (finish_analysis a) = total_keys a
  /\ complete_keys (finish_analysis a) = complete_keys a
  /\ incomplete_keys (finish_analysis a) = incomplete_keys a
  /\ missing_languages (finish_analysis a) = missing_languages a
  /\ should_not_translate (finish_analysis a) = should_not_translate a.
Proof.
  unfold finish_analysis.
  destruct (total_keys a - should_not_translate a >? 0)%Z; simpl; auto.
Qed.

Lemma analysis_reported strict body d a :
  (forall a key value a',
      body a key value = Ok a' ->
      a' = apply_verdict list_of_set a (key, verdict_of strict value)) ->
  (strings <- py_get d "strings" (JObj []) ;;
   total <- py_len strings ;;
   items <- py_items strings ;;
   a <- for_items body items (initial_analysis total) ;;
   Ok (finish_analysis a)) = Ok a ->
  reported list_of_set strict d a.
Proof.
  intros Hbody H.
  destruct d as [| | | | | |m]; try discriminate. simpl in H.
  assert (Hs : exists s,
             match dict_get m "strings" with Some x => x | None => JObj [] end
             = JObj s /\ strings_of (JObj m) = s).
  { unfold strings_of.
    destruct (dict_get m "strings") as [x|]; [|eauto].
    destruct x; try discriminate. eauto. }
  destruct Hs as [s [Es Hs]]. rewrite Es in H. simpl in H.
  inv_bind H. inversion H; subst a; clear H.
  apply (for_items_verdicts strict) in Hx; [|assumption]. subst x.
  destruct (finish_fields
              (fold_left (apply_verdict list_of_set) (verdicts strict s)
                 (initial_analysis (Z.of_nat (length s)))))
    as (F1 & F2 & F3 & F4 & F5).
  split; rewrite ?Hs.
  - rewrite F1, fold_total. reflexivity.
  - rewrite F5, fold_excluded. simpl. lia.
  - rewrite F2, fold_complete. simpl. lia.
  - rewrite F3, fold_incomplete. reflexivity.
  - intros k e Hnd He. unfold entry_of in He. rewrite Hs in He.
    rewrite F4, (fold_missing strict s _ k e) by assumption.
    destruct (verdict_of strict e); reflexivity.
  - rewrite F1, F2, F5. clear F1 F2 F3 F4 F5.
    set (f := fold_left _ _ _). unfold finish_analysis.
    destruct (total_keys f - should_not_translate f >? 0)%Z; simpl.
    + reflexivity.
    + unfold f. now rewrite fold_percentage.
Qed.

Lemma analyzer_reported d a :
  localization_analyzer.analyze_completeness list_of_set d = Ok a ->
  reported list_of_set true d a.
Proof.
  apply analysis_reported. apply analyzer_entry_verdict.
Qed.

Lemma fixer_reported d a :
  localization_fixer.analyze_completeness list_of_set d = Ok a ->
  reported list_of_set false d a.
Proof.
  apply analysis_reported. apply fixer_entry_verdict.
Qed.

End Analysis.

(** ** Filling an entry *)

Section Filled.
Variable choice : string -> string -> list (string * json) -> option json.

Lemma filled_refl key locs0 : filled choice key locs0 locs0.
Proof. split; auto. Qed.

Lemma filled_set key locs0 locs lang v :
  filled choice key locs0 locs ->
  In lang EXPECTED_LANGUAGES ->
  dict_get locs0 lang = None ->
  choice key lang locs0 = Some v ->
  filled choice key locs0 (dict_set locs lang (translated_unit v)).
Proof.
  intros [Hkeep Hnew] Hin Hnone Hv. split.
  - intros l x Hl. rewrite dict_get_set_other; [auto|].
    intros ->. congruence.
  - intros l Hl. destruct (String.eqb_spec l lang) as [->|Hne].
    + right. split; [assumption|]. exists v. split; [assumption|].
      apply dict_get_set_same.
    + rewrite dict_get_set_other by assumption. auto.
Qed.

Lemma grown_refl key e : grown choice key e e.
Proof. now left. Qed.

Lemma grown_items_refl s : grown_items choice s s.
Proof.
  induction s; constructor; auto. split; [reflexivity|apply grown_refl].
Qed.

Lemma grown_items_set s0 s k e0 e' :
  grown_items choice s0 s ->
  dict_get s0 k = Some e0 ->
  grown choice k e0 e' ->
  grown_items choice s0 (dict_set s k e').
Proof.
  induction 1 as [|[k0 x0] [k1 x1] s0 s [Hk Hg] HF IH]; simpl.
  - discriminate.
  - simpl in Hk. subst k1.
    destruct (String.eqb_spec k k0) as [->|Hne]; intros He0 Hg'.
    + inversion He0; subst x0. constructor; [|assumption]. now split.
    + constructor; [now split|]. now apply IH.
Qed.

Lemma grown_items_get s0 s k e0 :
  grown_items choice s0 s ->
  dict_get s0 k = Some e0 ->
  exists e, dict_get s k = Some e /\ grown choice k e0 e.
Proof.
  induction 1 as [|[k0 x0] [k1 x1] s0 s [Hk Hg] HF IH]; simpl.
  - discriminate.
  - simpl in Hk, Hg. subst k1.
    destruct (String.eqb_spec k k0) as [->|Hne]; intros He0.
    + inversion He0; subst x0. eauto.
    + auto.
Qed.

Lemma grown_items_keys s0 s :
  grown_items choice s0 s -> dict_keys s = dict_keys s0.
Proof.
  induction 1 as [|[k0 x0] [k1 x1] s0 s [Hk Hg] HF IH]; simpl; [reflexivity|].
  simpl in Hk. now rewrite Hk, IH.
Qed.

(** A grown entry keeps every Localization it had. *)
Lemma grown_keeps key e0 e lang x :
  grown choice key e0 e ->
  dict_get (localizations_of e0) lang = Some x ->
  dict_get (localizations_of e) lang = Some x.
Proof.
  intros [->|(_ & fields & locs & -> & -> & Hkeep & _)] H; [assumption|].
  unfold localizations_of at 1. rewrite dict_get_set_same. auto.
Qed.

(** An excluded entry does not grow. *)
Lemma grown_excluded key e0 e :
  grown choice key e0 e -> excluded e0 = true -> e = e0.
Proof.
  intros [->|(Hex & _)] H; [reflexivity|congruence].
Qed.

(** Whatever a grown entry holds under a code its origin lacked was
    synthesized by the chain. *)
Lemma grown_new key e0 e lang x :
  grown choice key e0 e ->
  dict_get (localizations_of e0) lang = None ->
  dict_get (localizations_of e) lang = Some x ->
  In lang EXPECTED_LANGUAGES
  /\ exists v, choice key lang (localizations_of e0) = Some v
       /\ x = translated_unit v.
Proof.
  intros [->|(_ & fields & locs & -> & -> & _ & Hnew)] Hnone Hx; [congruence|].
  unfold localizations_of at 1 in Hx. rewrite dict_get_set_same in Hx.
  destruct (Hnew lang Hnone) as [E|(Hin & v & Hv & E)]; [congruence|].
  split; [assumption|]. exists v. split; [assumption|congruence].
Qed.

End Filled.

(** ** Reading and writing through the path to one entry *)

Lemma plug_strings m s e key locs :
  strings_of (plug m s e key locs)
  = dict_set s key (JObj (dict_set e "localizations" (JObj locs))).
Proof. unfold strings_of, plug. now rewrite dict_get_set_same. Qed.

Lemma plug_id m s e key locs :
  dict_get m "strings" = Some (JObj s) ->
  dict_get s key = Some (JObj e) ->
  dict_get e "localizations" = Some (JObj locs) ->
  plug m s e key locs = JObj m.
Proof.
  intros Hm Hs He. unfold plug.
  now rewrite (dict_set_get_id e _ _ He), (dict_set_get_id s _ _ Hs),
    (dict_set_get_id m _ _ Hm).
Qed.

Lemma assign_plug m s e key locs lang translation :
  assign_localization (plug m s e key locs) key lang translation
  = Ok (plug m s e key (dict_set locs lang translation)).
Proof.
  unfold assign_localization, plug. simpl.
  rewrite dict_get_set_same. simpl.
  rewrite dict_get_set_same. simpl.
  rewrite dict_get_set_same. simpl.
  now rewrite !dict_set_set.
Qed.

(** An assignment that went through found a ['localizations'] dict. *)
Lemma assign_shape m s key e0 lang translation d' :
  dict_get m "strings" = Some (JObj s) ->
  dict_get s key = Some e0 ->
  assign_localization (JObj m) key lang translation = Ok d' ->
  exists e locs,
    e0 = JObj e /\ dict_get e "localizations" = Some (JObj locs).
Proof.
  intros Hm Hs. unfold assign_localization. simpl. rewrite Hm. simpl.
  rewrite Hs. simpl.
  destruct e0 as [| | | | | |e]; try discriminate. simpl.
  destruct (dict_get e "localizations") as [[| | | | | |locs]|] eqn:He;
    try discriminate.
  intros _. eauto.
Qed.

Lemma dict_keys_set_In {V} (m : list (string * V)) k v x :
  In x (dict_keys (dict_set m k v)) <-> x = k \/ In x (dict_keys m).
Proof.
  split; intros H.
  - apply dict_mem_In, dict_mem_set in H.
    destruct H as [H|H]; [now left|right; now apply dict_mem_In].
  - apply dict_mem_In, dict_mem_set.
    destruct H as [H|H]; [now left|right; now apply dict_mem_In].
Qed.

Lemma dict_set_NoDup {V} (m : list (string * V)) k v :
  NoDup (dict_keys m) -> NoDup (dict_keys (dict_set m k v)).
Proof.
  induction m as [|[k1 v1] m IH]; simpl; intros Hnd.
  - constructor; [tauto|constructor].
  - inversion Hnd as [|? ? Hnot Hnd']; subst.
    destruct (String.eqb_spec k k1) as [->|Hne]; simpl.
    + now constructor.
    + constructor; [|auto].
      rewrite dict_keys_set_In. intros [E|Hin]; [congruence|tauto].
Qed.

(** The dict built by [new_translations[lang] = ...] over a list of
    codes. *)
Lemma fold_synth_spec (g : string -> json) langs acc :
  NoDup (dict_keys acc) ->
  let r := fold_left (fun acc lang => dict_set acc lang (g lang)) langs acc in
  NoDup (dict_keys r)
  /\ (forall lang, In lang langs -> dict_get r lang = Some (g lang))
  /\ (forall lang, ~ In lang langs -> dict_get r lang = dict_get acc lang).
Proof.
  revert acc. induction langs as [|l langs IH]; simpl; intros acc Hnd.
  - repeat split; tauto.
  - destruct (IH (dict_set acc l (g l)) (dict_set_NoDup _ _ _ Hnd))
      as (Hnd' & Hin & Hout).
    repeat split; [assumption| |].
    + intros lang [->|H]; [|auto].
      destruct (in_dec string_dec lang langs) as [H|H]; [auto|].
      rewrite Hout by assumption. apply dict_get_set_same.
    + intros lang H. rewrite Hout by tauto.
      apply dict_get_set_other. intros ->. tauto.
Qed.

Lemma for_items_assign_plug m s e key items locs :
  for_items (fun d' lang translation =>
               assign_localization d' key lang translation)
    items (plug m s e key locs)
  = Ok (plug m s e key
          (fold_left (fun acc kv => dict_set acc (fst kv) (snd kv)) items locs)).
Proof.
  revert locs. induction items as [|[lang t] items IH]; simpl; intros locs.
  - reflexivity.
  - rewrite assign_plug. simpl. apply IH.
Qed.

Section FillFold.
Variable choice : string -> string -> list (string * json) -> option json.

(** Storing synthesized Localizations under missing target codes keeps
    an entry [filled]. *)
Lemma fold_assign_filled key locs0 items locs :
  Forall (fun kv =>
            In (fst kv) EXPECTED_LANGUAGES
            /\ dict_get locs0 (fst kv) = None
            /\ exists v, choice key (fst kv) locs0 = Some v
                 /\ snd kv = translated_unit v) items ->
  filled choice key locs0 locs ->
  let r := fold_left (fun acc kv => dict_set acc (fst kv) (snd kv)) items locs in
  filled choice key locs0 r
  /\ (forall lang, dict_mem lang items = true -> dict_mem lang r = true)
  /\ (forall lang, dict_mem lang locs = true -> dict_mem lang r = true).
Proof.
  intros HF. revert locs.
  induction HF as [|[lang t] items (Hin & Hnone & v & Hv & Et) HF IH];
    simpl; intros locs Hfilled.
  - split; [assumption|split; [discriminate|auto]].
  - simpl in *. subst t.
    destruct (IH _ (filled_set choice _ _ _ _ _ Hfilled Hin Hnone Hv))
      as (Hf & Hitems & Hlocs).
    split; [assumption|split].
    + intros l. unfold dict_mem at 1. simpl.
      destruct (String.eqb_spec l lang) as [->|Hne]; intros H.
      * apply Hlocs. apply dict_mem_set. now left.
      * now apply Hitems.
    + intros l H. apply Hlocs. apply dict_mem_set. now right.
Qed.

End FillFold.

(** ** One round of the interactive repair *)

Lemma value_read en ev :
  (string_unit <- py_getitem en "stringUnit" ;;
   py_getitem string_unit "value") = Ok ev ->
  value_of en = Some ev.
Proof.
  intros H. inv_bind H as su Hsu.
  destruct en as [| | | | | |fields]; try discriminate.
  unfold value_of, string_unit_of. simpl in Hsu.
  destruct (dict_get fields "stringUnit") as [x|]; [|discriminate].
  inversion Hsu; subst x.
  destruct su as [| | | | | |u]; try discriminate. simpl in H.
  destruct (dict_get u "value"); [congruence|discriminate].
Qed.

Lemma analyzer_key_step :
  key_step (spec_choice localization_analyzer.translation_map)
    silent.analyzer_fix_key.
Proof.
  intros a m s key e0 d' Hm Hs H.
  unfold silent.analyzer_fix_key, localization_analyzer.add_translations in H.
  destruct (dict_get (missing_languages a) key) as [[|lang0 langs]|];
    try (now inversion H).
  intros Hmiss. inv_bind H as new Hgen.
  unfold localization_analyzer.generate_missing_translations in Hgen.
  simpl in Hgen. rewrite Hm in Hgen. simpl in Hgen.
  rewrite Hs in Hgen. simpl in Hgen.
  inv_bind Hgen as existing Hex. inv_bind Hgen as has_en Hen.
  inv_bind Hgen as english_value Hev. inversion Hgen as [Hnew]. clear Hgen.
  set (g := fun lang =>
              translated_unit
                match lookup_phrase localization_analyzer.translation_map
                        key lang with
                | Some v => JStr v
                | None => english_value
                end) in *.
  destruct (fold_synth_spec g (lang0 :: langs) [] (NoDup_nil _))
    as (Hnd & Hin & Hout).
  assert (Enew : fold_left (fun acc lang => dict_set acc lang (g lang))
                   (lang0 :: langs) [] = new) by exact Hnew.
  cbv zeta in Hnd, Hin, Hout. rewrite Enew in Hnd, Hin, Hout.
  (* the first store tells that the entry holds a ['localizations'] dict *)
  assert (Hshape : exists e locs0,
             e0 = JObj e /\ dict_get e "localizations" = Some (JObj locs0)).
  { destruct new as [|[l t] rest].
    - specialize (Hin lang0 (or_introl eq_refl)). discriminate.
    - simpl in H. inv_bind H as d1 Hd1.
      eapply assign_shape; eassumption. }
  destruct Hshape as (e & locs0 & -> & He).
  assert (Hlocs : localizations_of (JObj e) = locs0)
    by (unfold localizations_of; now rewrite He).
  rewrite <- (plug_id m s e key locs0 Hm Hs He) in H.
  rewrite for_items_assign_plug in H. inversion H as [Hd']. clear H.
  simpl in Hex. rewrite He in Hex. inversion Hex; subst existing. clear Hex.
  simpl in Hen. inversion Hen; subst has_en. clear Hen.
  assert (Hitems :
    Forall (fun kv =>
              In (fst kv) EXPECTED_LANGUAGES
              /\ dict_get locs0 (fst kv) = None
              /\ exists v,
                   spec_choice localization_analyzer.translation_map key
                     (fst kv) locs0 = Some v
                   /\ snd kv = translated_unit v) new).
  { apply Forall_forall. intros [l t] Hlt. simpl.
    apply (In_dict_get _ _ _ Hnd) in Hlt.
    destruct (in_dec string_dec l (lang0 :: langs)) as [Hl|Hl];
      [|rewrite (Hout l Hl) in Hlt; discriminate].
    rewrite (Hin l Hl) in Hlt. inversion Hlt; subst t. clear Hlt.
    apply Hmiss, missing_of_spec in Hl. rewrite Hlocs in Hl.
    destruct Hl as [Hexp Hnone]. repeat split; [assumption..|].
    unfold g, spec_choice.
    destruct (lookup_phrase localization_analyzer.translation_map key l);
      [eauto|].
    exists english_value. split; [|reflexivity].
    unfold canonical_value, dict_mem in *.
    destruct (String.eqb_spec l "en") as [->|Hne].
    - rewrite Hnone in Hev. simpl in Hev. congruence.
    - unfold py_getitem at 1 in Hev.
      destruct (dict_get locs0 "en") as [en|].
      + apply value_read. exact Hev.
      + simpl in Hev. congruence. }
  destruct (fold_assign_filled _ key locs0 new locs0 Hitems
              (filled_refl _ key locs0)) as (Hf & Hnew_in & _).
  exists e, (fold_left (fun acc kv => dict_set acc (fst kv) (snd kv)) new locs0).
  rewrite Hlocs. split; [reflexivity|]. split; [congruence|].
  split; [assumption|].
  intros l Hl. apply Hnew_in. unfold dict_mem. now rewrite (Hin l Hl).
Qed.

(** ** One round of the automatic repair *)

Lemma getitem_obj m k x :
  dict_get m k = Some x -> py_getitem (JObj m) k = Ok x.
Proof. intros H. simpl. now rewrite H. Qed.

Lemma read_plug m s e key locs :
  localization_fixer.existing_localizations_now true (JObj [])
    (plug m s e key locs) key
  = Ok (JObj locs).
Proof.
  unfold localization_fixer.existing_localizations_now, plug.
  rewrite (getitem_obj _ _ _ (dict_get_set_same m _ _)). cbn [bind].
  rewrite (getitem_obj _ _ _ (dict_get_set_same s _ _)). cbn [bind].
  apply getitem_obj, dict_get_set_same.
Qed.

(** Every phrase of the table is translated into the ten target
    codes. *)
Lemma table_complete key row lang :
  dict_get localization_fixer.TRANSLATION_MAPPINGS key = Some row ->
  In lang EXPECTED_LANGUAGES ->
  dict_get row lang <> None.
Proof.
  intros Hrow Hin.
  assert (Hall : forallb
                   (fun kr => forallb (fun l => dict_mem l (snd kr))
                                EXPECTED_LANGUAGES)
                   localization_fixer.TRANSLATION_MAPPINGS = true)
    by (vm_compute; reflexivity).
  rewrite forallb_forall in Hall.
  specialize (Hall _ (dict_get_In _ _ _ Hrow)). cbn [snd] in Hall.
  rewrite forallb_forall in Hall. specialize (Hall _ Hin).
  unfold dict_mem in Hall. destruct (dict_get row lang); congruence.
Qed.

Lemma value_read_bind {A} en (k : json -> result A) v :
  (string_unit <- py_getitem en "stringUnit" ;;
   english_value <- py_getitem string_unit "value" ;;
   k english_value) = Ok v ->
  exists english_value,
    value_of en = Some english_value /\ k english_value = Ok v.
Proof.
  intros H. inv_bind H as su Hsu. inv_bind H as ev Hev.
  exists ev. split; [|assumption].
  apply value_read. now rewrite Hsu.
Qed.

Lemma via_english_ok lang english_value v :
  (row <- py_in_table english_value localization_fixer.TRANSLATION_MAPPINGS ;;
   match row with
   | Some translations =>
       match dict_get translations lang with
       | Some v => Ok (JStr v)
       | None => Ok english_value
       end
   | None => Ok english_value
   end) = Ok v ->
  via_english localization_fixer.TRANSLATION_MAPPINGS lang english_value
  = Some v.
Proof.
  unfold via_english, lookup_phrase, py_in_table.
  destruct english_value as [| | | |x| |]; cbn [bind]; try congruence.
  destruct (dict_get localization_fixer.TRANSLATION_MAPPINGS x) as [row|];
    [|congruence].
  destruct (dict_get row lang); congruence.
Qed.

(** While the loop fills the dict it reads, [get_translation_value]
    still returns what the chain gives on the localizations the entry
    started with. *)
Lemma get_translation_value_choice key lang locs0 locs v :
  filled (fixer_choice localization_fixer.TRANSLATION_MAPPINGS) key locs0 locs ->
  In lang EXPECTED_LANGUAGES ->
  localization_fixer.get_translation_value key lang (JObj locs) = Ok v ->
  fixer_choice localization_fixer.TRANSLATION_MAPPINGS key lang locs0 = Some v.
Proof.
  unfold localization_fixer.get_translation_value, fixer_choice.
  intros [Hkeep Hnew] Hexp H.
  destruct (lookup_phrase localization_fixer.TRANSLATION_MAPPINGS key lang)
    eqn:El; [congruence|].
  destruct (String.eqb lang "en"); [congruence|].
  unfold py_contains, dict_mem in H. cbn [bind] in H.
  destruct (dict_get locs0 "en") as [en|] eqn:E0.
  - rewrite (getitem_obj _ _ _ (Hkeep _ _ E0)), (Hkeep _ _ E0) in H.
    cbn [bind] in H.
    apply value_read_bind in H. destruct H as (ev & -> & H).
    now apply via_english_ok.
  - destruct (Hnew "en" E0) as [En|(_ & ven & Hven & Eg)].
    + rewrite En in H. congruence.
    + rewrite (getitem_obj _ _ _ Eg), Eg in H. cbn [bind] in H.
      apply value_read_bind in H. destruct H as (ev & Hev & H).
      cbn in Hev. inversion Hev; subst ev. clear Hev.
      apply via_english_ok in H. rewrite <- H. clear H.
      unfold fixer_choice in Hven. rewrite String.eqb_refl in Hven.
      unfold lookup_phrase in *.
      destruct (dict_get localization_fixer.TRANSLATION_MAPPINGS key)
        as [row|] eqn:Erow.
      * destruct (dict_get row "en") eqn:Ere.
        -- exfalso. now apply (table_complete key row lang).
        -- inversion Hven; subst ven. unfold via_english, lookup_phrase.
           now rewrite Erow, El.
      * inversion Hven; subst ven. unfold via_english, lookup_phrase.
        now rewrite Erow.
Qed.

Lemma fixer_loop m s e key shared locs0 langs :
  forall locs d',
    (shared = false -> locs0 = []) ->
    filled (fixer_choice localization_fixer.TRANSLATION_MAPPINGS) key locs0 locs ->
    (forall lang, In lang langs -> In lang EXPECTED_LANGUAGES
                                   /\ dict_get locs0 lang = None) ->
    for_each
      (fun d' lang =>
         existing_localizations <-
           localization_fixer.existing_localizations_now shared (JObj []) d' key ;;
         translation_value <-
           localization_fixer.get_translation_value key lang
             existing_localizations ;;
         assign_localization d' key lang (translated_unit translation_value))
      langs (plug m s e key locs) = Ok d' ->
    exists locs',
      d' = plug m s e key locs'
      /\ filled (fixer_choice localization_fixer.TRANSLATION_MAPPINGS) key
           locs0 locs'
      /\ (forall lang, In lang langs -> dict_mem lang locs' = true)
      /\ (forall lang, dict_mem lang locs = true -> dict_mem lang locs' = true).
Proof.
  induction langs as [|l langs IH]; intros locs d' Hdet Hfilled Hlangs H.
  - simpl in H. inversion H. exists locs. repeat split; auto; try tauto.
    + apply Hfilled.
    + apply Hfilled.
  - cbn [for_each] in H. inv_bind H as d1 Hd1.
    inv_bind Hd1 as existing Hex. inv_bind Hd1 as v Hv.
    rewrite assign_plug in Hd1. inversion Hd1; subst d1. clear Hd1.
    destruct (Hlangs l (or_introl eq_refl)) as [Hexp Hnone].
    assert (Hchoice :
      fixer_choice localization_fixer.TRANSLATION_MAPPINGS key l locs0 = Some v).
    { destruct shared.
      - rewrite read_plug in Hex. inversion Hex; subst existing.
        eapply get_translation_value_choice; eassumption.
      - simpl in Hex. inversion Hex; subst existing.
        rewrite (Hdet eq_refl) in *.
        eapply get_translation_value_choice;
          [apply filled_refl|eassumption..]. }
    destruct (IH (dict_set locs l (translated_unit v)) d' Hdet
                (filled_set _ _ _ _ _ _ Hfilled Hexp Hnone Hchoice)
                (fun lang Hin => Hlangs lang (or_intror Hin)) H)
      as (locs' & -> & Hf & Hin & Hmono).
    exists locs'. split; [reflexivity|]. split; [assumption|]. split.
    + intros lang [<-|Hl]; [|auto]. apply Hmono, dict_mem_set. now left.
    + intros lang Hl. apply Hmono, dict_mem_set. now right.
Qed.

Lemma fixer_key_step :
  key_step (fixer_choice localization_fixer.TRANSLATION_MAPPINGS)
    silent.fixer_fix_key.
Proof.
  intros a m s key e0 d' Hm Hs H.
  unfold silent.fixer_fix_key, localization_fixer.add_translations in H.
  destruct (dict_get (missing_languages a) key) as [[|lang0 langs]|];
    try (now inversion H).
  intros Hmiss.
  rewrite (getitem_obj _ _ _ Hm) in H. cbn [bind] in H.
  rewrite (getitem_obj _ _ _ Hs) in H. cbn [bind] in H.
  destruct e0 as [| | | | | |e]; try discriminate.
  assert (Hlangs : forall lang, In lang (lang0 :: langs) ->
            In lang EXPECTED_LANGUAGES
            /\ dict_get (localizations_of (JObj e)) lang = None)
    by (intros lang Hl; now apply missing_of_spec, Hmiss).
  unfold py_get, py_contains, dict_mem in H. cbn [bind] in H.
  destruct (dict_get e "localizations") as [x|] eqn:He.
  - (* the entry has a ['localizations'] key: the loop reads the dict it
       fills *)
    cbn [bind] in H.
    assert (Hx : exists locs0, x = JObj locs0).
    { cbn [for_each] in H. inv_bind H as d1 Hd1.
      inv_bind Hd1 as existing Hex. inv_bind Hd1 as v Hv.
      destruct (assign_shape _ _ _ _ _ _ _ Hm Hs Hd1) as (e1 & locs0 & E1 & E2).
      inversion E1; subst e1. exists locs0. congruence. }
    destruct Hx as [locs0 ->].
    assert (Hlocs : localizations_of (JObj e) = locs0)
      by (unfold localizations_of; now rewrite He).
    rewrite Hlocs in *.
    rewrite <- (plug_id m s e key locs0 Hm Hs He) in H.
    (* the default of [.get] is not used, any value stands for it *)
    assert (H' :
      for_each
        (fun d' lang =>
           existing_localizations <-
             localization_fixer.existing_localizations_now true (JObj []) d' key ;;
           translation_value <-
             localization_fixer.get_translation_value key lang
               existing_localizations ;;
           assign_localization d' key lang (translated_unit translation_value))
        (lang0 :: langs) (plug m s e key locs0) = Ok d') by exact H.
    destruct (fixer_loop m s e key true locs0 (lang0 :: langs) locs0 d'
                (fun E => ltac:(discriminate E)) (filled_refl _ _ _) Hlangs H')
      as (locs' & -> & Hf & Hin & _).
    exists e, locs'. auto.
  - (* no ['localizations'] key: an empty dict is installed, and the loop
       reads the detached default *)
    assert (Hlocs : localizations_of (JObj e) = [])
      by (unfold localizations_of; now rewrite He).
    rewrite Hlocs in *.
    unfold py_setitem, update_field in H. cbn [bind negb] in H.
    change (JObj (dict_set m "strings"
                    (JObj (dict_set s key
                             (JObj (dict_set e "localizations" (JObj []))))))) 
      with (plug m s e key []) in H.
    destruct (fixer_loop m s e key false [] (lang0 :: langs) [] d'
                (fun _ => eq_refl) (filled_refl _ _ _) Hlangs H)
      as (locs' & -> & Hf & Hin & _).
    exists e, locs'. auto.
Qed.

(** ** The repair loop *)

Lemma strings_of_shape d :
  strings_of d = []
  \/ exists m, d = JObj m /\ dict_get m "strings" = Some (JObj (strings_of d)).
Proof.
  destruct d as [| | | | | |m]; auto. unfold strings_of.
  destruct (dict_get m "strings") as [[| | | | | |s]|] eqn:E; eauto.
Qed.

Lemma NoDup_keys_filter (p : string * json -> bool) s :
  NoDup (dict_keys s) -> NoDup (dict_keys (filter p s)).
Proof.
  induction s as [|[k e] s IH]; simpl; intros Hnd; [constructor|].
  inversion Hnd as [|? ? Hnot Hnd']; subst.
  destruct (p (k, e)); simpl; [|auto].
  constructor; [|auto].
  intros Hin. apply Hnot. unfold dict_keys in *.
  apply in_map_iff in Hin. destruct Hin as [[k' e'] [E Hin]].
  apply filter_In in Hin. apply in_map_iff. exists (k', e'). tauto.
Qed.

Section RepairLoop.
Variable choice : string -> string -> list (string * json) -> option json.
Variable fix_key : analysis -> json -> string -> result json.
Hypothesis fix_key_step : key_step choice fix_key.
Variable a : analysis.
Variable s0 : list (string * json).

Lemma repair_loop keys :
  forall m s d',
    NoDup keys ->
    (forall k, In k keys ->
       exists e0, dict_get s0 k = Some e0
         /\ excluded e0 = false
         /\ forall l, dict_get (missing_languages a) k = Some l ->
              forall lang, In lang l -> In lang (missing_of e0)) ->
    dict_get m "strings" = Some (JObj s) ->
    grown_items choice s0 s ->
    (forall k, In k keys -> dict_get s k = dict_get s0 k) ->
    for_each (fix_key a) keys (JObj m) = Ok d' ->
    exists m' s',
      d' = JObj m'
      /\ dict_get m' "strings" = Some (JObj s')
      /\ grown_items choice s0 s'
      /\ (forall k, (In k keys -> idle a k) -> dict_get s' k = dict_get s k)
      /\ (forall k l e', In k keys ->
            dict_get (missing_languages a) k = Some l ->
            dict_get s' k = Some e' ->
            forall lang, In lang l ->
              dict_mem lang (localizations_of e') = true).
Proof.
  induction keys as [|k keys IH]; intros m s d' Hnd Hkeys Hm Hg Hsame H.
  - simpl in H. inversion H; subst d'. exists m, s.
    split; [reflexivity|]. split; [assumption|]. split; [assumption|].
    split; [reflexivity|]. intros k l e' [].
  - cbn [for_each] in H. inv_bind H as d1 Hd1.
    inversion Hnd as [|? ? Hnot Hnd']; subst.
    destruct (Hkeys k (or_introl eq_refl)) as (e0 & He0 & Hex & Hmiss).
    assert (Hs : dict_get s k = Some e0)
      by (rewrite Hsame; [assumption|now left]).
    pose proof (fix_key_step a m s k e0 d1 Hm Hs Hd1) as Hstep.
    assert (Hrest : forall k', In k' keys ->
              exists e1, dict_get s0 k' = Some e1
                /\ excluded e1 = false
                /\ forall l, dict_get (missing_languages a) k' = Some l ->
                     forall lang, In lang l -> In lang (missing_of e1))
      by (intros k' Hk'; apply Hkeys; now right).
    destruct (dict_get (missing_languages a) k) as [[|lang0 langs]|] eqn:El.
    + (* nothing recorded as missing: the round is skipped *)
      subst d1.
      destruct (IH m s d' Hnd' Hrest Hm Hg
                  (fun k' Hk' => Hsame k' (or_intror Hk')) H)
        as (m' & s' & -> & Hm' & Hg' & Hframe & Hall).
      exists m', s'.
      split; [reflexivity|]. split; [assumption|]. split; [assumption|].
      split.
      * intros k' Hk'. apply Hframe. intros Hin. apply Hk'. now right.
      * intros k' l e' [<-|Hin] Hl He' lang Hlang.
        -- rewrite El in Hl. inversion Hl; subst l. destruct Hlang.
        -- eapply Hall; eassumption.
    + destruct (Hstep (Hmiss _ eq_refl)) as (e & locs & -> & -> & Hf & Hpres).
      set (e1 := JObj (dict_set e "localizations" (JObj locs))) in *.
      assert (Hg1 : grown_items choice s0 (dict_set s k e1)).
      { apply grown_items_set with (e0 := JObj e); [assumption..|].
        right. split; [assumption|]. exists e, locs. auto. }
      assert (Hm1 : dict_get (dict_set m "strings" (JObj (dict_set s k e1)))
                      "strings" = Some (JObj (dict_set s k e1)))
        by apply dict_get_set_same.
      assert (Hsame1 : forall k', In k' keys ->
                dict_get (dict_set s k e1) k' = dict_get s0 k').
      { intros k' Hk'. rewrite dict_get_set_other.
        - apply Hsame. now right.
        - intros ->. contradiction. }
      destruct (IH _ _ d' Hnd' Hrest Hm1 Hg1 Hsame1 H)
        as (m' & s' & -> & Hm' & Hg' & Hframe & Hall).
      exists m', s'.
      split; [reflexivity|]. split; [assumption|]. split; [assumption|].
      split.
      * intros k' Hk'.
        assert (Hne : k' <> k).
        { intros ->. specialize (Hk' (or_introl eq_refl)).
          unfold idle in Hk'. now rewrite El in Hk'. }
        rewrite Hframe.
        -- now apply dict_get_set_other.
        -- intros Hin. apply Hk'. now right.
      * intros k' l e' [<-|Hin] Hl He' lang Hlang.
        -- rewrite El in Hl. inversion Hl; subst l.
           rewrite Hframe in He' by (intros Hin; contradiction).
           rewrite dict_get_set_same in He'. inversion He'; subst e'.
           unfold e1, localizations_of. rewrite dict_get_set_same.
           now apply Hpres.
        -- eapply Hall; eassumption.
    + subst d1.
      destruct (IH m s d' Hnd' Hrest Hm Hg
                  (fun k' Hk' => Hsame k' (or_intror Hk')) H)
        as (m' & s' & -> & Hm' & Hg' & Hframe & Hall).
      exists m', s'.
      split; [reflexivity|]. split; [assumption|]. split; [assumption|].
      split.
      * intros k' Hk'. apply Hframe. intros Hin. apply Hk'. now right.
      * intros k' l e' [<-|Hin] Hl He' lang Hlang.
        -- rewrite El in Hl. discriminate.
        -- eapply Hall; eassumption.
Qed.

End RepairLoop.

(** ** Repair as a whole *)

(** ** The loops and their prints *)

Lemma print_accepted console text :
  accepts console text = true -> py_print console text = Ok tt.
Proof. unfold py_print. now intros ->. Qed.

Lemma print_ascii console text :
  is_ascii text = true -> py_print console text = Ok tt.
Proof. intros H. apply print_accepted. unfold accepts. now rewrite H. Qed.

Lemma is_ascii_app s t :
  is_ascii (s ++ t)%string = is_ascii s && is_ascii t.
Proof.
  induction s as [|c s IH]; [reflexivity|].
  cbn [String.append is_ascii]. now rewrite IH, andb_assoc.
Qed.

Lemma is_ascii_str_of_int n : is_ascii (str_of_int n) = true.
Proof.
  assert (Hu : forall d, is_ascii (NilEmpty.string_of_uint d) = true).
  { induction d; cbn [NilEmpty.string_of_uint is_ascii]; try rewrite IHd;
      reflexivity. }
  assert (Hz : forall d, is_ascii (NilZero.string_of_uint d) = true).
  { intros d. destruct d; try apply Hu. reflexivity. }
  unfold str_of_int, NilZero.string_of_int.
  destruct (Z.to_int n); [apply Hz|].
  cbn [is_ascii]. now rewrite Hz.
Qed.

Lemma is_ascii_join sep parts :
  is_ascii sep = true ->
  Forall (fun part => is_ascii part = true) parts ->
  is_ascii (join sep parts) = true.
Proof.
  intros Hsep. unfold join. induction 1 as [|part parts Hp HF IH]; [reflexivity|].
  cbn [String.concat]. destruct parts as [|part' parts]; [assumption|].
  rewrite !is_ascii_app, Hp, Hsep. exact IH.
Qed.

Lemma is_ascii_prefix n s : is_ascii s = true -> is_ascii (str_prefix n s) = true.
Proof.
  revert n. induction s as [|c s IH]; intros n; [reflexivity|].
  cbn [is_ascii str_prefix]. intros H. apply andb_true_iff in H.
  destruct H as [Hc Hs].
  destruct (Nat.leb 128 (nat_of_ascii c) && Nat.ltb (nat_of_ascii c) 192)%bool.
  - cbn [is_ascii]. now rewrite Hc, IH.
  - destruct n; [reflexivity|]. cbn [is_ascii]. now rewrite Hc, IH.
Qed.

Lemma expected_languages_ascii :
  Forall (fun lang => is_ascii lang = true) EXPECTED_LANGUAGES.
Proof. repeat constructor. Qed.

(** The prints before and after the loops are ASCII text. *)
Lemma analyzer_fixing_printed console keys :
  py_print console (localization_analyzer.fixing_message keys) = Ok tt.
Proof.
  apply print_ascii. unfold localization_analyzer.fixing_message.
  cbn [is_ascii]. now rewrite !is_ascii_app, is_ascii_str_of_int.
Qed.

Lemma fixer_fixing_printed console keys :
  py_print console (localization_fixer.fixing_message keys) = Ok tt.
Proof.
  apply print_ascii. unfold localization_fixer.fixing_message.
  now rewrite !is_ascii_app, is_ascii_str_of_int.
Qed.

Lemma fixer_summary_printed console n :
  py_print console (localization_fixer.summary_message n) = Ok tt.
Proof.
  apply print_ascii. unfold localization_fixer.summary_message.
  now rewrite !is_ascii_app, is_ascii_str_of_int.
Qed.

(** The text a round prints for an ASCII key is ASCII. *)
Lemma analyzer_message_ascii key langs :
  is_ascii key = true ->
  incl langs EXPECTED_LANGUAGES ->
  is_ascii (localization_analyzer.fixed_message key langs) = true.
Proof.
  intros Hk Hl. unfold localization_analyzer.fixed_message.
  rewrite !is_ascii_app, Hk, is_ascii_str_of_int.
  rewrite is_ascii_join; [reflexivity|reflexivity|].
  apply Forall_forall. intros lang Hin.
  exact (proj1 (Forall_forall _ _) expected_languages_ascii lang (Hl lang Hin)).
Qed.

Lemma fixer_message_ascii key langs :
  is_ascii key = true ->
  is_ascii (localization_fixer.fixed_message key langs) = true.
Proof.
  intros Hk. unfold localization_fixer.fixed_message.
  rewrite !is_ascii_app, (is_ascii_prefix _ _ Hk), is_ascii_str_of_int.
  now destruct (Z.of_nat (str_len key) >? 50)%Z.
Qed.

(** A run that returns has done to the document what the silent loop
    does. *)
Lemma analyzer_round_silent console a d key d' :
  localization_analyzer.fix_key console a d key = Ok d' ->
  silent.analyzer_fix_key a d key = Ok d'.
Proof.
  unfold localization_analyzer.fix_key, silent.analyzer_fix_key.
  destruct (dict_get (missing_languages a) key) as [[|l ls]|];
    try exact (fun H => H).
  intros H. inv_bind H as d1 Hd1. inv_bind H as u Hu. now inversion H; subst.
Qed.

Lemma analyzer_loop_silent console a keys :
  forall d d',
    for_each (localization_analyzer.fix_key console a) keys d = Ok d' ->
    for_each (silent.analyzer_fix_key a) keys d = Ok d'.
Proof.
  induction keys as [|k keys IH]; cbn [for_each]; intros d d' H; [assumption|].
  inv_bind H as d1 Hd1. rewrite (analyzer_round_silent _ _ _ _ _ Hd1).
  cbn [bind]. auto.
Qed.

Lemma analyzer_silent console list_of_set d d' :
  localization_analyzer.fix_localizations console list_of_set d = Ok d' ->
  silent.analyzer_fix_localizations list_of_set d = Ok d'.
Proof.
  unfold localization_analyzer.fix_localizations,
    silent.analyzer_fix_localizations.
  intros H. inv_bind H as a Ha. inv_bind H as fixed Hc. inv_bind H as u Hu.
  rewrite Ha. cbn [bind]. rewrite Hc. cbn [bind].
  now apply analyzer_loop_silent with console.
Qed.

Lemma fixer_round_silent console a d c key d' c' :
  localization_fixer.fix_key console a (d, c) key = Ok (d', c') ->
  silent.fixer_fix_key a d key = Ok d'.
Proof.
  unfold localization_fixer.fix_key, silent.fixer_fix_key.
  destruct (dict_get (missing_languages a) key) as [[|l ls]|];
    try (intros [= <- _]; reflexivity).
  intros H. inv_bind H as d1 Hd1. inv_bind H as u Hu. now inversion H; subst.
Qed.

Lemma fixer_loop_silent console a keys :
  forall d c d' c',
    for_each (localization_fixer.fix_key console a) keys (d, c) = Ok (d', c') ->
    for_each (silent.fixer_fix_key a) keys d = Ok d'.
Proof.
  induction keys as [|k keys IH]; cbn [for_each]; intros d c d' c' H.
  - now inversion H.
  - inv_bind H as st Hst. destruct st as [d1 c1].
    rewrite (fixer_round_silent _ _ _ _ _ _ _ Hst). cbn [bind]. eauto.
Qed.

Lemma fixer_silent console list_of_set d d' :
  localization_fixer.fix_localizations console list_of_set d = Ok d' ->
  silent.fixer_fix_localizations list_of_set d = Ok d'.
Proof.
  unfold localization_fixer.fix_localizations,
    silent.fixer_fix_localizations.
  intros H. inv_bind H as a Ha. cbv zeta in H. inv_bind H as u Hu.
  inv_bind H as st Hst. destruct st as [d1 c1]. inv_bind H as u' Hu'.
  inversion H; subst d'. cbn [fst].
  rewrite Ha. cbn [bind]. eapply fixer_loop_silent; eassumption.
Qed.

(** When the console accepts the text of every round, the run returns
    what the silent loop returns and raises what it raises. *)
Lemma analyzer_round_accepted console a d key :
  (forall langs, dict_get (missing_languages a) key = Some langs ->
     accepts console (localization_analyzer.fixed_message key langs) = true) ->
  localization_analyzer.fix_key console a d key
  = silent.analyzer_fix_key a d key.
Proof.
  unfold localization_analyzer.fix_key, silent.analyzer_fix_key. intros Hacc.
  destruct (dict_get (missing_languages a) key) as [[|l ls]|];
    try reflexivity.
  destruct (localization_analyzer.add_translations d key (l :: ls));
    cbn [bind]; [|reflexivity].
  now rewrite (print_accepted _ _ (Hacc _ eq_refl)).
Qed.

Lemma analyzer_loop_accepted console a keys :
  (forall key langs,
      In key keys -> dict_get (missing_languages a) key = Some langs ->
      accepts console (localization_analyzer.fixed_message key langs) = true) ->
  forall d,
    for_each (localization_analyzer.fix_key console a) keys d
    = for_each (silent.analyzer_fix_key a) keys d.
Proof.
  induction keys as [|k keys IH]; intros Hacc d; [reflexivity|].
  cbn [for_each].
  rewrite analyzer_round_accepted
    by (intros langs; apply Hacc; now left).
  destruct (silent.analyzer_fix_key a d k); cbn [bind]; [|reflexivity].
  apply IH. intros key langs Hin. apply Hacc. now right.
Qed.

Lemma fixer_round_accepted console a d c key :
  (forall langs, dict_get (missing_languages a) key = Some langs ->
     accepts console (localization_fixer.fixed_message key langs) = true) ->
  match silent.fixer_fix_key a d key with
  | Ok d' =>
      exists c', localization_fixer.fix_key console a (d, c) key = Ok (d', c')
  | Raise err => localization_fixer.fix_key console a (d, c) key = Raise err
  end.
Proof.
  unfold localization_fixer.fix_key, silent.fixer_fix_key. intros Hacc.
  destruct (dict_get (missing_languages a) key) as [[|l ls]|]; eauto.
  destruct (localization_fixer.add_translations d key (l :: ls));
    cbn [bind]; [|reflexivity].
  rewrite (print_accepted _ _ (Hacc _ eq_refl)). cbn [bind]. eauto.
Qed.

Lemma fixer_loop_accepted console a keys :
  (forall key langs,
      In key keys -> dict_get (missing_languages a) key = Some langs ->
      accepts console (localization_fixer.fixed_message key langs) = true) ->
  forall d c,
    match for_each (silent.fixer_fix_key a) keys d with
    | Ok d' =>
        exists c',
          for_each (localization_fixer.fix_key console a) keys (d, c)
          = Ok (d', c')
    | Raise err =>
        for_each (localization_fixer.fix_key console a) keys (d, c) = Raise err
    end.
Proof.
  induction keys as [|k keys IH]; intros Hacc d c; [cbn; eauto|].
  cbn [for_each].
  pose proof (fixer_round_accepted console a d c k
                (fun langs => Hacc k langs (or_introl eq_refl))) as Hk.
  destruct (silent.fixer_fix_key a d k) as [d1|err]; cbn [bind].
  - destruct Hk as [c1 ->]. cbn [bind].
    apply IH. intros key langs Hin. apply Hacc. now right.
  - now rewrite Hk.
Qed.

Section Repair.
Variable list_of_set : list string -> list string.
Hypothesis list_of_set_perm : forall s, Permutation (list_of_set s) s.

Lemma verdict_excluded strict e :
  verdict_of strict e = Excluded <-> excluded e = true.
Proof.
  unfold verdict_of. destruct (excluded e).
  - tauto.
  - destruct (missing_of e); [|split; discriminate].
    destruct (strict && negb (all_states_translated e)); split; discriminate.
Qed.

Lemma verdict_missing strict e codes :
  verdict_of strict e = Missing codes -> codes = missing_of e /\ codes <> [].
Proof.
  unfold verdict_of. destruct (excluded e); [discriminate|].
  destruct (missing_of e).
  - destruct (strict && negb (all_states_translated e)); discriminate.
  - intros [= <-]. split; [reflexivity|discriminate].
Qed.

Lemma incomplete_keys_entry strict d a k :
  NoDup (dict_keys (strings_of d)) ->
  reported list_of_set strict d a ->
  (In k (incomplete_keys a)
   <-> exists e, entry_of d k = Some e
         /\ is_incomplete (verdict_of strict e) = true).
Proof.
  intros Hnd Hrep. rewrite (rep_incomplete _ _ _ _ Hrep). split.
  - intros Hin. apply in_map_iff in Hin. destruct Hin as [[k' e] [E Hin]].
    simpl in E. subst k'. apply filter_In in Hin. destruct Hin as [Hin Hv].
    exists e. split; [|assumption]. now apply In_dict_get.
  - intros (e & He & Hv). apply in_map_iff. exists (k, e). split; [reflexivity|].
    apply filter_In. split; [|assumption]. now apply dict_get_In.
Qed.

Section Variant.
Variable choice : string -> string -> list (string * json) -> option json.
Variable fix_key : analysis -> json -> string -> result json.
Variable strict : bool.
Hypothesis fix_key_step : key_step choice fix_key.

Lemma repair_spec d a d' :
  NoDup (dict_keys (strings_of d)) ->
  reported list_of_set strict d a ->
  for_each (fix_key a) (incomplete_keys a) d = Ok d' ->
  grown_items choice (strings_of d) (strings_of d')
  /\ (forall k, idle a k -> entry_of d' k = entry_of d k)
  /\ (forall k e0 e',
        entry_of d k = Some e0 -> excluded e0 = false ->
        entry_of d' k = Some e' ->
        forall lang, In lang EXPECTED_LANGUAGES ->
          dict_mem lang (localizations_of e') = true).
Proof.
  intros Hnd Hrep H.
  assert (Hkeys : forall k, In k (incomplete_keys a) ->
            exists e0, dict_get (strings_of d) k = Some e0
              /\ excluded e0 = false
              /\ forall l, dict_get (missing_languages a) k = Some l ->
                   forall lang, In lang l -> In lang (missing_of e0)).
  { intros k Hk.
    apply (incomplete_keys_entry strict d a k Hnd Hrep) in Hk.
    destruct Hk as (e & He & Hv). exists e. split; [assumption|]. split.
    - destruct (excluded e) eqn:Ex; [|reflexivity].
      apply (verdict_excluded strict) in Ex. rewrite Ex in Hv. discriminate.
    - intros l Hl lang Hlang.
      rewrite (rep_missing _ _ _ _ Hrep k e Hnd He) in Hl.
      destruct (verdict_of strict e) eqn:Ev; try discriminate.
      inversion Hl; subst l. apply verdict_missing in Ev. destruct Ev as [-> _].
      eapply Permutation_in; [apply list_of_set_perm|assumption]. }
  assert (Hndk : NoDup (incomplete_keys a)).
  { rewrite (rep_incomplete _ _ _ _ Hrep). now apply NoDup_keys_filter. }
  assert (Hloop : exists s',
            strings_of d' = s'
            /\ grown_items choice (strings_of d) s'
            /\ (forall k, (In k (incomplete_keys a) -> idle a k) ->
                  dict_get s' k = dict_get (strings_of d) k)
            /\ (forall k l e', In k (incomplete_keys a) ->
                  dict_get (missing_languages a) k = Some l ->
                  dict_get s' k = Some e' ->
                  forall lang, In lang l ->
                    dict_mem lang (localizations_of e') = true)).
  { destruct (strings_of_shape d) as [E|(m & -> & Hm)].
    - assert (En : incomplete_keys a = [])
        by (rewrite (rep_incomplete _ _ _ _ Hrep), E; reflexivity).
      rewrite En in *. simpl in H. inversion H; subst d'.
      exists (strings_of d). split; [reflexivity|].
      split; [apply grown_items_refl|]. split; [reflexivity|].
      intros k l e' [].
    - destruct (repair_loop choice fix_key fix_key_step a _ _ m _ d'
                  Hndk Hkeys Hm (grown_items_refl _ _) (fun _ _ => eq_refl) H)
        as (m' & s' & -> & Hm' & Hg & Hframe & Hall).
      exists s'. split; [|auto]. unfold strings_of. now rewrite Hm'. }
  destruct Hloop as (s' & Es & Hg & Hframe & Hall).
  rewrite Es. split; [assumption|]. split.
  - intros k Hk. unfold entry_of. rewrite Es. apply Hframe. auto.
  - intros k e0 e' He0 Hex He' lang Hlang.
    unfold entry_of in He'. rewrite Es in He'.
    destruct (grown_items_get _ _ _ _ _ Hg He0) as (e1 & He1 & Hgrow).
    rewrite He1 in He'. inversion He'; subst e1. clear He'.
    destruct (dict_get (localizations_of e0) lang) as [x|] eqn:Ex.
    + unfold dict_mem. now rewrite (grown_keeps _ _ _ _ _ _ Hgrow Ex).
    + assert (Hmiss : In lang (missing_of e0))
        by (apply missing_of_spec; auto).
      assert (Ev : verdict_of strict e0 = Missing (missing_of e0)).
      { unfold verdict_of. rewrite Hex.
        destruct (missing_of e0); [destruct Hmiss|reflexivity]. }
      assert (Hk : In k (incomplete_keys a)).
      { apply (incomplete_keys_entry strict d a k Hnd Hrep).
        exists e0. rewrite Ev. auto. }
      eapply (Hall k _ e' Hk); [|eassumption|].
      * rewrite (rep_missing _ _ _ _ Hrep k e0 Hnd He0), Ev. reflexivity.
      * eapply Permutation_in; [apply Permutation_sym, list_of_set_perm|].
        assumption.
Qed.

End Variant.

Lemma fixer_repair {console} d d' :
  NoDup (dict_keys (strings_of d)) ->
  localization_fixer.fix_localizations console list_of_set d = Ok d' ->
  exists a,
    localization_fixer.analyze_completeness list_of_set d = Ok a
    /\ grown_items (fixer_choice localization_fixer.TRANSLATION_MAPPINGS)
         (strings_of d) (strings_of d')
    /\ (forall k, idle a k -> entry_of d' k = entry_of d k)
    /\ (forall k e0 e',
          entry_of d k = Some e0 -> excluded e0 = false ->
          entry_of d' k = Some e' ->
          forall lang, In lang EXPECTED_LANGUAGES ->
            dict_mem lang (localizations_of e') = true).
Proof.
  intros Hnd H. apply fixer_silent in H.
  unfold silent.fixer_fix_localizations in H.
  inv_bind H as a Ha. exists a. split; [assumption|].
  apply (repair_spec _ _ false fixer_key_step d a d' Hnd);
    [now apply fixer_reported|exact H].
Qed.

Lemma analyzer_repair {console} d d' :
  NoDup (dict_keys (strings_of d)) ->
  localization_analyzer.fix_localizations console list_of_set d = Ok d' ->
  exists a,
    localization_analyzer.analyze_completeness list_of_set d = Ok a
    /\ grown_items (spec_choice localization_analyzer.translation_map)
         (strings_of d) (strings_of d')
    /\ (forall k, idle a k -> entry_of d' k = entry_of d k)
    /\ (forall k e0 e',
          entry_of d k = Some e0 -> excluded e0 = false ->
          entry_of d' k = Some e' ->
          forall lang, In lang EXPECTED_LANGUAGES ->
            dict_mem lang (localizations_of e') = true).
Proof.
  intros Hnd H. apply analyzer_silent in H.
  unfold silent.analyzer_fix_localizations in H.
  inv_bind H as a Ha. inv_bind H as fixed Hcopy. exists a.
  split; [assumption|].
  assert (fixed = d) by (destruct d; simpl in Hcopy; congruence). subst fixed.
  apply (repair_spec _ _ true analyzer_key_step d a d' Hnd);
    [now apply analyzer_reported|exact H].
Qed.

End Repair.

(** ** The normaliser *)

Lemma update_items_Forall2 body items items' :
  fix_localizations.update_items body items = Ok items' ->
  Forall2 (fun kv kv' =>
             fst kv' = fst kv /\ body (fst kv) (snd kv) = Ok (snd kv'))
    items items'.
Proof.
  revert items'. induction items as [|[k v] items IH]; simpl; intros items' H.
  - inversion H. constructor.
  - inv_bind H as v' Hv. inv_bind H as rest' Hrest. inversion H; subst items'.
    constructor; [now split|auto].
Qed.

Lemma update_items_fixed body items :
  Forall (fun kv => body (fst kv) (snd kv) = Ok (snd kv)) items ->
  fix_localizations.update_items body items = Ok items.
Proof.
  induction 1 as [|[k v] items Hkv HF IH]; simpl; [reflexivity|].
  simpl in Hkv. now rewrite Hkv, IH.
Qed.

Lemma Forall2_dict_get {A B} (R : string -> A -> B -> Prop)
  (s : list (string * A)) (s' : list (string * B)) k e :
  Forall2 (fun kv kv' => fst kv' = fst kv /\ R (fst kv) (snd kv) (snd kv')) s s' ->
  dict_get s k = Some e ->
  exists e', dict_get s' k = Some e' /\ R k e e'.
Proof.
  induction 1 as [|[k0 x0] [k1 x1] s s' [Hk HR] HF IH]; simpl.
  - discriminate.
  - simpl in Hk, HR. subst k1.
    destruct (String.eqb_spec k k0) as [->|Hne]; intros He.
    + inversion He; subst x0. eauto.
    + auto.
Qed.

Lemma Forall2_dict_keys {A B} (R : string -> A -> B -> Prop)
  (s : list (string * A)) (s' : list (string * B)) :
  Forall2 (fun kv kv' => fst kv' = fst kv /\ R (fst kv) (snd kv) (snd kv')) s s' ->
  dict_keys s' = dict_keys s.
Proof.
  induction 1 as [|[k0 x0] [k1 x1] s s' [Hk HR] HF IH]; simpl; [reflexivity|].
  simpl in Hk. now rewrite Hk, IH.
Qed.

Lemma updated_items_fixed (body : string -> json -> result json) items items' :
  (forall k v v', body k v = Ok v' -> body k v' = Ok v') ->
  Forall2 (fun kv kv' =>
             fst kv' = fst kv /\ body (fst kv) (snd kv) = Ok (snd kv'))
    items items' ->
  Forall (fun kv => body (fst kv) (snd kv) = Ok (snd kv)) items'.
Proof.
  intros Hidem. induction 1 as [|kv kv' ? ? [Hk Hc] HF IH]; constructor.
  - rewrite Hk. eapply Hidem; eassumption.
  - assumption.
Qed.

(** What [coerce_state] returns when it returns: a Localization without
    a ['stringUnit'] as it was, any other with its state set. *)
Lemma coerce_state_spec l l' :
  fix_localizations.coerce_state l = Ok l' ->
  (string_unit_of l = None /\ l' = l)
  \/ (exists f u,
        l = JObj f
        /\ dict_get f "stringUnit" = Some (JObj u)
        /\ l' = JObj (dict_set f "stringUnit"
                        (JObj (dict_set u "state" (JStr "translated"))))).
Proof.
  unfold fix_localizations.coerce_state. intros H.
  inv_bind H as has_unit Hu.
  destruct has_unit.
  - inv_bind H as su Hsu.
    destruct l as [| | | | | |f]; try discriminate.
    simpl in Hsu. destruct (dict_get f "stringUnit") as [x|] eqn:Ef;
      [|discriminate].
    inversion Hsu; subst x. clear Hsu.
    inv_bind H as has_state Hst.
    assert (Hobj : exists u, su = JObj u).
    { destruct has_state; simpl in H.
      - inv_bind H as st Hget.
        destruct su; try discriminate. eauto.
      - inv_bind H as su' Hset.
        destruct su; try discriminate. eauto. }
    destruct Hobj as [u ->]. right. exists f, u.
    split; [reflexivity|]. split; [exact Ef|].
    simpl in Hst. inversion Hst; subst has_state. clear Hst.
    unfold dict_mem in H.
    destruct (dict_get u "state") as [st|] eqn:Est; simpl in H.
    + rewrite Est in H. simpl in H.
      destruct st as [| | | |x| |]; simpl in H; try congruence.
      destruct (String.eqb_spec x "translated") as [->|Hne]; simpl in H.
      * inversion H.
        now rewrite (dict_set_get_id u _ _ Est), (dict_set_get_id f _ _ Ef).
      * congruence.
    + congruence.
  - left. inversion H; subst l'. split; [|reflexivity].
    destruct l as [| | | | | |f]; try reflexivity.
    simpl in Hu. inversion Hu as [Hm]. unfold dict_mem in Hm. simpl.
    destruct (dict_get f "stringUnit"); [discriminate|reflexivity].
Qed.

Lemma coerce_state_idempotent l l' :
  fix_localizations.coerce_state l = Ok l' ->
  fix_localizations.coerce_state l' = Ok l'.
Proof.
  intros H. destruct (coerce_state_spec _ _ H) as [[_ ->]|(f & u & -> & Hf & ->)].
  - assumption.
  - unfold fix_localizations.coerce_state. simpl.
    unfold dict_mem. rewrite !dict_get_set_same. simpl.
    unfold dict_mem. rewrite !dict_get_set_same. simpl.
    reflexivity.
Qed.

Lemma coerce_state_translated l l' :
  fix_localizations.coerce_state l = Ok l' ->
  match string_unit_of l with
  | Some _ => state_of l' = Some (JStr "translated")
  | None => l' = l
  end.
Proof.
  intros H. destruct (coerce_state_spec _ _ H) as [[E ->]|(f & u & -> & Hf & ->)].
  - now rewrite E.
  - simpl. rewrite Hf. unfold state_of. simpl.
    rewrite dict_get_set_same. apply dict_get_set_same.
Qed.

(** The localizations the normaliser starts the state loop with. *)
Lemma fix_entry_spec k e e' :
  fix_localizations.fix_entry k e = Ok e' ->
  (e' = e /\ (excluded e = true \/ has_localizations e = false))
  \/ (excluded e = false
      /\ exists f locs items',
           e = JObj f
           /\ dict_get f "localizations" = Some (JObj locs)
           /\ fix_localizations.update_items
                (fun _ l => fix_localizations.coerce_state l)
                (with_english k locs) = Ok items'
           /\ e' = JObj (dict_set f "localizations" (JObj items'))).
Proof.
  unfold fix_localizations.fix_entry. intros H.
  inv_bind H as should Hs. rewrite (get_should _ _ Hs) in H.
  destruct (excluded e) eqn:Ex; [left; inversion H; auto|].
  destruct e as [| | | | | |f]; try discriminate.
  inv_bind H as has Hhas. simpl in Hhas. inversion Hhas; subst has. clear Hhas.
  destruct (dict_mem "localizations" f) eqn:Em; simpl in H;
    [|left; inversion H; auto].
  right. split; [reflexivity|].
  unfold dict_mem in Em.
  destruct (dict_get f "localizations") as [x|] eqn:Ef; [|discriminate].
  simpl in H.
  inv_bind H as has_en Hen. inv_bind H as nonempty Hne.
  inv_bind H as locs1 Hl1. inv_bind H as items Hit. inv_bind H as items' Hup.
  inversion H; subst e'. clear H.
  assert (Hobj : exists locs, x = JObj locs).
  { destruct nonempty.
    - destruct x; try discriminate. eauto.
    - inversion Hl1; subst locs1. destruct x; try discriminate. eauto. }
  destruct Hobj as [locs ->]. exists f, locs, items'.
  split; [reflexivity|]. split; [exact Ef|]. split; [|reflexivity].
  simpl in Hen. inversion Hen; subst has_en. clear Hen.
  unfold with_english.
  destruct (dict_mem "en" locs); simpl in *.
  - inversion Hne; subst nonempty. inversion Hl1; subst locs1.
    inversion Hit; subst items. exact Hup.
  - inversion Hne; subst nonempty.
    destruct (Z.of_nat (length locs) >? 0)%Z; simpl in Hl1;
      inversion Hl1; subst locs1; inversion Hit; subst items; exact Hup.
Qed.

Lemma with_english_has_en k locs :
  locs <> [] -> dict_mem "en" (with_english k locs) = true.
Proof.
  unfold with_english. intros Hne.
  destruct (dict_mem "en" locs) eqn:E; simpl; [assumption|].
  destruct locs as [|kv locs]; [contradiction|].
  replace (Z.of_nat (length (kv :: locs)) >? 0)%Z with true
    by (symmetry; apply Z.gtb_lt; simpl length; lia).
  apply dict_mem_set. now left.
Qed.

Lemma fix_entry_idempotent k e e' :
  fix_localizations.fix_entry k e = Ok e' ->
  fix_localizations.fix_entry k e' = Ok e'.
Proof.
  intros H.
  destruct (fix_entry_spec _ _ _ H)
    as [[-> _]|(Hex & f & locs & items' & -> & Hf & Hup & ->)];
    [assumption|].
  apply update_items_Forall2 in Hup.
  assert (Hkeys : dict_keys items' = dict_keys (with_english k locs))
    by (apply (Forall2_dict_keys (fun _ l l' =>
                 fix_localizations.coerce_state l = Ok l')); exact Hup).
  assert (Hfix : Forall (fun kv => fix_localizations.coerce_state (snd kv)
                                   = Ok (snd kv)) items').
  { apply (updated_items_fixed
               (fun _ l => fix_localizations.coerce_state l) _ _
               (fun _ => coerce_state_idempotent) Hup). }
  assert (Hwe : with_english k items' = items').
  { unfold with_english.
    destruct (dict_mem "en" items') eqn:Een; simpl; [reflexivity|].
    destruct items' as [|kv' items']; [reflexivity|]. exfalso.
    assert (Hin : In "en" (dict_keys (kv' :: items'))).
    { rewrite Hkeys. apply dict_mem_In, with_english_has_en.
      intros ->. unfold with_english in Hkeys. simpl in Hkeys. discriminate. }
    apply dict_mem_In in Hin. congruence. }
  unfold fix_localizations.fix_entry.
  assert (Hs : py_get (JObj (dict_set f "localizations" (JObj items')))
                 "shouldTranslate" JNull
               = py_get (JObj f) "shouldTranslate" JNull).
  { simpl. rewrite dict_get_set_other by discriminate. reflexivity. }
  rewrite Hs. simpl py_get. cbn [bind].
  simpl in Hex. 
  replace (py_eq_False match dict_get f "shouldTranslate" with
                       | Some x => x | None => JNull end) with false
    by (destruct (dict_get f "shouldTranslate"); [now rewrite Hex|reflexivity]).
  simpl py_contains. unfold dict_mem at 1. rewrite dict_get_set_same.
  cbn [bind negb]. rewrite (getitem_obj _ _ _ (dict_get_set_same f _ _)).
  cbn [bind]. simpl py_contains. cbn [bind].
  unfold with_english in Hwe.
  destruct (dict_mem "en" items') eqn:Een; cbn [bind negb andb] in *.
  - simpl py_items. cbn [bind].
    rewrite (update_items_fixed _ _ Hfix). cbn [bind].
    unfold update_field. now rewrite dict_set_set.
  - simpl py_len. cbn [bind].
    destruct (Z.of_nat (length items') >? 0)%Z; cbn [bind].
    + simpl py_setitem. cbn [bind]. simpl py_items. cbn [bind].
      rewrite Hwe. rewrite (update_items_fixed _ _ Hfix). cbn [bind].
      unfold update_field. now rewrite dict_set_set.
    + simpl py_items. cbn [bind].
      rewrite (update_items_fixed _ _ Hfix). cbn [bind].
      unfold update_field. now rewrite dict_set_set.
Qed.

(** What the normaliser returns when it returns. *)
Lemma normalizer_spec d d' :
  fix_localizations.fix_localizations d = Ok d' ->
  (d' = d /\ strings_of d = [])
  \/ exists m s s',
       d = JObj m
       /\ dict_get m "strings" = Some (JObj s)
       /\ fix_localizations.update_items fix_localizations.fix_entry s = Ok s'
       /\ d' = JObj (dict_set m "strings" (JObj s')).
Proof.
  unfold fix_localizations.fix_localizations. intros H.
  inv_bind H as has Hhas. destruct has; simpl in H.
  - right. inv_bind H as strings Hs. inv_bind H as items Hit.
    inv_bind H as items' Hup. inversion H; subst d'. clear H.
    destruct d as [| | | | | |m]; try discriminate.
    simpl in Hs. destruct (dict_get m "strings") as [x|] eqn:Em; [|discriminate].
    inversion Hs; subst x. destruct strings; try discriminate.
    inversion Hit; subst items. eauto 8.
  - left. split; [congruence|].
    destruct d as [| | | | | |m]; try reflexivity.
    simpl in Hhas. inversion Hhas as [Hmem]. unfold dict_mem in Hmem.
    unfold strings_of. destruct (dict_get m "strings"); [discriminate|reflexivity].
Qed.

Lemma normalizer_entries d d' :
  fix_localizations.fix_localizations d = Ok d' ->
  Forall2 (fun kv kv' =>
             fst kv' = fst kv
             /\ fix_localizations.fix_entry (fst kv) (snd kv) = Ok (snd kv'))
    (strings_of d) (strings_of d').
Proof.
  intros H. destruct (normalizer_spec _ _ H)
    as [[-> E]|(m & s & s' & -> & Hm & Hup & ->)].
  - rewrite E. constructor.
  - unfold strings_of at 2. rewrite dict_get_set_same.
    unfold strings_of. rewrite Hm. now apply update_items_Forall2.
Qed.

Lemma normalizer_idempotent d d' :
  fix_localizations.fix_localizations d = Ok d' ->
  fix_localizations.fix_localizations d' = Ok d'.
Proof.
  intros H. destruct (normalizer_spec _ _ H)
    as [[-> _]|(m & s & s' & -> & Hm & Hup & ->)]; [assumption|].
  apply update_items_Forall2 in Hup.
  apply (updated_items_fixed _ _ _ fix_entry_idempotent) in Hup.
  unfold fix_localizations.fix_localizations. simpl py_contains.
  unfold dict_mem. rewrite dict_get_set_same. cbn [bind negb].
  rewrite (getitem_obj _ _ _ (dict_get_set_same m _ _)). cbn [bind].
  simpl py_items. cbn [bind].
  rewrite (update_items_fixed _ _ Hup). cbn [bind].
  unfold update_field. now rewrite dict_set_set.
Qed.

(** ** The status loop *)

Lemma status_loop items s0 s :
  for_items localization_status.check_entry items s0 = Ok s ->
  localization_status.total_keys s = localization_status.total_keys s0
  /\ localization_status.should_not_translate s
     = (localization_status.should_not_translate s0
        + count_entries excluded items)%Z
  /\ localization_status.complete_keys s
     = (localization_status.complete_keys s0
        + count_entries complete_by_presence items)%Z.
Proof.
  unfold count_entries. revert s0.
  induction items as [|[k e] items IH]; simpl; intros s0 H.
  - inversion H. repeat split; lia.
  - inv_bind H as s1 Hs1. destruct (IH _ H) as (E1 & E2 & E3).
    rewrite E1, E2, E3. clear IH H E1 E2 E3.
    unfold localization_status.check_entry in Hs1.
    inv_bind Hs1 as should Hs. rewrite (get_should _ _ Hs) in Hs1.
    unfold complete_by_presence.
    destruct (excluded e); simpl.
    + inversion Hs1; subst s1. simpl. repeat split; lia.
    + inv_bind Hs1 as locs Hl. inv_bind Hs1 as ks Hk.
      destruct (get_localizations _ _ _ Hl Hk) as [-> ->].
      rewrite set_issubset_diff in Hs1. fold (missing_of e) in Hs1.
      destruct (missing_of e); inversion Hs1; subst s1; simpl;
        repeat split; lia.
Qed.

Lemma status_reported d s p :
  localization_status.check_localization_status d = Ok (s, p) ->
  localization_status.total_keys s = Z.of_nat (length (strings_of d))
  /\ localization_status.should_not_translate s
     = count_entries excluded (strings_of d)
  /\ localization_status.complete_keys s
     = count_entries complete_by_presence (strings_of d)
  /\ p = localization_status.completion_percentage s.
Proof.
  unfold localization_status.check_localization_status. intros H.
  inv_bind H as strings Hs. inv_bind H as total Ht. inv_bind H as items Hi.
  inv_bind H as s1 Hloop. inversion H; subst s1 p. clear H.
  destruct d as [| | | | | |m]; try discriminate.
  destruct strings as [| | | | | |x]; try discriminate.
  inversion Hi; subst x. simpl in Ht. inversion Ht; subst total.
  assert (Es : strings_of (JObj m) = items).
  { unfold strings_of. simpl in Hs.
    destruct (dict_get m "strings") as [y|]; inversion Hs; reflexivity. }
  rewrite Es. destruct (status_loop _ _ _ Hloop) as (E1 & E2 & E3).
  simpl in E1, E2, E3. repeat split; auto; lia.
Qed.

Lemma nodupb_NoDup l : nodupb l = true -> NoDup l.
Proof.
  induction l as [|x l IH]; simpl; intros H; [constructor|].
  apply andb_true_iff in H. destruct H as [Hx Hl].
  constructor; [|auto]. intros Hin. apply set_mem_In in Hin.
  rewrite Hin in Hx. discriminate.
Qed.

Lemma count_entries_split p s :
  (Z.of_nat (length s) - count_entries p s
   = count_entries (fun e => negb (p e)) s)%Z.
Proof.
  unfold count_entries. induction s as [|[k e] s IH]; [reflexivity|].
  cbn [filter snd]. destruct (p e); cbn [negb length]; lia.
Qed.

(** ** Repair returns on catalogs that follow the schema *)

Lemma Forall_dict_set {V} (P : string * V -> Prop) (m : list (string * V)) k v :
  (forall k', P (k', v)) -> Forall P m -> Forall P (dict_set m k v).
Proof.
  intros Hv. induction 1 as [|[k1 v1] m Hkv HF IH]; simpl.
  - constructor; [apply Hv|constructor].
  - destruct (String.eqb k k1); constructor; auto.
Qed.

Lemma value_getitems en v :
  value_of en = Some v ->
  (string_unit <- py_getitem en "stringUnit" ;;
   py_getitem string_unit "value") = Ok v.
Proof.
  unfold value_of, string_unit_of.
  destruct en as [| | | | | |f]; try discriminate. simpl.
  destruct (dict_get f "stringUnit") as [[| | | | | |u]|]; try discriminate.
  simpl. intros ->. reflexivity.
Qed.

Lemma localization_ok_value loc :
  localization_ok loc = true -> exists x, value_of loc = Some (JStr x).
Proof.
  unfold localization_ok.
  destruct (value_of loc) as [[| | | |x| |]|]; try discriminate. eauto.
Qed.

Lemma all_ok_get locs lang loc :
  all_ok locs -> dict_get locs lang = Some loc -> localization_ok loc = true.
Proof.
  intros Hall Hget. apply dict_get_In in Hget.
  unfold all_ok in Hall. rewrite Forall_forall in Hall.
  exact (Hall _ Hget).
Qed.

Lemma all_ok_set locs lang x :
  all_ok locs -> all_ok (dict_set locs lang (translated_unit (JStr x))).
Proof. apply Forall_dict_set. reflexivity. Qed.

Lemma entry_ok_plug e locs :
  all_ok locs -> entry_ok (JObj (dict_set e "localizations" (JObj locs))) = true.
Proof.
  intros H. unfold entry_ok. rewrite dict_get_set_same.
  apply forallb_forall. unfold all_ok in H. rewrite Forall_forall in H.
  exact H.
Qed.

Lemma entry_ok_localizations e :
  entry_ok e = true ->
  exists f, e = JObj f
    /\ (dict_get f "localizations" = None
        \/ exists locs, dict_get f "localizations" = Some (JObj locs)
                        /\ all_ok locs).
Proof.
  unfold entry_ok. destruct e as [| | | | | |f]; try discriminate.
  intros H. exists f. split; [reflexivity|].
  destruct (dict_get f "localizations") as [[| | | | | |locs]|];
    try discriminate; [right|now left].
  exists locs. split; [reflexivity|].
  unfold all_ok. apply Forall_forall. now apply forallb_forall.
Qed.

Lemma get_translation_value_total key lang locs :
  all_ok locs ->
  exists x,
    localization_fixer.get_translation_value key lang (JObj locs) = Ok (JStr x).
Proof.
  intros Hall. unfold localization_fixer.get_translation_value.
  destruct (lookup_phrase localization_fixer.TRANSLATION_MAPPINGS key lang);
    [eauto|].
  destruct (String.eqb lang "en"); [eauto|].
  unfold py_contains, dict_mem. cbn [bind].
  destruct (dict_get locs "en") as [en|] eqn:Een; [|eauto].
  rewrite (getitem_obj _ _ _ Een). cbn [bind].
  destruct (localization_ok_value en (all_ok_get _ _ _ Hall Een)) as [x Hx].
  apply value_getitems in Hx.
  apply bind_Ok in Hx. destruct Hx as (su & Hsu & Hv).
  rewrite Hsu. cbn [bind]. rewrite Hv. cbn [bind py_in_table].
  destruct (dict_get localization_fixer.TRANSLATION_MAPPINGS x) as [row|];
    [|eauto].
  destruct (dict_get row lang); eauto.
Qed.

Lemma fixer_loop_total m s e key shared langs :
  forall locs,
    all_ok locs ->
    exists locs',
      for_each
        (fun d' lang =>
           existing_localizations <-
             localization_fixer.existing_localizations_now shared (JObj []) d' key ;;
           translation_value <-
             localization_fixer.get_translation_value key lang
               existing_localizations ;;
           assign_localization d' key lang (translated_unit translation_value))
        langs (plug m s e key locs) = Ok (plug m s e key locs')
      /\ all_ok locs'.
Proof.
  induction langs as [|l langs IH]; intros locs Hall.
  - exists locs. split; [reflexivity|assumption].
  - cbn [for_each].
    assert (Hv : exists x,
      (existing_localizations <-
         localization_fixer.existing_localizations_now shared (JObj [])
           (plug m s e key locs) key ;;
       localization_fixer.get_translation_value key l existing_localizations)
      = Ok (JStr x)).
    { destruct shared.
      - rewrite read_plug. cbn [bind].
        now apply get_translation_value_total.
      - cbn [localization_fixer.existing_localizations_now bind].
        apply get_translation_value_total. constructor. }
    destruct Hv as [x Hx]. apply bind_Ok in Hx.
    destruct Hx as (ex & Hex & Hx). rewrite Hex. cbn [bind].
    rewrite Hx. cbn [bind]. rewrite assign_plug. cbn [bind].
    apply IH. now apply all_ok_set.
Qed.

Lemma fixer_round_total :
  round_total (fun e => entry_ok e = true) silent.fixer_fix_key.
Proof.
  intros a m s key e0 Hm Hs Hok.
  unfold silent.fixer_fix_key, localization_fixer.add_translations.
  destruct (dict_get (missing_languages a) key) as [[|lang0 langs]|];
    [now left| |now left].
  right.
  rewrite (getitem_obj _ _ _ Hm). cbn [bind].
  rewrite (getitem_obj _ _ _ Hs). cbn [bind].
  destruct (entry_ok_localizations _ Hok) as (e & -> & [He|(locs0 & He & Hall)]).
  - unfold py_get, py_contains, dict_mem. rewrite He.
    cbn [bind negb py_setitem update_field].
    change (JObj (dict_set m "strings"
                    (JObj (dict_set s key
                             (JObj (dict_set e "localizations" (JObj [])))))))
      with (plug m s e key []).
    destruct (fixer_loop_total m s e key false (lang0 :: langs) []
                (Forall_nil _)) as (locs' & Hloop & Hall').
    exists (JObj (dict_set e "localizations" (JObj locs'))).
    split; [now apply entry_ok_plug|exact Hloop].
  - unfold py_get, py_contains, dict_mem. rewrite He. cbn [bind negb].
    destruct (fixer_loop_total m s e key true (lang0 :: langs) locs0 Hall)
      as (locs' & Hloop & Hall').
    exists (JObj (dict_set e "localizations" (JObj locs'))).
    split; [now apply entry_ok_plug|].
    rewrite <- (plug_id m s e key locs0 Hm Hs He) at 1. exact Hloop.
Qed.

Lemma for_each_total Pre fix_key a keys :
  round_total Pre fix_key ->
  forall m s,
    dict_get m "strings" = Some (JObj s) ->
    (forall k, In k keys -> exists e, dict_get s k = Some e /\ Pre e) ->
    exists d', for_each (fix_key a) keys (JObj m) = Ok d'.
Proof.
  intros Hround. induction keys as [|k keys IH]; intros m s Hm Hkeys.
  - exists (JObj m). reflexivity.
  - cbn [for_each].
    destruct (Hkeys k (or_introl eq_refl)) as (e & He & Hpre).
    destruct (Hround a m s k e Hm He Hpre) as [E|(e' & Hpre' & E)];
      rewrite E; cbn [bind].
    + apply (IH m s Hm). intros k' Hk'. apply Hkeys. now right.
    + apply (IH _ (dict_set s k e') (dict_get_set_same m _ _)).
      intros k' Hk'. destruct (String.eqb_spec k' k) as [->|Hne].
      * exists e'. split; [apply dict_get_set_same|assumption].
      * rewrite dict_get_set_other by assumption. apply Hkeys. now right.
Qed.

Lemma for_items_total {S} (P : json -> Prop)
  (body : S -> string -> json -> result S) items :
  (forall a k e, P e -> exists a', body a k e = Ok a') ->
  Forall (fun kv => P (snd kv)) items ->
  forall a0, exists a, for_items body items a0 = Ok a.
Proof.
  intros Hbody. induction 1 as [|[k e] items He HF IH]; intros a0.
  - exists a0. reflexivity.
  - cbn [for_items]. destruct (Hbody a0 k e He) as [a1 E]. rewrite E.
    cbn [bind]. apply IH.
Qed.

Lemma all_translated_total items :
  all_ok items -> exists b, localization_analyzer.all_translated items = Ok b.
Proof.
  induction 1 as [|[lang loc] items Hloc HF IH]; [now exists true|].
  cbn [localization_analyzer.all_translated].
  destruct (localization_ok_value loc Hloc) as [x Hx].
  unfold value_of, string_unit_of in Hx.
  destruct loc as [| | | | | |f]; try discriminate. cbn [py_get].
  destruct (dict_get f "stringUnit") as [[| | | | | |u]|]; try discriminate.
  cbn [bind py_get].
  destruct (py_eq_str match dict_get u "state" with
                      | Some st => st | None => JNull end "translated");
    [exact IH|now exists false].
Qed.

Lemma analyze_entry_total list_of_set a key e :
  entry_ok e = true ->
  (exists a', localization_fixer.analyze_entry list_of_set a key e = Ok a')
  /\ (exists a', localization_analyzer.analyze_entry list_of_set a key e = Ok a').
Proof.
  intros Hok.
  destruct (entry_ok_localizations _ Hok) as (f & -> & Hlocs).
  unfold localization_fixer.analyze_entry, localization_analyzer.analyze_entry.
  cbn [py_get bind].
  destruct (py_eq_False match dict_get f "shouldTranslate" with
                        | Some x => x | None => JNull end); [eauto|].
  destruct Hlocs as [E|(locs & E & Hall)]; rewrite E; cbn [bind py_keys].
  - change (dict_keys (@nil (string * json))) with (@nil string).
    destruct (set_diff EXPECTED_LANGUAGES []); [|eauto].
    split; [eauto|]. cbn. eauto.
  - destruct (set_diff EXPECTED_LANGUAGES (dict_keys locs)); [|eauto].
    split; [eauto|]. cbn [py_items bind].
    destruct (all_translated_total locs Hall) as [b Hb]. rewrite Hb.
    cbn [bind]. destruct b; eauto.
Qed.

Lemma well_formed_shape d :
  well_formed d = true ->
  exists m s,
    d = JObj m
    /\ dict_get m "strings" = Some (JObj s)
    /\ strings_of d = s
    /\ Forall (fun kv => entry_ok (snd kv) = true) s.
Proof.
  unfold well_formed. destruct d as [| | | | | |m]; try discriminate.
  destruct (dict_get m "strings") as [[| | | | | |s]|] eqn:Em; try discriminate.
  intros H. exists m, s. split; [reflexivity|]. split; [assumption|]. split.
  - unfold strings_of. now rewrite Em.
  - apply Forall_forall. now apply forallb_forall.
Qed.

Lemma analysis_total list_of_set d :
  well_formed d = true ->
  (exists a, localization_fixer.analyze_completeness list_of_set d = Ok a)
  /\ (exists a, localization_analyzer.analyze_completeness list_of_set d = Ok a).
Proof.
  intros Hwf. destruct (well_formed_shape d Hwf) as (m & s & -> & Hm & _ & Hall).
  unfold localization_fixer.analyze_completeness,
    localization_analyzer.analyze_completeness.
  cbn [py_get]. rewrite Hm. cbn [bind py_len py_items]. split.
  - destruct (for_items_total (fun e => entry_ok e = true)
                (localization_fixer.analyze_entry list_of_set) s
                (fun a k e H => proj1 (analyze_entry_total list_of_set a k e H))
                Hall (initial_analysis (Z.of_nat (length s)))) as [a Ha].
    rewrite Ha. cbn [bind]. eauto.
  - destruct (for_items_total (fun e => entry_ok e = true)
                (localization_analyzer.analyze_entry list_of_set) s
                (fun a k e H => proj2 (analyze_entry_total list_of_set a k e H))
                Hall (initial_analysis (Z.of_nat (length s)))) as [a Ha].
    rewrite Ha. cbn [bind]. eauto.
Qed.

Lemma all_ok_synthesized (g : string -> json) langs :
  (forall lang, localization_ok (g lang) = true) ->
  forall acc, all_ok acc ->
    all_ok (fold_left (fun acc lang => dict_set acc lang (g lang)) langs acc).
Proof.
  intros Hg. induction langs as [|l langs IH]; intros acc Hacc; [assumption|].
  cbn [fold_left]. apply IH. apply Forall_dict_set; [|assumption].
  intros k'. apply Hg.
Qed.

Lemma all_ok_stored items :
  all_ok items ->
  forall locs, all_ok locs ->
    all_ok (fold_left (fun acc kv => dict_set acc (fst kv) (snd kv)) items locs).
Proof.
  induction 1 as [|[l t] items Ht HF IH]; intros locs Hlocs; [assumption|].
  cbn [fold_left fst snd]. apply IH. apply Forall_dict_set; [|assumption].
  intros k'. exact Ht.
Qed.

Lemma analyzer_round_total :
  round_total (fun e => entry_ok e = true /\ has_localizations e = true)
    silent.analyzer_fix_key.
Proof.
  intros a m s key e0 Hm Hs [Hok Hhas].
  unfold silent.analyzer_fix_key, localization_analyzer.add_translations.
  destruct (dict_get (missing_languages a) key) as [[|lang0 langs]|];
    [now left| |now left].
  right.
  destruct (entry_ok_localizations _ Hok) as (e & -> & [He|(locs0 & He & Hall)]).
  { simpl in Hhas. unfold dict_mem in Hhas. rewrite He in Hhas. discriminate. }
  assert (Hev : exists x,
    (if dict_mem "en" locs0
     then en <- py_getitem (JObj locs0) "en" ;;
          string_unit <- py_getitem en "stringUnit" ;;
          py_getitem string_unit "value"
     else Ok (JStr key)) = Ok (JStr x)).
  { unfold dict_mem. destruct (dict_get locs0 "en") as [en|] eqn:Een; [|eauto].
    rewrite (getitem_obj _ _ _ Een). cbn [bind].
    destruct (localization_ok_value en (all_ok_get _ _ _ Hall Een)) as [x Hx].
    exists x. now apply value_getitems. }
  destruct Hev as [x Hx].
  unfold localization_analyzer.generate_missing_translations.
  rewrite (getitem_obj _ _ _ Hm). cbn [bind].
  rewrite (getitem_obj _ _ _ Hs). cbn [bind py_get]. rewrite He.
  cbn [bind py_contains]. rewrite Hx. cbn [bind].
  set (g := fun lang =>
              translated_unit
                match lookup_phrase localization_analyzer.translation_map
                        key lang with
                | Some v => JStr v
                | None => JStr x
                end).
  set (new := fold_left _ (lang0 :: langs) []).
  assert (Hnew : all_ok new).
  { apply (all_ok_synthesized g); [|constructor].
    intros lang. unfold g.
    destruct (lookup_phrase localization_analyzer.translation_map key lang);
      reflexivity. }
  exists (JObj (dict_set e "localizations"
                  (JObj (fold_left
                           (fun acc kv => dict_set acc (fst kv) (snd kv))
                           new locs0)))).
  split;
    [|rewrite <- (plug_id m s e key locs0 Hm Hs He) at 1;
      apply for_items_assign_plug].
  split.
  - apply entry_ok_plug. now apply all_ok_stored.
  - simpl. apply dict_mem_set. now left.
Qed.

(** On every catalog that follows the schema the rounds of the
    automatic repair go through, entries without a ['localizations']
    mapping included. *)
Lemma silent_fixer_total list_of_set d :
  well_formed d = true ->
  exists d', silent.fixer_fix_localizations list_of_set d = Ok d'.
Proof.
  intros Hwf. destruct (proj1 (analysis_total list_of_set d Hwf)) as [a Ha].
  pose proof (fixer_reported _ _ _ Ha) as Hrep.
  destruct (well_formed_shape d Hwf) as (m & s & -> & Hm & Es & Hall).
  unfold silent.fixer_fix_localizations. rewrite Ha. cbn [bind].
  apply (for_each_total _ _ a _ fixer_round_total m s Hm).
  intros k Hk. rewrite (rep_incomplete _ _ _ _ Hrep), Es in Hk.
  apply in_map_iff in Hk. destruct Hk as [[k' e] [E Hin]].
  apply filter_In in Hin. destruct Hin as [Hin _]. simpl in E. subst k'.
  destruct (dict_get s k) as [e1|] eqn:E1.
  - exists e1. split; [reflexivity|].
    rewrite Forall_forall in Hall. exact (Hall _ (dict_get_In _ _ _ E1)).
  - exfalso. apply dict_get_None in E1. apply E1.
    apply (in_map fst) in Hin. exact Hin.
Qed.

(** The rounds of the interactive repair go through on every catalog
    that follows the schema and whose translatable entries all have a
    ['localizations'] mapping. *)
Lemma silent_analyzer_total list_of_set d :
  unique_keys d = true ->
  well_formed d = true ->
  all_mapped d = true ->
  exists d', silent.analyzer_fix_localizations list_of_set d = Ok d'.
Proof.
  intros Hu Hwf Hmap. apply nodupb_NoDup in Hu.
  destruct (proj2 (analysis_total list_of_set d Hwf)) as [a Ha].
  pose proof (analyzer_reported _ _ _ Ha) as Hrep.
  assert (Hkeys : forall k, In k (incomplete_keys a) ->
            exists e, dict_get (strings_of d) k = Some e
              /\ entry_ok e = true /\ has_localizations e = true).
  { intros k Hk.
    apply (incomplete_keys_entry _ true d a k Hu Hrep) in Hk.
    destruct Hk as (e & He & Hv). exists e. split; [exact He|].
    apply dict_get_In in He.
    destruct (well_formed_shape d Hwf) as (m & s & _ & _ & Es & Hall).
    rewrite Es in He. rewrite Forall_forall in Hall. split.
    - exact (Hall _ He).
    - unfold all_mapped in Hmap. rewrite forallb_forall in Hmap.
      rewrite Es in Hmap. specialize (Hmap _ He). simpl in Hmap.
      destruct (excluded e) eqn:Ex; [|exact Hmap].
      apply (verdict_excluded true) in Ex. rewrite Ex in Hv. discriminate. }
  destruct (well_formed_shape d Hwf) as (m & s & -> & Hm & Es & Hall).
  unfold silent.analyzer_fix_localizations. rewrite Ha.
  cbn [bind py_copy].
  rewrite Es in Hkeys.
  exact (for_each_total _ _ a _ analyzer_round_total m s Hm Hkeys).
Qed.

(** When the console accepts the text of every round, a repair returns
    what its rounds return and raises what they raise. *)
Lemma incomplete_keys_incl list_of_set strict d a key :
  reported list_of_set strict d a ->
  In key (incomplete_keys a) -> In key (dict_keys (strings_of d)).
Proof.
  intros Hrep Hk. rewrite (rep_incomplete _ _ _ _ Hrep) in Hk.
  apply in_map_iff in Hk. destruct Hk as [[k e] [E Hin]].
  apply filter_In in Hin. destruct Hin as [Hin _]. cbn [fst] in E. subst k.
  change key with (fst (key, e)). now apply in_map.
Qed.

Lemma fixer_accepted console list_of_set d :
  (forall key, In key (dict_keys (strings_of d)) -> fixer_prints console key) ->
  localization_fixer.fix_localizations console list_of_set d
  = silent.fixer_fix_localizations list_of_set d.
Proof.
  intros Hacc.
  unfold localization_fixer.fix_localizations, silent.fixer_fix_localizations.
  destruct (localization_fixer.analyze_completeness list_of_set d)
    as [a|err] eqn:Ha; cbn [bind]; [|reflexivity].
  cbv zeta. rewrite fixer_fixing_printed. cbn [bind].
  pose proof (fixer_reported _ _ _ Ha) as Hrep.
  pose proof (fixer_loop_accepted console a (incomplete_keys a)
                (fun key langs Hin _ =>
                   Hacc key (incomplete_keys_incl _ _ _ _ _ Hrep Hin) langs)
                (localization_fixer.deep_copy d) 0%Z) as Hloop.
  destruct (for_each (silent.fixer_fix_key a) (incomplete_keys a)
              (localization_fixer.deep_copy d)) as [d'|err].
  - destruct Hloop as [c' ->]. cbn [bind snd fst].
    now rewrite fixer_summary_printed.
  - now rewrite Hloop.
Qed.

Lemma analyzer_accepted console list_of_set d :
  (forall s, Permutation (list_of_set s) s) ->
  NoDup (dict_keys (strings_of d)) ->
  (forall key, In key (dict_keys (strings_of d)) ->
     analyzer_prints console key) ->
  localization_analyzer.fix_localizations console list_of_set d
  = silent.analyzer_fix_localizations list_of_set d.
Proof.
  intros Hperm Hnd Hacc.
  unfold localization_analyzer.fix_localizations,
    silent.analyzer_fix_localizations.
  destruct (localization_analyzer.analyze_completeness list_of_set d)
    as [a|err] eqn:Ha; cbn [bind]; [|reflexivity].
  destruct (py_copy d) as [fixed|err]; cbn [bind]; [|reflexivity].
  rewrite analyzer_fixing_printed. cbn [bind].
  pose proof (analyzer_reported _ _ _ Ha) as Hrep.
  apply analyzer_loop_accepted. intros key langs Hin Hl.
  apply (Hacc key (incomplete_keys_incl _ _ _ _ _ Hrep Hin)).
  apply (incomplete_keys_entry list_of_set true d a key Hnd Hrep) in Hin.
  destruct Hin as (e & He & _).
  rewrite (rep_missing _ _ _ _ Hrep key e Hnd He) in Hl.
  destruct (verdict_of true e) as [|codes| |] eqn:Ev; try discriminate.
  injection Hl as <-. apply verdict_missing in Ev. destruct Ev as [-> _].
  intros lang Hlang.
  apply (Permutation_in _ (Hperm _)) in Hlang.
  now apply missing_of_spec in Hlang.
Qed.

(** The automatic repair returns on every catalog that follows the
    schema, entries without a ['localizations'] mapping included, when
    the console accepts what its rounds print. *)
Theorem fixer_repair_total console list_of_set d :
  well_formed d = true ->
  (forall key, In key (dict_keys (strings_of d)) -> fixer_prints console key) ->
  exists d', localization_fixer.fix_localizations console list_of_set d = Ok d'.
Proof.
  intros Hwf Hacc. rewrite fixer_accepted by assumption.
  now apply silent_fixer_total.
Qed.

(** The interactive repair returns on every catalog that follows the
    schema and whose translatable entries all have a ['localizations']
    mapping, when the console accepts what its rounds print. *)
Theorem analyzer_repair_total console list_of_set d :
  (forall s, Permutation (list_of_set s) s) ->
  unique_keys d = true ->
  well_formed d = true ->
  all_mapped d = true ->
  (forall key, In key (dict_keys (strings_of d)) ->
     analyzer_prints console key) ->
  exists d',
    localization_analyzer.fix_localizations console list_of_set d = Ok d'.
Proof.
  intros Hperm Hu Hwf Hmap Hacc.
  rewrite analyzer_accepted;
    [now apply silent_analyzer_total|assumption|now apply nodupb_NoDup
    |assumption].
Qed.

(** Whatever the console: a run returns what its rounds return, and
    raises what they raise or [UnicodeEncodeError] for a text the console
    rejects. *)
Lemma analyzer_round_printed console a d key :
  match localization_analyzer.fix_key console a d key with
  | Ok d' => silent.analyzer_fix_key a d key = Ok d'
  | Raise err =>
      silent.analyzer_fix_key a d key = Raise err
      \/ (err = UnicodeEncodeError
          /\ exists langs,
               dict_get (missing_languages a) key = Some langs
               /\ accepts console
                    (localization_analyzer.fixed_message key langs) = false)
  end.
Proof.
  unfold localization_analyzer.fix_key, silent.analyzer_fix_key.
  destruct (dict_get (missing_languages a) key) as [[|l ls]|];
    try reflexivity.
  destruct (localization_analyzer.add_translations d key (l :: ls));
    cbn [bind]; [|now left].
  unfold py_print.
  destruct (accepts console _) eqn:E; cbn [bind]; [reflexivity|].
  right. eauto.
Qed.

Lemma analyzer_loop_printed console a keys :
  forall d,
    match for_each (localization_analyzer.fix_key console a) keys d with
    | Ok d' => for_each (silent.analyzer_fix_key a) keys d = Ok d'
    | Raise err =>
        for_each (silent.analyzer_fix_key a) keys d = Raise err
        \/ (err = UnicodeEncodeError
            /\ exists key langs,
                 In key keys
                 /\ dict_get (missing_languages a) key = Some langs
                 /\ accepts console
                      (localization_analyzer.fixed_message key langs) = false)
    end.
Proof.
  induction keys as [|k keys IH]; intros d; [reflexivity|].
  cbn [for_each].
  pose proof (analyzer_round_printed console a d k) as Hk.
  destruct (localization_analyzer.fix_key console a d k) as [d1|err];
    cbn [bind].
  - rewrite Hk. cbn [bind]. specialize (IH d1).
    destruct (for_each (localization_analyzer.fix_key console a) keys d1)
      as [d'|err]; [assumption|].
    destruct IH as [E|(E & key & langs & Hin & Hl & Hacc)]; [now left|].
    right. split; [assumption|]. exists key, langs.
    split; [now right|auto].
  - destruct Hk as [E|(E & langs & Hl & Hacc)].
    + left. now rewrite E.
    + right. split; [assumption|]. exists k, langs.
      split; [now left|auto].
Qed.

Lemma analyzer_printed console list_of_set d :
  (forall s, Permutation (list_of_set s) s) ->
  NoDup (dict_keys (strings_of d)) ->
  match localization_analyzer.fix_localizations console list_of_set d with
  | Ok d' => silent.analyzer_fix_localizations list_of_set d = Ok d'
  | Raise err =>
      silent.analyzer_fix_localizations list_of_set d = Raise err
      \/ (err = UnicodeEncodeError
          /\ exists key,
               In key (dict_keys (strings_of d))
               /\ ~ analyzer_prints console key)
  end.
Proof.
  intros Hperm Hnd.
  unfold localization_analyzer.fix_localizations,
    silent.analyzer_fix_localizations.
  destruct (localization_analyzer.analyze_completeness list_of_set d)
    as [a|err] eqn:Ha; cbn [bind]; [|now left].
  destruct (py_copy d) as [fixed|err]; cbn [bind]; [|now left].
  rewrite analyzer_fixing_printed. cbn [bind].
  pose proof (analyzer_reported _ _ _ Ha) as Hrep.
  pose proof (analyzer_loop_printed console a (incomplete_keys a) fixed) as Hl.
  destruct (for_each (localization_analyzer.fix_key console a)
              (incomplete_keys a) fixed) as [d'|err]; [assumption|].
  destruct Hl as [E|(E & key & langs & Hin & Hl & Hacc)]; [now left|].
  right. split; [assumption|]. exists key.
  split; [exact (incomplete_keys_incl _ _ _ _ _ Hrep Hin)|].
  intros Hp. rewrite Hp in Hacc; [discriminate|].
  apply (incomplete_keys_entry list_of_set true d a key Hnd Hrep) in Hin.
  destruct Hin as (e & He & _).
  rewrite (rep_missing _ _ _ _ Hrep key e Hnd He) in Hl.
  destruct (verdict_of true e) as [|codes| |] eqn:Ev; try discriminate.
  injection Hl as <-. apply verdict_missing in Ev. destruct Ev as [-> _].
  intros lang Hlang.
  apply (Permutation_in _ (Hperm _)) in Hlang.
  now apply missing_of_spec in Hlang.
Qed.

Lemma fixer_round_printed console a d c key :
  match localization_fixer.fix_key console a (d, c) key with
  | Ok state => silent.fixer_fix_key a d key = Ok (fst state)
  | Raise err =>
      silent.fixer_fix_key a d key = Raise err
      \/ (err = UnicodeEncodeError
          /\ exists langs,
               accepts console
                 (localization_fixer.fixed_message key langs) = false)
  end.
Proof.
  unfold localization_fixer.fix_key, silent.fixer_fix_key.
  destruct (dict_get (missing_languages a) key) as [[|l ls]|];
    try reflexivity.
  destruct (localization_fixer.add_translations d key (l :: ls));
    cbn [bind]; [|now left].
  unfold py_print.
  destruct (accepts console _) eqn:E; cbn [bind]; [reflexivity|].
  right. eauto.
Qed.

Lemma fixer_loop_printed console a keys :
  forall d c,
    match for_each (localization_fixer.fix_key console a) keys (d, c) with
    | Ok state => for_each (silent.fixer_fix_key a) keys d = Ok (fst state)
    | Raise err =>
        for_each (silent.fixer_fix_key a) keys d = Raise err
        \/ (err = UnicodeEncodeError
            /\ exists key langs,
                 In key keys
                 /\ accepts console
                      (localization_fixer.fixed_message key langs) = false)
    end.
Proof.
  induction keys as [|k keys IH]; intros d c; [reflexivity|].
  cbn [for_each].
  pose proof (fixer_round_printed console a d c k) as Hk.
  destruct (localization_fixer.fix_key console a (d, c) k) as [[d1 c1]|err];
    cbn [bind].
  - cbn [fst] in Hk. rewrite Hk. cbn [bind]. specialize (IH d1 c1).
    destruct (for_each (localization_fixer.fix_key console a) keys (d1, c1))
      as [state|err]; [assumption|].
    destruct IH as [E|(E & key & langs & Hin & Hacc)]; [now left|].
    right. split; [assumption|]. exists key, langs.
    split; [now right|auto].
  - destruct Hk as [E|(E & langs & Hacc)].
    + left. now rewrite E.
    + right. split; [assumption|]. exists k, langs.
      split; [now left|auto].
Qed.

Lemma fixer_printed console list_of_set d :
  match localization_fixer.fix_localizations console list_of_set d with
  | Ok d' => silent.fixer_fix_localizations list_of_set d = Ok d'
  | Raise err =>
      silent.fixer_fix_localizations list_of_set d = Raise err
      \/ (err = UnicodeEncodeError
          /\ exists key,
               In key (dict_keys (strings_of d))
               /\ ~ fixer_prints console key)
  end.
Proof.
  unfold localization_fixer.fix_localizations, silent.fixer_fix_localizations.
  destruct (localization_fixer.analyze_completeness list_of_set d)
    as [a|err] eqn:Ha; cbn [bind]; [|now left].
  cbv zeta. rewrite fixer_fixing_printed. cbn [bind].
  pose proof (fixer_reported _ _ _ Ha) as Hrep.
  pose proof (fixer_loop_printed console a (incomplete_keys a)
                (localization_fixer.deep_copy d) 0%Z) as Hl.
  destruct (for_each (localization_fixer.fix_key console a)
              (incomplete_keys a) (localization_fixer.deep_copy d, 0%Z))
    as [state|err]; cbn [bind].
  - now rewrite fixer_summary_printed.
  - destruct Hl as [E|(E & key & langs & Hin & Hacc)]; [now left|].
    right. split; [assumption|]. exists key.
    split; [exact (incomplete_keys_incl _ _ _ _ _ Hrep Hin)|].
    intros Hp. now rewrite Hp in Hacc.
Qed.

(** * The claims *)

(** The first key of a dict stays first when other keys are stored. *)
Lemma fold_set_head (g : string -> json) langs :
  forall k v acc,
  exists v' rest,
    fold_left (fun acc lang => dict_set acc lang (g lang)) langs ((k, v) :: acc)
    = (k, v') :: rest.
Proof.
  induction langs as [|l langs IH]; simpl; intros k v acc; [eauto|].
  destruct (String.eqb l k); apply IH.
Qed.

Lemma generate_for_bare_entry lang0 langs :
  exists v' rest,
    localization_analyzer.generate_missing_translations bare_catalog "Save"
      (lang0 :: langs)
    = Ok ((lang0, v') :: rest).
Proof.
  set (g := fun lang =>
              translated_unit
                match lookup_phrase localization_analyzer.translation_map
                        "Save" lang with
                | Some v => JStr v
                | None => JStr "Save"
                end).
  destruct (fold_set_head g langs lang0 (g lang0) []) as (v' & rest & E).
  exists v', rest. rewrite <- E. reflexivity.
Qed.

(** C1.  The interactive repair raises [KeyError] on a catalog holding an
    entry without a ['localizations'] mapping: the analysis lists the
    entry with the ten codes missing, and the first store into
    [fixed_data['strings'][key]['localizations']] fails.  The automatic
    repair, which installs the missing mapping first, returns on the same
    catalog. *)
Theorem C1_analyzer_repair_raises_on_bare_entry
  (console : string -> bool) (list_of_set : list string -> list string) :
  (forall s, Permutation (list_of_set s) s) ->
  localization_analyzer.analyze_completeness list_of_set bare_catalog
  = Ok (mk_analysis 1 0 ["Save"] [("Save", list_of_set EXPECTED_LANGUAGES)]
          0 0%float)
  /\ localization_analyzer.fix_localizations console list_of_set bare_catalog
     = Raise KeyError
  /\ exists d',
       localization_fixer.fix_localizations console list_of_set bare_catalog
       = Ok d'.
Proof.
  intros Hperm.
  assert (Ha : localization_analyzer.analyze_completeness list_of_set
                 bare_catalog
               = Ok (mk_analysis 1 0 ["Save"]
                       [("Save", list_of_set EXPECTED_LANGUAGES)] 0 0%float))
    by reflexivity.
  split; [assumption|].
  split.
  2:{ apply fixer_repair_total; [reflexivity|].
      intros key [<-|[]] langs. unfold accepts.
      now rewrite fixer_message_ascii. }
  unfold localization_analyzer.fix_localizations. rewrite Ha.
  cbn [bind py_copy bare_catalog catalog incomplete_keys].
  rewrite analyzer_fixing_printed. cbn [bind for_each].
  unfold localization_analyzer.fix_key, localization_analyzer.add_translations.
  cbn [missing_languages dict_get]. rewrite String.eqb_refl.
  destruct (list_of_set EXPECTED_LANGUAGES) as [|lang0 langs] eqn:El.
  - specialize (Hperm EXPECTED_LANGUAGES). rewrite El in Hperm.
    apply Permutation_nil in Hperm. discriminate.
  - destruct (generate_for_bare_entry lang0 langs) as (v' & rest & E).
    rewrite E. reflexivity.
Qed.

Section Claims.
Variable list_of_set : list string -> list string.
Hypothesis list_of_set_perm : forall s, Permutation (list_of_set s) s.
Variable console : string -> bool.

(** C2, amended.  For a translatable entry with no target code missing,
    the interactive analyser lists the key as incomplete exactly when some
    Localization is not in state ['translated'], and counts as complete the
    entries complete by presence and state; the automatic fixer never lists
    such a key and, like the status script, counts every entry complete by
    presence, whatever its states. *)
Theorem C2_state_rule_only_in_analyzer d key entry :
  unique_keys d = true ->
  entry_of d key = Some entry ->
  excluded entry = false ->
  missing_of entry = [] ->
  (forall a, localization_analyzer.analyze_completeness list_of_set d = Ok a ->
     (In key (incomplete_keys a) <-> all_states_translated entry = false)
     /\ complete_keys a = count_entries complete_by_state (strings_of d))
  /\ (forall a, localization_fixer.analyze_completeness list_of_set d = Ok a ->
        ~ In key (incomplete_keys a)
        /\ complete_keys a = count_entries complete_by_presence (strings_of d))
  /\ (forall s p, localization_status.check_localization_status d = Ok (s, p) ->
        localization_status.complete_keys s
        = count_entries complete_by_presence (strings_of d)).
Proof.
  intros Hu He Hex Hm. apply nodupb_NoDup in Hu.
  assert (Hv : forall strict, verdict_of strict entry
                 = if strict && negb (all_states_translated entry)
                   then Untranslated else Complete)
    by (intros strict; unfold verdict_of; now rewrite Hex, Hm).
  split; [|split].
  - intros a Ha. apply analyzer_reported in Ha. split.
    + rewrite (incomplete_keys_entry _ true d a key Hu Ha). split.
      * intros (e & He' & Hi). rewrite He in He'. inversion He'; subst e.
        rewrite Hv in Hi. simpl in Hi.
        destruct (all_states_translated entry); [discriminate|reflexivity].
      * intros Hs. exists entry. split; [assumption|].
        rewrite Hv, Hs. reflexivity.
    + apply (rep_complete _ _ _ _ Ha).
  - intros a Ha. apply fixer_reported in Ha. split.
    + rewrite (incomplete_keys_entry _ false d a key Hu Ha).
      intros (e & He' & Hi). rewrite He in He'. inversion He'; subst e.
      rewrite Hv in Hi. discriminate.
    + apply (rep_complete _ _ _ _ Ha).
  - intros s p Hs. now apply status_reported in Hs.
Qed.

Lemma grown_localizations choice d d' :
  grown_items choice (strings_of d) (strings_of d') ->
  (forall key lang x,
      localization_of d key lang = Some x ->
      localization_of d' key lang = Some x)
  /\ (forall key lang y,
        localization_of d' key lang = Some y ->
        localization_of d key lang = Some y
        \/ (localization_of d key lang = None
            /\ In lang EXPECTED_LANGUAGES
            /\ exists e0 v,
                 entry_of d key = Some e0
                 /\ choice key lang (localizations_of e0) = Some v
                 /\ y = translated_unit v))
  /\ dict_keys (strings_of d') = dict_keys (strings_of d).
Proof.
  intros Hg. split; [|split].
  - intros key lang x. unfold localization_of, entry_of.
    destruct (dict_get (strings_of d) key) as [e0|] eqn:E0; [|discriminate].
    destruct (grown_items_get _ _ _ _ _ Hg E0) as (e' & -> & Hgrow).
    now apply grown_keeps with (key := key) (choice := choice).
  - intros key lang y. unfold localization_of, entry_of.
    destruct (dict_get (strings_of d') key) as [e'|] eqn:E'; [|discriminate].
    destruct (dict_get (strings_of d) key) as [e0|] eqn:E0.
    + destruct (grown_items_get _ _ _ _ _ Hg E0) as (e1 & E1 & Hgrow).
      rewrite E' in E1. inversion E1; subst e1. clear E1. intros Hy.
      destruct (dict_get (localizations_of e0) lang) as [x|] eqn:Ex.
      * left. rewrite (grown_keeps _ _ _ _ _ _ Hgrow Ex) in Hy. congruence.
      * right. destruct (grown_new _ _ _ _ _ _ Hgrow Ex Hy) as (Hin & v & Hv & ->).
        split; [reflexivity|]. split; [assumption|]. eauto.
    + exfalso. apply dict_get_None in E0.
      rewrite <- (grown_items_keys _ _ _ Hg) in E0.
      apply dict_get_None in E0. congruence.
  - now apply grown_items_keys with (choice := choice).
Qed.

(** C3.  Repair, by either script, keeps every Localization an entry
    had: each code present before maps to the same Localization after;
    whatever else an entry holds afterwards sits under a target code it
    lacked; no entry is added or dropped. *)
Theorem C3_repair_keeps_localizations d d' :
  unique_keys d = true ->
  repairs console list_of_set d d' ->
  (forall key lang x,
      localization_of d key lang = Some x ->
      localization_of d' key lang = Some x)
  /\ (forall key lang y,
        localization_of d' key lang = Some y ->
        localization_of d key lang = Some y
        \/ (localization_of d key lang = None /\ In lang EXPECTED_LANGUAGES))
  /\ dict_keys (strings_of d') = dict_keys (strings_of d).
Proof.
  intros Hu Hrep. apply nodupb_NoDup in Hu.
  assert (Hg : exists choice,
             grown_items choice (strings_of d) (strings_of d')).
  { destruct Hrep as [H|H].
    - destruct (fixer_repair _ list_of_set_perm d d' Hu H) as (a & _ & Hg & _).
      eauto.
    - destruct (analyzer_repair _ list_of_set_perm d d' Hu H)
        as (a & _ & Hg & _).
      eauto. }
  destruct Hg as [choice Hg].
  destruct (grown_localizations choice d d' Hg) as (Hkeep & Hnew & Hkeys).
  split; [assumption|]. split; [|assumption].
  intros key lang y Hy. destruct (Hnew key lang y Hy) as [E|(E & Hin & _)]; auto.
Qed.

(** C4.  After repair, by either script, every translatable entry that
    the script's analysis had listed as incomplete holds a Localization
    under each of the ten target codes. *)
Theorem C4_repair_fills_target_codes d key entry :
  unique_keys d = true ->
  entry_of d key = Some entry ->
  excluded entry = false ->
  (forall a d',
      localization_fixer.analyze_completeness list_of_set d = Ok a ->
      In key (incomplete_keys a) ->
      localization_fixer.fix_localizations console list_of_set d = Ok d' ->
      has_all_codes d' key)
  /\ (forall a d',
        localization_analyzer.analyze_completeness list_of_set d = Ok a ->
        In key (incomplete_keys a) ->
        localization_analyzer.fix_localizations console list_of_set d = Ok d' ->
        has_all_codes d' key).
Proof.
  intros Hu He Hex. pose proof (nodupb_NoDup _ Hu) as Hnd.
  assert (Hfix : forall d',
            localization_fixer.fix_localizations console list_of_set d = Ok d' ->
            has_all_codes d' key).
  { intros d' H.
    destruct (fixer_repair _ list_of_set_perm d d' Hnd H)
      as (a' & _ & Hg & _ & Hall).
    destruct (grown_items_get _ _ _ _ _ Hg He) as (e' & He' & _).
    exists e'. split; [assumption|]. now apply (Hall key entry e'). }
  assert (Hana : forall d',
            localization_analyzer.fix_localizations console list_of_set d = Ok d' ->
            has_all_codes d' key).
  { intros d' H.
    destruct (analyzer_repair _ list_of_set_perm d d' Hnd H)
      as (a' & _ & Hg & _ & Hall).
    destruct (grown_items_get _ _ _ _ _ Hg He) as (e' & He' & _).
    exists e'. split; [assumption|]. now apply (Hall key entry e'). }
  split.
  - intros a d' _ _. apply Hfix.
  - intros a d' _ _. apply Hana.
Qed.

Lemma repair_choice choice d d' key entry lang :
  grown_items choice (strings_of d) (strings_of d') ->
  (forall e', entry_of d' key = Some e' ->
     dict_mem lang (localizations_of e') = true) ->
  entry_of d key = Some entry ->
  In lang (missing_of entry) ->
  exists v,
    choice key lang (localizations_of entry) = Some v
    /\ localization_of d' key lang = Some (translated_unit v).
Proof.
  intros Hg Hall He Hmiss. apply missing_of_spec in Hmiss.
  destruct Hmiss as [Hin Hnone].
  destruct (grown_items_get _ _ _ _ _ Hg He) as (e' & He' & Hgrow).
  specialize (Hall e' He'). unfold dict_mem in Hall.
  destruct (dict_get (localizations_of e') lang) as [y|] eqn:Ey;
    [|discriminate].
  destruct (grown_new _ _ _ _ _ _ Hgrow Hnone Ey) as (_ & v & Hv & ->).
  exists v. split; [assumption|].
  unfold localization_of. unfold entry_of in He'. unfold entry_of.
  now rewrite He'.
Qed.

(** C5, amended.  For a translatable entry and a target code [L] it
    lacks, the interactive repair stores the value of the chain as
    worded (its three-phrase table for [(key, L)]; else the key when [L]
    is ['en']; else the value of the existing ['en'] Localization, or the
    key without one).  The automatic repair stores the value of a longer
    chain: where the worded chain falls back to the existing English
    value, it first looks that value up in the phrase table and uses the
    translation found there. *)
Theorem C5_synthesis_chain d d' key entry lang :
  unique_keys d = true ->
  entry_of d key = Some entry ->
  excluded entry = false ->
  In lang (missing_of entry) ->
  (localization_analyzer.fix_localizations console list_of_set d = Ok d' ->
   exists v,
     spec_choice localization_analyzer.translation_map key lang
       (localizations_of entry) = Some v
     /\ localization_of d' key lang = Some (translated_unit v))
  /\ (localization_fixer.fix_localizations console list_of_set d = Ok d' ->
      exists v,
        fixer_choice localization_fixer.TRANSLATION_MAPPINGS key lang
          (localizations_of entry) = Some v
        /\ localization_of d' key lang = Some (translated_unit v)).
Proof.
  intros Hu He Hex Hmiss. apply nodupb_NoDup in Hu.
  assert (Hin : In lang EXPECTED_LANGUAGES)
    by (now apply missing_of_spec in Hmiss).
  split; intros H.
  - destruct (analyzer_repair _ list_of_set_perm d d' Hu H)
      as (a & _ & Hg & _ & Hall).
    apply (repair_choice _ d d' key entry lang Hg); auto.
    intros e' He'. now apply (Hall key entry e').
  - destruct (fixer_repair _ list_of_set_perm d d' Hu H)
      as (a & _ & Hg & _ & Hall).
    apply (repair_choice _ d d' key entry lang Hg); auto.
    intros e' He'. now apply (Hall key entry e').
Qed.

(** C6.  Every analysis computes the percentage as the complete count
    divided by the total minus the excluded count, times 100, in binary64
    arithmetic, and as zero when that denominator is not positive; a
    catalog whose ['strings'] is empty is analysed without error, with
    total 0, excluded 0 and percentage 0. *)
Theorem C6_completion_percentage d :
  (forall a, localization_analyzer.analyze_completeness list_of_set d = Ok a ->
     total_keys a = Z.of_nat (length (strings_of d))
     /\ should_not_translate a = count_entries excluded (strings_of d)
     /\ complete_keys a = count_entries complete_by_state (strings_of d)
     /\ completion_percentage a
        = if (total_keys a - should_not_translate a >? 0)%Z
          then (PrimFloat.of_uint63 (Uint63.of_Z (complete_keys a))
                / PrimFloat.of_uint63
                    (Uint63.of_Z (total_keys a - should_not_translate a))
                * 100)%float
          else 0%float)
  /\ (forall s p, localization_status.check_localization_status d = Ok (s, p) ->
        localization_status.total_keys s = Z.of_nat (length (strings_of d))
        /\ localization_status.should_not_translate s
           = count_entries excluded (strings_of d)
        /\ localization_status.complete_keys s
           = count_entries complete_by_presence (strings_of d)
        /\ p = if (localization_status.total_keys s
                   - localization_status.should_not_translate s >? 0)%Z
               then JFloat
                      (PrimFloat.of_uint63
                         (Uint63.of_Z (localization_status.complete_keys s))
                       / PrimFloat.of_uint63
                           (Uint63.of_Z
                              (localization_status.total_keys s
                               - localization_status.should_not_translate s))
                       * 100)%float
               else JInt 0)
  /\ (forall m, d = JObj m -> dict_get m "strings" = Some (JObj []) ->
        localization_analyzer.analyze_completeness list_of_set d
        = Ok (mk_analysis 0 0 [] [] 0 0%float)
        /\ localization_status.check_localization_status d
           = Ok (localization_status.mk_status 0 0 0, JInt 0)).
Proof.
  split; [|split].
  - intros a Ha. apply analyzer_reported in Ha.
    destruct Ha as [T X C _ _ P]. repeat split; assumption.
  - intros s p Hs. apply status_reported in Hs.
    destruct Hs as (E1 & E2 & E3 & ->). repeat split; assumption.
  - intros m -> Hm.
    unfold localization_analyzer.analyze_completeness,
      localization_status.check_localization_status.
    simpl. rewrite Hm. split; reflexivity.
Qed.

(** C7.  The normaliser is idempotent: running it on its own output gives
    that output again, so two runs leave the document one run leaves. *)
Theorem C7_normalizer_idempotent d :
  (d1 <- fix_localizations.fix_localizations d ;;
   fix_localizations.fix_localizations d1)
  = fix_localizations.fix_localizations d.
Proof.
  destruct (fix_localizations.fix_localizations d) as [d1|e] eqn:E; simpl.
  - exact (normalizer_idempotent d d1 E).
  - reflexivity.
Qed.

(** C8, amended.  After the normaliser, every Localization a translatable
    entry had is still there under its code; if it has a ['stringUnit']
    its state is ['translated'], and if it has none it is unchanged (so
    without a state). *)
Theorem C8_states_coerced_where_string_unit d d' key entry lang loc :
  fix_localizations.fix_localizations d = Ok d' ->
  entry_of d key = Some entry ->
  excluded entry = false ->
  dict_get (localizations_of entry) lang = Some loc ->
  exists loc',
    localization_of d' key lang = Some loc'
    /\ match string_unit_of loc with
       | Some _ => state_of loc' = Some (JStr "translated")
       | None => loc' = loc
       end.
Proof.
  intros H He Hex Hloc. apply normalizer_entries in H.
  destruct (Forall2_dict_get
              (fun k e e' => fix_localizations.fix_entry k e = Ok e')
              _ _ key entry H He) as (e' & He' & Hfix).
  unfold localization_of, entry_of. rewrite He'.
  destruct (fix_entry_spec _ _ _ Hfix)
    as [[-> [Hc|Hc]]|(_ & f & locs & items' & -> & Hf & Hup & ->)].
  - congruence.
  - exfalso. destruct entry as [| | | | | |f]; try discriminate.
    simpl in Hc, Hloc. unfold dict_mem in Hc.
    destruct (dict_get f "localizations"); discriminate.
  - unfold localizations_of in Hloc. rewrite Hf in Hloc.
    assert (Hwe : dict_get (with_english key locs) lang = Some loc).
    { unfold with_english.
      destruct (negb (dict_mem "en" locs) && _)%bool eqn:E; [|assumption].
      rewrite dict_get_set_other; [assumption|].
      intros ->. apply andb_true_iff in E. destruct E as [E _].
      unfold dict_mem in E. rewrite Hloc in E. discriminate. }
    apply update_items_Forall2 in Hup.
    destruct (Forall2_dict_get
                (fun _ l l' => fix_localizations.coerce_state l = Ok l')
                _ _ lang loc Hup Hwe) as (loc' & Hloc' & Hc).
    exists loc'. split.
    + unfold localizations_of. now rewrite dict_get_set_same.
    + now apply coerce_state_translated.
Qed.

Lemma excluded_not_listed strict d a key entry :
  NoDup (dict_keys (strings_of d)) ->
  reported list_of_set strict d a ->
  entry_of d key = Some entry ->
  excluded entry = true ->
  ~ In key (incomplete_keys a)
  /\ (total_keys a - should_not_translate a
      = count_entries (fun e => negb (excluded e)) (strings_of d))%Z.
Proof.
  intros Hu Hrep He Hex. split.
  - rewrite (incomplete_keys_entry _ strict d a key Hu Hrep).
    intros (e & He' & Hi). rewrite He in He'. inversion He'; subst e.
    apply (verdict_excluded strict) in Hex. rewrite Hex in Hi. discriminate.
  - rewrite (rep_total _ _ _ _ Hrep), (rep_excluded _ _ _ _ Hrep).
    apply count_entries_split.
Qed.

(** C9.  An entry whose [shouldTranslate] equals [False] comes out of
    repair (either script) and out of the normaliser as it went in, is
    never listed in [incomplete_keys], and the denominator of the
    percentage, total minus excluded, counts the other entries only. *)
Theorem C9_excluded_entries_untouched d key entry :
  unique_keys d = true ->
  entry_of d key = Some entry ->
  excluded entry = true ->
  (forall d', repairs console list_of_set d d' -> entry_of d' key = Some entry)
  /\ (forall d', fix_localizations.fix_localizations d = Ok d' ->
        entry_of d' key = Some entry)
  /\ (forall a, localization_analyzer.analyze_completeness list_of_set d = Ok a ->
        ~ In key (incomplete_keys a)
        /\ (total_keys a - should_not_translate a
            = count_entries (fun e => negb (excluded e)) (strings_of d))%Z)
  /\ (forall a, localization_fixer.analyze_completeness list_of_set d = Ok a ->
        ~ In key (incomplete_keys a)
        /\ (total_keys a - should_not_translate a
            = count_entries (fun e => negb (excluded e)) (strings_of d))%Z)
  /\ (forall s p, localization_status.check_localization_status d = Ok (s, p) ->
        (localization_status.total_keys s
         - localization_status.should_not_translate s
         = count_entries (fun e => negb (excluded e)) (strings_of d))%Z).
Proof.
  intros Hu He Hex. apply nodupb_NoDup in Hu.
  split; [|split; [|split; [|split]]].
  - intros d' Hrep.
    assert (Hg : exists choice,
               grown_items choice (strings_of d) (strings_of d')).
    { destruct Hrep as [H|H].
      - destruct (fixer_repair _ list_of_set_perm d d' Hu H)
          as (a & _ & Hg & _).
        eauto.
      - destruct (analyzer_repair _ list_of_set_perm d d' Hu H)
          as (a & _ & Hg & _).
        eauto. }
    destruct Hg as [choice Hg].
    destruct (grown_items_get _ _ _ _ _ Hg He) as (e' & He' & Hgrow).
    unfold entry_of. rewrite He'. f_equal.
    now apply grown_excluded with (choice := choice) (key := key).
  - intros d' H. apply normalizer_entries in H.
    destruct (Forall2_dict_get
                (fun k e e' => fix_localizations.fix_entry k e = Ok e')
                _ _ key entry H He) as (e' & He' & Hfix).
    unfold entry_of. rewrite He'. f_equal.
    destruct (fix_entry_spec _ _ _ Hfix) as [[-> _]|[Hne _]];
      [reflexivity|congruence].
  - intros a Ha. apply analyzer_reported in Ha.
    now apply (excluded_not_listed true d a key entry).
  - intros a Ha. apply fixer_reported in Ha.
    now apply (excluded_not_listed false d a key entry).
  - intros s p Hs. apply status_reported in Hs.
    destruct Hs as (E1 & E2 & _). rewrite E1, E2. apply count_entries_split.
Qed.

(** C10.  In the interactive script, an entry with no target code
    missing but some Localization not ['translated'] is listed as
    incomplete with no missing code recorded; repair returns it as it was,
    and an analysis of the repaired catalog lists it again. *)
Theorem C10_state_only_entries_skipped d d' key entry :
  unique_keys d = true ->
  entry_of d key = Some entry ->
  excluded entry = false ->
  missing_of entry = [] ->
  all_states_translated entry = false ->
  localization_analyzer.fix_localizations console list_of_set d = Ok d' ->
  (exists a,
      localization_analyzer.analyze_completeness list_of_set d = Ok a
      /\ In key (incomplete_keys a)
      /\ dict_get (missing_languages a) key = None)
  /\ entry_of d' key = Some entry
  /\ (forall a',
        localization_analyzer.analyze_completeness list_of_set d' = Ok a' ->
        In key (incomplete_keys a')).
Proof.
  intros Hu He Hex Hm Hs H. apply nodupb_NoDup in Hu.
  assert (Hv : verdict_of true entry = Untranslated)
    by (unfold verdict_of; now rewrite Hex, Hm, Hs).
  destruct (analyzer_repair _ list_of_set_perm d d' Hu H)
    as (a & Ha & Hg & Hidle & _).
  pose proof (analyzer_reported _ _ _ Ha) as Hrep.
  assert (Hnone : dict_get (missing_languages a) key = None)
    by (rewrite (rep_missing _ _ _ _ Hrep key entry Hu He), Hv; reflexivity).
  assert (He' : entry_of d' key = Some entry).
  { rewrite Hidle; [assumption|]. unfold idle. now rewrite Hnone. }
  split; [|split; [assumption|]].
  - exists a. split; [assumption|]. split; [|assumption].
    apply (incomplete_keys_entry _ true d a key Hu Hrep).
    exists entry. rewrite Hv. auto.
  - intros a' Ha'. apply analyzer_reported in Ha'.
    assert (Hu' : NoDup (dict_keys (strings_of d')))
      by (rewrite (grown_items_keys _ _ _ Hg); assumption).
    apply (incomplete_keys_entry _ true d' a' key Hu' Ha').
    exists entry. rewrite Hv. auto.
Qed.

End Claims.

(** * The claims on sample catalogs *)

Lemma source_order_perm : forall s, Permutation (source_order s) s.
Proof. intros s. apply Permutation_refl. Qed.

(** The interactive repair fails on the freshly extracted entry. *)
Lemma C1_witness :
  localization_analyzer.fix_localizations utf8_console source_order bare_catalog
  = Raise KeyError.
Proof.
  exact (proj1 (proj2 (C1_analyzer_repair_raises_on_bare_entry utf8_console
                         source_order source_order_perm))).
Defined.

(** C2 as worded fails on the automatic fixer and the status script: with
    the ten codes present and the French one in state ['needs_review'],
    both count the entry complete and the fixer does not list it. *)
Lemma C2_presence_only_analyses_ignore_state :
  entry_of review_catalog "Save" = Some review_entry
  /\ excluded review_entry = false
  /\ missing_of review_entry = []
  /\ all_states_translated review_entry = false
  /\ localization_fixer.analyze_completeness source_order review_catalog
     = Ok (mk_analysis 2 1 ["Open"]
             [("Open", ["ar"; "de"; "es"; "fr"; "hi"; "ja"; "ko"; "pt";
                        "zh-Hans"])]
             0 50%float)
  /\ localization_status.check_localization_status review_catalog
     = Ok (localization_status.mk_status 2 0 1, JFloat 50%float).
Proof. repeat split; vm_compute; reflexivity. Qed.

Lemma C2_witness :
  match localization_analyzer.analyze_completeness source_order
          review_catalog with
  | Ok a => In "Save" (incomplete_keys a)
  | Raise _ => False
  end
  /\ match localization_fixer.analyze_completeness source_order
             review_catalog with
     | Ok a => ~ In "Save" (incomplete_keys a)
     | Raise _ => False
     end.
Proof.
  pose proof (C2_state_rule_only_in_analyzer source_order review_catalog
                "Save" review_entry eq_refl eq_refl eq_refl eq_refl)
    as (Hstrict & Hloose & _).
  split.
  - destruct (localization_analyzer.analyze_completeness source_order
                review_catalog) as [a|e] eqn:E.
    + apply (proj1 (Hstrict a eq_refl)). reflexivity.
    + vm_compute in E. discriminate E.
  - destruct (localization_fixer.analyze_completeness source_order
                review_catalog) as [a|e] eqn:E.
    + exact (proj1 (Hloose a eq_refl)).
    + vm_compute in E. discriminate E.
Defined.

Lemma C3_witness :
  localization_after
    (localization_fixer.fix_localizations utf8_console source_order save_catalog)
    "Save" "en"
  = Some (string_unit "translated" "Save")
  /\ localization_after
       (localization_analyzer.fix_localizations utf8_console source_order save_catalog)
       "Save" "en"
     = Some (string_unit "translated" "Save").
Proof.
  split.
  - destruct (localization_fixer.fix_localizations utf8_console source_order save_catalog)
      as [d'|e] eqn:E.
    + apply (proj1 (C3_repair_keeps_localizations source_order
                      source_order_perm utf8_console save_catalog d' eq_refl
                      (or_introl E))).
      reflexivity.
    + vm_compute in E. discriminate E.
  - destruct (localization_analyzer.fix_localizations utf8_console source_order
                save_catalog) as [d'|e] eqn:E.
    + apply (proj1 (C3_repair_keeps_localizations source_order
                      source_order_perm utf8_console save_catalog d' eq_refl
                      (or_intror E))).
      reflexivity.
    + vm_compute in E. discriminate E.
Defined.

(** The automatic repair fills the entry that has no ['localizations']
    mapping; the interactive one fills an entry that has one. *)
Lemma C4_witness :
  (exists d',
      localization_fixer.fix_localizations utf8_console source_order
        bare_catalog = Ok d'
      /\ has_all_codes d' "Save")
  /\ (exists d',
        localization_analyzer.fix_localizations utf8_console source_order
          save_catalog = Ok d'
        /\ has_all_codes d' "Save").
Proof.
  split.
  - destruct (localization_fixer.fix_localizations utf8_console source_order
                bare_catalog) as [d'|e] eqn:E.
    + exists d'. split; [reflexivity|].
      exact (proj1 (C4_repair_fills_target_codes source_order
                      source_order_perm utf8_console bare_catalog "Save"
                      (JObj []) eq_refl eq_refl eq_refl)
               _ d' eq_refl (or_introl eq_refl) E).
    + vm_compute in E. discriminate E.
  - destruct (localization_analyzer.fix_localizations utf8_console
                source_order save_catalog) as [d'|e] eqn:E.
    + exists d'. split; [reflexivity|].
      exact (proj2 (C4_repair_fills_target_codes source_order
                      source_order_perm utf8_console save_catalog "Save"
                      (JObj [("localizations",
                              JObj [("en", string_unit "translated" "Save")])])
                      eq_refl eq_refl eq_refl)
               _ d' eq_refl (or_introl eq_refl) E).
    + vm_compute in E. discriminate E.
Defined.

(** C5 as worded fails on the automatic fixer: for the key ['doc.title']
    with English value ['Documentation'] and German missing, the worded
    chain gives the English value, the fixer stores its German
    translation from the phrase table. *)
Lemma C5_fixer_translates_the_english_value :
  lookup_phrase localization_fixer.TRANSLATION_MAPPINGS "doc.title" "de" = None
  /\ spec_choice localization_fixer.TRANSLATION_MAPPINGS "doc.title" "de"
       [("en", string_unit "translated" "Documentation")]
     = Some (JStr "Documentation")
  /\ localization_after
       (localization_fixer.fix_localizations utf8_console source_order doc_title_catalog)
       "doc.title" "de"
     = Some (translated_unit (JStr "Dokumentation")).
Proof. repeat split; vm_compute; reflexivity. Qed.

Lemma C5_witness :
  localization_after
    (localization_analyzer.fix_localizations utf8_console source_order doc_title_catalog)
    "doc.title" "de"
  = Some (translated_unit (JStr "Documentation"))
  /\ localization_after
       (localization_fixer.fix_localizations utf8_console source_order doc_title_catalog)
       "doc.title" "de"
     = Some (translated_unit (JStr "Dokumentation")).
Proof.
  pose proof (fun d' =>
                C5_synthesis_chain source_order source_order_perm
                  utf8_console doc_title_catalog d' "doc.title"
                  (JObj [("localizations",
                          JObj [("en", string_unit "translated"
                                         "Documentation")])])
                  "de" eq_refl eq_refl eq_refl
                  (or_intror (or_introl eq_refl))) as H.
  split.
  - destruct (localization_analyzer.fix_localizations utf8_console source_order
                doc_title_catalog) as [d'|e] eqn:E.
    + destruct (proj1 (H d') eq_refl) as (v & Hv & Hl).
      vm_compute in Hv. injection Hv as <-. exact Hl.
    + vm_compute in E. discriminate E.
  - destruct (localization_fixer.fix_localizations utf8_console source_order
                doc_title_catalog) as [d'|e] eqn:E.
    + destruct (proj2 (H d') eq_refl) as (v & Hv & Hl).
      vm_compute in Hv. injection Hv as <-. exact Hl.
    + vm_compute in E. discriminate E.
Defined.

Lemma C6_witness :
  match localization_analyzer.analyze_completeness source_order
          thirds_catalog with
  | Ok a => completion_percentage a = 0x1.0aaaaaaaaaaaap+5%float
  | Raise _ => False
  end
  /\ match localization_status.check_localization_status thirds_catalog with
     | Ok (s, p) => p = JFloat 0x1.0aaaaaaaaaaaap+5%float
     | Raise _ => False
     end
  /\ localization_analyzer.analyze_completeness source_order (catalog [])
     = Ok (mk_analysis 0 0 [] [] 0 0%float)
  /\ localization_status.check_localization_status (catalog [])
     = Ok (localization_status.mk_status 0 0 0, JInt 0).
Proof.
  split; [|split].
  - destruct (localization_analyzer.analyze_completeness source_order
                thirds_catalog) as [a|e] eqn:E.
    + destruct (proj1 (C6_completion_percentage source_order thirds_catalog)
                  a E) as (T & X & C & P).
      rewrite P, C, T, X. vm_compute. reflexivity.
    + vm_compute in E. discriminate E.
  - destruct (localization_status.check_localization_status thirds_catalog)
      as [[s p]|e] eqn:E.
    + destruct (proj1 (proj2 (C6_completion_percentage source_order
                                thirds_catalog)) s p E) as (T & X & C & P).
      rewrite P, C, T, X. vm_compute. reflexivity.
    + vm_compute in E. discriminate E.
  - exact (proj2 (proj2 (C6_completion_percentage source_order (catalog [])))
             _ eq_refl eq_refl).
Defined.

(** C8 as worded fails on a Localization without a ['stringUnit']: the
    normaliser returns it as it was, with no state. *)
Lemma C8_localization_without_string_unit_keeps_no_state :
  localization_of variations_catalog "%lld items" "fr" = Some plural_variations
  /\ state_of plural_variations = None
  /\ localization_after (fix_localizations.fix_localizations variations_catalog)
       "%lld items" "fr"
     = Some plural_variations.
Proof. repeat split; vm_compute; reflexivity. Qed.

Lemma C8_witness :
  exists loc',
    localization_after (fix_localizations.fix_localizations variations_catalog)
      "%lld items" "de" = Some loc'
    /\ state_of loc' = Some (JStr "translated").
Proof.
  destruct (fix_localizations.fix_localizations variations_catalog)
    as [d'|e] eqn:E.
  - destruct (C8_states_coerced_where_string_unit variations_catalog d'
                "%lld items"
                (JObj [("localizations",
                        JObj [("fr", plural_variations);
                              ("de", string_unit "new" "%lld Objekte")])])
                "de" (string_unit "new" "%lld Objekte")
                E eq_refl eq_refl eq_refl) as (loc' & Hl & Hs).
    exists loc'. split; [exact Hl|exact Hs].
  - vm_compute in E. discriminate E.
Defined.

Lemma C9_witness :
  entry_after
    (localization_fixer.fix_localizations utf8_console source_order excluded_catalog) "v1.0"
  = Some version_entry
  /\ entry_after
       (localization_analyzer.fix_localizations utf8_console source_order excluded_catalog)
       "v1.0"
     = Some version_entry
  /\ entry_after (fix_localizations.fix_localizations excluded_catalog) "v1.0"
     = Some version_entry.
Proof.
  pose proof (C9_excluded_entries_untouched source_order source_order_perm
                utf8_console excluded_catalog "v1.0" version_entry eq_refl
                eq_refl eq_refl)
    as (Hrep & Hnorm & _).
  split; [|split].
  - destruct (localization_fixer.fix_localizations utf8_console source_order
                excluded_catalog) as [d'|e] eqn:E.
    + exact (Hrep d' (or_introl E)).
    + vm_compute in E. discriminate E.
  - destruct (localization_analyzer.fix_localizations utf8_console source_order
                excluded_catalog) as [d'|e] eqn:E.
    + exact (Hrep d' (or_intror E)).
    + vm_compute in E. discriminate E.
  - destruct (fix_localizations.fix_localizations excluded_catalog)
      as [d'|e] eqn:E.
    + exact (Hnorm d' eq_refl).
    + vm_compute in E. discriminate E.
Defined.

Lemma C10_witness :
  entry_after
    (localization_analyzer.fix_localizations utf8_console source_order review_catalog)
    "Save"
  = Some review_entry.
Proof.
  destruct (localization_analyzer.fix_localizations utf8_console source_order
              review_catalog) as [d'|e] eqn:E.
  - exact (proj1 (proj2 (C10_state_only_entries_skipped source_order
                           source_order_perm utf8_console review_catalog d'
                           "Save"
                           review_entry eq_refl eq_refl eq_refl eq_refl
                           eq_refl E))).
  - vm_compute in E. discriminate E.
Defined.

(** ** The scenarios of the specification *)

(** ['Save'] with English only: the missing French falls back to the
    English value. *)
Example save_french_falls_back :
  localization_after
    (localization_fixer.fix_localizations utf8_console source_order save_catalog)
    "Save" "fr"
  = Some (translated_unit (JStr "Save")).
Proof. vm_compute. reflexivity. Qed.

(** ['Documentation'] with no localizations: German comes from the phrase
    table. *)
Example documentation_german_from_table :
  localization_after
    (localization_fixer.fix_localizations utf8_console source_order
       (catalog [("Documentation", JObj [("localizations", JObj [])])]))
    "Documentation" "de"
  = Some (translated_unit (JStr "Dokumentation")).
Proof. vm_compute. reflexivity. Qed.

(** Both repairs read [existing_localizations['en']['stringUnit']['value']]
    unguarded: an English Localization that holds plural variations makes
    them raise as soon as another code is missing. *)
Example repair_raises_on_english_variations :
  localization_fixer.fix_localizations utf8_console source_order
    (catalog [("%lld items",
               JObj [("localizations", JObj [("en", plural_variations)])])])
  = Raise KeyError
  /\ localization_analyzer.fix_localizations utf8_console source_order
       (catalog [("%lld items",
                  JObj [("localizations", JObj [("en", plural_variations)])])])
     = Raise KeyError.
Proof. split; vm_compute; reflexivity. Qed.

(** An excluded entry without localizations is counted apart and not
    listed. *)
Example excluded_entry_counted_apart :
  localization_fixer.analyze_completeness source_order
    (catalog [("v1.0", JObj [("shouldTranslate", JBool false)])])
  = Ok (mk_analysis 1 0 [] [] 1 0%float).
Proof. vm_compute. reflexivity. Qed.

(** * Further properties of the scripts *)

(** ** The reports *)

Lemma verdict_incomplete strict e :
  is_incomplete (verdict_of strict e) = incomplete_under strict e.
Proof.
  unfold incomplete_under. rewrite verdict_complete.
  unfold verdict_of. destruct (excluded e); [reflexivity|].
  destruct (missing_of e); [|reflexivity].
  destruct (strict && negb (all_states_translated e)); reflexivity.
Qed.

Lemma verdicts_partition strict s :
  Z.of_nat (length s)
  = (count_entries excluded s + count_entries (complete_under strict) s
     + Z.of_nat (length (filter (fun kv => incomplete_under strict (snd kv)) s)))%Z.
Proof.
  unfold count_entries. induction s as [|[k e] s IH]; [reflexivity|].
  cbn [filter snd length]. unfold incomplete_under at 1.
  rewrite verdict_complete. unfold verdict_of.
  destruct (excluded e); cbn [negb andb length]; [lia|].
  destruct (missing_of e); cbn [negb andb length]; [|lia].
  destruct (strict && negb (all_states_translated e)); cbn [negb length]; lia.
Qed.

Lemma reported_incomplete list_of_set strict d a :
  reported list_of_set strict d a ->
  incomplete_keys a
  = map fst (filter (fun kv => incomplete_under strict (snd kv)) (strings_of d)).
Proof.
  intros Hrep. rewrite (rep_incomplete _ _ _ _ Hrep). f_equal.
  apply filter_ext. intros [k e]. apply verdict_incomplete.
Qed.

(** X1.  In a report of either analysis every key is counted once: the
    total is the excluded count plus the complete count plus the number
    of keys listed as incomplete. *)
Theorem X1_report_counts_every_key_once list_of_set d a :
  localization_analyzer.analyze_completeness list_of_set d = Ok a
  \/ localization_fixer.analyze_completeness list_of_set d = Ok a ->
  total_keys a
  = (should_not_translate a + complete_keys a
     + Z.of_nat (length (incomplete_keys a)))%Z.
Proof.
  intros [H|H].
  - apply analyzer_reported in H.
    rewrite (rep_total _ _ _ _ H), (rep_excluded _ _ _ _ H),
      (rep_complete _ _ _ _ H), (reported_incomplete _ _ _ _ H), length_map.
    apply verdicts_partition.
  - apply fixer_reported in H.
    rewrite (rep_total _ _ _ _ H), (rep_excluded _ _ _ _ H),
      (rep_complete _ _ _ _ H), (reported_incomplete _ _ _ _ H), length_map.
    apply verdicts_partition.
Qed.

(** X2.  [incomplete_keys] lists, in the order of the catalog, the keys
    of the translatable entries that are not complete: for the interactive
    analysis complete by presence and state, for the automatic one complete
    by presence. *)
Theorem X2_incomplete_keys_in_catalog_order list_of_set d a :
  (localization_analyzer.analyze_completeness list_of_set d = Ok a ->
   incomplete_keys a
   = map fst (filter (fun kv => negb (excluded (snd kv))
                                && negb (complete_by_state (snd kv)))
                (strings_of d)))
  /\ (localization_fixer.analyze_completeness list_of_set d = Ok a ->
      incomplete_keys a
      = map fst (filter (fun kv => negb (excluded (snd kv))
                                   && negb (complete_by_presence (snd kv)))
                   (strings_of d))).
Proof.
  split; intros H.
  - apply analyzer_reported in H. exact (reported_incomplete _ _ _ _ H).
  - apply fixer_reported in H. exact (reported_incomplete _ _ _ _ H).
Qed.

Lemma expected_languages_NoDup : NoDup EXPECTED_LANGUAGES.
Proof. apply nodupb_NoDup. reflexivity. Qed.

Lemma missing_of_NoDup entry : NoDup (missing_of entry).
Proof.
  unfold missing_of, set_diff. apply NoDup_filter, expected_languages_NoDup.
Qed.

(** X3.  What [missing_languages] records for a key of the catalog: for a
    translatable entry that lacks some target code, a list without
    repetition of exactly the target codes the entry lacks; for any other
    entry, nothing. *)
Theorem X3_missing_languages_are_the_absent_codes
  (list_of_set : list string -> list string) d a key entry :
  (forall s, Permutation (list_of_set s) s) ->
  unique_keys d = true ->
  localization_analyzer.analyze_completeness list_of_set d = Ok a
  \/ localization_fixer.analyze_completeness list_of_set d = Ok a ->
  entry_of d key = Some entry ->
  match dict_get (missing_languages a) key with
  | Some codes =>
      excluded entry = false
      /\ codes <> []
      /\ NoDup codes
      /\ forall lang,
           In lang codes
           <-> In lang EXPECTED_LANGUAGES
               /\ dict_get (localizations_of entry) lang = None
  | None => excluded entry = true \/ missing_of entry = []
  end.
Proof.
  intros Hperm Hu Ha He. apply nodupb_NoDup in Hu.
  assert (Hm : exists strict,
             dict_get (missing_languages a) key
             = match verdict_of strict entry with
               | Missing codes => Some (list_of_set codes)
               | _ => None
               end).
  { destruct Ha as [H|H].
    - exists true. apply analyzer_reported in H.
      exact (rep_missing _ _ _ _ H key entry Hu He).
    - exists false. apply fixer_reported in H.
      exact (rep_missing _ _ _ _ H key entry Hu He). }
  destruct Hm as [strict ->]. unfold verdict_of.
  destruct (excluded entry); [now left|].
  destruct (missing_of entry) as [|c cs] eqn:Em.
  - destruct (strict && negb (all_states_translated entry)); now right.
  - rewrite <- Em. split; [reflexivity|]. split; [|split].
    + intros E. pose proof (Hperm (missing_of entry)) as Hp.
      rewrite E in Hp. apply Permutation_nil in Hp. congruence.
    + eapply Permutation_NoDup;
        [apply Permutation_sym, Hperm|apply missing_of_NoDup].
    + intros lang. rewrite <- missing_of_spec. split; intros H.
      * eapply Permutation_in; [apply Hperm|exact H].
      * eapply Permutation_in; [apply Permutation_sym, Hperm|exact H].
Qed.

Lemma dict_keys_set_new {V} (m : list (string * V)) k v :
  ~ In k (dict_keys m) -> dict_keys (dict_set m k v) = dict_keys m ++ [k].
Proof.
  induction m as [|[k1 v1] m IH]; simpl; intros H; [reflexivity|].
  destruct (String.eqb_spec k k1) as [->|Hne]; [tauto|].
  simpl. rewrite IH by tauto. reflexivity.
Qed.

Lemma fold_missing_keys list_of_set items :
  forall a0,
    NoDup (dict_keys items) ->
    (forall k, In k (dict_keys items) -> ~ In k (dict_keys (missing_languages a0))) ->
    dict_keys (missing_languages
                 (fold_left (apply_verdict list_of_set)
                    (verdicts false items) a0))
    = dict_keys (missing_languages a0)
      ++ map fst (filter (fun kv => is_incomplete (verdict_of false (snd kv)))
                    items).
Proof.
  induction items as [|[k e] items IH]; intros a0 Hnd Hfresh.
  - simpl. now rewrite app_nil_r.
  - inversion Hnd as [|? ? Hnot Hnd']; subst.
    cbn [verdicts map fold_left filter fst snd].
    rewrite IH; [|assumption|].
    + unfold apply_verdict. cbn [fst snd].
      assert (Hv : verdict_of false e <> Untranslated).
      { unfold verdict_of. destruct (excluded e); [discriminate|].
        destruct (missing_of e); discriminate. }
      destruct (verdict_of false e) eqn:Ev; cbn [is_incomplete];
        try reflexivity; [|congruence].
      cbn [record_missing add_incomplete missing_languages map fst].
      rewrite dict_keys_set_new by (apply Hfresh; now left).
      now rewrite <- app_assoc.
    + intros k' Hk'. unfold apply_verdict. cbn [fst snd].
      destruct (verdict_of false e);
        cbn [count_excluded count_complete add_incomplete record_missing
             missing_languages];
        try (apply Hfresh; now right).
      rewrite dict_keys_set_In. intros [->|H]; [contradiction|].
      revert H. apply Hfresh. now right.
Qed.

(** X4.  In the report of the automatic analysis a key is listed as
    incomplete exactly when missing codes are recorded for it:
    [missing_languages] has the keys of [incomplete_keys], in the same
    order. *)
Theorem X4_fixer_records_missing_codes_for_each_incomplete_key
  list_of_set d a :
  unique_keys d = true ->
  localization_fixer.analyze_completeness list_of_set d = Ok a ->
  dict_keys (missing_languages a) = incomplete_keys a.
Proof.
  intros Hu Ha. apply nodupb_NoDup in Hu.
  pose proof (fixer_reported _ _ _ Ha) as Hrep.
  rewrite (rep_incomplete _ _ _ _ Hrep).
  unfold localization_fixer.analyze_completeness in Ha.
  inv_bind Ha as strings Hs. inv_bind Ha as total Ht.
  inv_bind Ha as items Hi. inv_bind Ha as a1 Hloop.
  inversion Ha; subst a. clear Ha.
  apply (for_items_verdicts list_of_set false) in Hloop;
    [|apply fixer_entry_verdict].
  destruct (finish_fields a1) as (_ & _ & _ & -> & _). subst a1.
  assert (Es : strings_of d = items).
  { destruct d as [| | | | | |m]; try discriminate.
    destruct strings as [| | | | | |x]; try discriminate.
    inversion Hi; subst x. unfold strings_of. simpl in Hs.
    destruct (dict_get m "strings"); inversion Hs; reflexivity. }
  rewrite Es in *.
  rewrite fold_missing_keys; [reflexivity|assumption|].
  intros k _ [].
Qed.

(** ** When the presence-only analysis raises *)

Lemma fixer_entry_domain list_of_set a key e :
  match localization_fixer.analyze_entry list_of_set a key e with
  | Ok _ => readable_entry e = true
  | Raise err => readable_entry e = false /\ err = AttributeError
  end.
Proof.
  unfold localization_fixer.analyze_entry, readable_entry, excluded.
  destruct e as [| | | | | |f]; cbn [py_get bind]; auto.
  destruct (dict_get f "shouldTranslate") as [v|]; cbn [orb].
  - destruct (py_eq_False v); cbn [orb]; [reflexivity|].
    destruct (dict_get f "localizations") as [[| | | | | |l]|];
      cbn [py_keys bind]; auto;
      destruct (set_diff EXPECTED_LANGUAGES _); reflexivity.
  - change (py_eq_False JNull) with false. cbn [orb].
    destruct (dict_get f "localizations") as [[| | | | | |l]|];
      cbn [py_keys bind]; auto;
      destruct (set_diff EXPECTED_LANGUAGES _); reflexivity.
Qed.

Lemma fixer_loop_domain list_of_set items :
  forall a0,
    match for_items (localization_fixer.analyze_entry list_of_set) items a0 with
    | Ok _ => forallb (fun kv => readable_entry (snd kv)) items = true
    | Raise err =>
        forallb (fun kv => readable_entry (snd kv)) items = false
        /\ err = AttributeError
    end.
Proof.
  induction items as [|[k e] items IH]; intros a0; [reflexivity|].
  cbn [for_items forallb snd].
  pose proof (fixer_entry_domain list_of_set a0 k e) as He.
  destruct (localization_fixer.analyze_entry list_of_set a0 k e) as [a1|err];
    cbn [bind].
  - rewrite He. cbn [andb]. apply IH.
  - destruct He as [-> ->]. auto.
Qed.


(** ** The status script against the automatic analysis *)

Lemma status_entry_simulates list_of_set a key e :
  localization_status.check_entry (status_of a) key e
  = match localization_fixer.analyze_entry list_of_set a key e with
    | Ok a' => Ok (status_of a')
    | Raise err => Raise err
    end.
Proof.
  unfold localization_status.check_entry, localization_fixer.analyze_entry.
  destruct (py_get e "shouldTranslate" JNull) as [v|err]; cbn [bind];
    [|reflexivity].
  destruct (py_eq_False v); [reflexivity|].
  destruct (py_get e "localizations" (JObj [])) as [locs|err]; cbn [bind];
    [|reflexivity].
  destruct (py_keys locs) as [ks|err]; cbn [bind]; [|reflexivity].
  rewrite set_issubset_diff.
  destruct (set_diff EXPECTED_LANGUAGES ks); reflexivity.
Qed.

Lemma status_loop_simulates list_of_set items :
  forall a,
    for_items localization_status.check_entry items (status_of a)
    = match for_items (localization_fixer.analyze_entry list_of_set) items a with
      | Ok a' => Ok (status_of a')
      | Raise err => Raise err
      end.
Proof.
  induction items as [|[k e] items IH]; intros a; [reflexivity|].
  cbn [for_items]. rewrite (status_entry_simulates list_of_set).
  destruct (localization_fixer.analyze_entry list_of_set a k e) as [a1|err];
    cbn [bind]; [apply IH|reflexivity].
Qed.

Lemma status_of_finish a : status_of (finish_analysis a) = status_of a.
Proof.
  unfold status_of. destruct (finish_fields a) as (-> & -> & _ & _ & ->).
  reflexivity.
Qed.

(** X6.  The status script is the automatic analysis seen through its
    three counters: on every document it raises what that analysis raises,
    and otherwise returns the same total, excluded and complete counts,
    with the percentage computed from them. *)
Theorem X6_status_script_agrees_with_fixer_analysis list_of_set d :
  localization_status.check_localization_status d
  = (a <- localization_fixer.analyze_completeness list_of_set d ;;
     Ok (status_of a,
         localization_status.completion_percentage (status_of a))).
Proof.
  unfold localization_status.check_localization_status,
    localization_fixer.analyze_completeness.
  destruct (py_get d "strings" (JObj [])) as [strings|err]; cbn [bind];
    [|reflexivity].
  destruct (py_len strings) as [total|err]; cbn [bind]; [|reflexivity].
  destruct (py_items strings) as [items|err]; cbn [bind]; [|reflexivity].
  change (localization_status.mk_status total 0 0)
    with (status_of (initial_analysis total)).
  rewrite (status_loop_simulates list_of_set).
  destruct (for_items _ items _) as [a|err]; cbn [bind]; [|reflexivity].
  now rewrite status_of_finish.
Qed.

(** ** The two analyses against each other *)

Lemma fold_missing_same list_of_set items :
  forall a0 b0,
    missing_languages a0 = missing_languages b0 ->
    missing_languages
      (fold_left (apply_verdict list_of_set) (verdicts true items) a0)
    = missing_languages
        (fold_left (apply_verdict list_of_set) (verdicts false items) b0).
Proof.
  induction items as [|[k e] items IH]; intros a0 b0 E; [exact E|].
  cbn [verdicts map fold_left fst snd]. apply IH.
  unfold apply_verdict, verdict_of. cbn [fst snd].
  destruct (excluded e); [exact E|].
  destruct (missing_of e); cbn [andb].
  - destruct (negb (all_states_translated e)); exact E.
  - cbn [record_missing add_incomplete missing_languages]. now rewrite E.
Qed.

Lemma count_entries_le (p q : json -> bool) s :
  (forall e, p e = true -> q e = true) ->
  (count_entries p s <= count_entries q s)%Z.
Proof.
  intros Hpq. unfold count_entries.
  induction s as [|[k e] s IH]; [reflexivity|].
  cbn [filter snd]. specialize (Hpq e).
  destruct (p e), (q e); cbn [length]; try lia;
    discriminate (Hpq eq_refl).
Qed.

(** X7.  Whenever the interactive analysis returns, the automatic one
    returns too, with the same total, the same excluded count and the same
    missing codes recorded; it counts at least as many keys complete, and
    every key it lists as incomplete the interactive one lists too. *)
Theorem X7_analyzer_is_the_stricter_analysis list_of_set d a :
  localization_analyzer.analyze_completeness list_of_set d = Ok a ->
  exists a',
    localization_fixer.analyze_completeness list_of_set d = Ok a'
    /\ total_keys a' = total_keys a
    /\ should_not_translate a' = should_not_translate a
    /\ missing_languages a' = missing_languages a
    /\ (complete_keys a <= complete_keys a')%Z
    /\ incl (incomplete_keys a') (incomplete_keys a).
Proof.
  intros Ha.
  assert (Hf : exists a',
             localization_fixer.analyze_completeness list_of_set d = Ok a'
             /\ missing_languages a' = missing_languages a).
  { unfold localization_analyzer.analyze_completeness in Ha.
    unfold localization_fixer.analyze_completeness.
    inv_bind Ha as strings Hs. inv_bind Ha as total Ht.
    inv_bind Ha as items Hi. inv_bind Ha as a1 Hloop.
    inversion Ha; subst a. clear Ha.
    rewrite Hs. cbn [bind]. rewrite Ht. cbn [bind]. rewrite Hi. cbn [bind].
    assert (Hall : forall a0,
              exists b, for_items (localization_fixer.analyze_entry list_of_set)
                          items a0 = Ok b).
    { clear Hi. revert a1 Hloop. generalize (initial_analysis total).
      induction items as [|[k e] items IH]; intros a0 a1 Hloop b0;
        [now exists b0|].
      cbn [for_items] in *. inv_bind Hloop as a2 Ha2.
      assert (He : exists b1,
                localization_fixer.analyze_entry list_of_set b0 k e = Ok b1).
      { unfold localization_analyzer.analyze_entry in Ha2.
        unfold localization_fixer.analyze_entry.
        inv_bind Ha2 as should Hsh. rewrite Hsh. cbn [bind].
        destruct (py_eq_False should); [eauto|].
        inv_bind Ha2 as locs Hl. rewrite Hl. cbn [bind].
        inv_bind Ha2 as ks Hk. rewrite Hk. cbn [bind].
        destruct (set_diff EXPECTED_LANGUAGES ks); eauto. }
      destruct He as [b1 Hb1]. rewrite Hb1. cbn [bind].
      exact (IH a2 a1 Hloop b1). }
    destruct (Hall (initial_analysis total)) as [b Hb].
    rewrite Hb. cbn [bind]. eexists. split; [reflexivity|].
    apply (for_items_verdicts list_of_set true) in Hloop;
      [|apply analyzer_entry_verdict].
    apply (for_items_verdicts list_of_set false) in Hb;
      [|apply fixer_entry_verdict].
    destruct (finish_fields a1) as (_ & _ & _ & -> & _).
    destruct (finish_fields b) as (_ & _ & _ & -> & _).
    subst a1 b. symmetry. now apply fold_missing_same. }
  destruct Hf as (a' & Ha' & Hm). exists a'. split; [assumption|].
  pose proof (analyzer_reported _ _ _ Ha) as Hr.
  pose proof (fixer_reported _ _ _ Ha') as Hr'.
  split; [|split; [|split; [assumption|split]]].
  - now rewrite (rep_total _ _ _ _ Hr), (rep_total _ _ _ _ Hr').
  - now rewrite (rep_excluded _ _ _ _ Hr), (rep_excluded _ _ _ _ Hr').
  - rewrite (rep_complete _ _ _ _ Hr), (rep_complete _ _ _ _ Hr').
    apply count_entries_le. intros e. cbn [complete_under].
    unfold complete_by_state. intros H.
    apply andb_true_iff in H. tauto.
  - rewrite (reported_incomplete _ _ _ _ Hr), (reported_incomplete _ _ _ _ Hr').
    intros k Hk. apply in_map_iff in Hk. destruct Hk as [[k' e] [E Hin]].
    apply filter_In in Hin. destruct Hin as [Hin Hi].
    apply in_map_iff. exists (k', e). split; [assumption|].
    apply filter_In. split; [assumption|].
    unfold incomplete_under in *. cbn [complete_under snd] in *.
    unfold complete_by_state.
    destruct (excluded e); [discriminate Hi|].
    destruct (complete_by_presence e); [discriminate Hi|reflexivity].
Qed.

(** ** What repair leaves alone *)

Lemma strings_rewritten_trans d1 d2 d3 :
  strings_rewritten d1 d2 -> strings_rewritten d2 d3 -> strings_rewritten d1 d3.
Proof.
  intros [->|(m & s & s' & -> & Hm & ->)] H23; [assumption|].
  destruct H23 as [->|(m2 & s2 & s3 & E & _ & ->)].
  - right. eauto 8.
  - inversion E; subst m2. right. exists m, s, s3.
    split; [reflexivity|]. split; [assumption|]. now rewrite dict_set_set.
Qed.

Lemma assign_rewrites d key lang translation d' :
  assign_localization d key lang translation = Ok d' ->
  strings_rewritten d d'.
Proof.
  unfold assign_localization. intros H.
  inv_bind H as strings Hs. inv_bind H as entry He.
  inv_bind H as locs Hl. inv_bind H as locs' Hset. inversion H; subst d'.
  destruct d as [| | | | | |m]; try discriminate.
  destruct strings as [| | | | | |s]; try discriminate.
  simpl in Hs. destruct (dict_get m "strings") as [x|] eqn:Em; [|discriminate].
  inversion Hs; subst x. right. exists m, s. eexists.
  split; [reflexivity|]. split; [assumption|]. reflexivity.
Qed.

Lemma for_each_rewrites {X} (body : json -> X -> result json) xs :
  (forall d x d', body d x = Ok d' -> strings_rewritten d d') ->
  forall d d', for_each body xs d = Ok d' -> strings_rewritten d d'.
Proof.
  intros Hbody. induction xs as [|x xs IH]; intros d d' H.
  - inversion H. now left.
  - cbn [for_each] in H. inv_bind H as d1 Hd1.
    eapply strings_rewritten_trans; [eapply Hbody; eassumption|now apply IH].
Qed.

Lemma for_items_rewrites (body : json -> string -> json -> result json) items :
  (forall d k v d', body d k v = Ok d' -> strings_rewritten d d') ->
  forall d d', for_items body items d = Ok d' -> strings_rewritten d d'.
Proof.
  intros Hbody. induction items as [|[k v] items IH]; intros d d' H.
  - inversion H. now left.
  - cbn [for_items] in H. inv_bind H as d1 Hd1.
    eapply strings_rewritten_trans; [eapply Hbody; eassumption|now apply IH].
Qed.

Lemma analyzer_fix_key_rewrites a d key d' :
  silent.analyzer_fix_key a d key = Ok d' -> strings_rewritten d d'.
Proof.
  unfold silent.analyzer_fix_key, localization_analyzer.add_translations.
  destruct (dict_get (missing_languages a) key) as [[|l ls]|];
    try (intros [= <-]; now left).
  intros H. inv_bind H as new Hnew.
  eapply for_items_rewrites; [|exact H].
  intros d0 k v d1. apply assign_rewrites.
Qed.

Lemma fixer_fix_key_rewrites a d key d' :
  silent.fixer_fix_key a d key = Ok d' -> strings_rewritten d d'.
Proof.
  unfold silent.fixer_fix_key, localization_fixer.add_translations.
  destruct (dict_get (missing_languages a) key) as [[|l ls]|];
    try (intros [= <-]; now left).
  intros H. inv_bind H as strings Hs. inv_bind H as entry He.
  inv_bind H as detached Hd. inv_bind H as shared Hsh. inv_bind H as d1 Hd1.
  apply strings_rewritten_trans with (d2 := d1).
  - destruct shared; [inversion Hd1; now left|].
    inv_bind Hd1 as entry' Hset. inversion Hd1; subst d1.
    destruct d as [| | | | | |m]; try discriminate.
    destruct strings as [| | | | | |s]; try discriminate.
    simpl in Hs. destruct (dict_get m "strings") as [x|] eqn:Em; [|discriminate].
    inversion Hs; subst x. right. exists m, s. eexists.
    split; [reflexivity|]. split; [assumption|]. reflexivity.
  - eapply for_each_rewrites; [|exact H].
    intros d0 lang d2 H0. inv_bind H0 as ex Hex. inv_bind H0 as v Hv.
    eapply assign_rewrites; eassumption.
Qed.

Lemma repairs_rewrite {console} list_of_set d d' :
  repairs console list_of_set d d' -> strings_rewritten d d'.
Proof.
  intros [H|H].
  - apply fixer_silent in H. unfold silent.fixer_fix_localizations in H.
    inv_bind H as a Ha.
    eapply for_each_rewrites; [|exact H].
    intros d0 k d1. apply fixer_fix_key_rewrites.
  - apply analyzer_silent in H. unfold silent.analyzer_fix_localizations in H.
    inv_bind H as a Ha. inv_bind H as fixed Hc.
    assert (fixed = d) by (destruct d; simpl in Hc; congruence). subst fixed.
    eapply for_each_rewrites; [|exact H].
    intros d0 k d1. apply analyzer_fix_key_rewrites.
Qed.

Lemma dict_keys_set_present {V} (m : list (string * V)) k v v' :
  dict_get m k = Some v -> dict_keys (dict_set m k v') = dict_keys m.
Proof.
  induction m as [|[k1 v1] m IH]; simpl; [discriminate|].
  destruct (String.eqb_spec k k1) as [->|Hne]; intros H; simpl.
  - reflexivity.
  - now rewrite IH.
Qed.

(** X8.  Repair, by either script, touches nothing but localizations: the
    document keeps its keys, in order, and every value not under
    ['strings']; an entry keeps every field other than ['localizations'],
    and its field names, to which ['localizations'] is added last when
    the entry had none. *)
Theorem X8_repair_touches_only_localizations
  (console : string -> bool)
  (list_of_set : list string -> list string) d d' :
  (forall s, Permutation (list_of_set s) s) ->
  unique_keys d = true ->
  repairs console list_of_set d d' ->
  field_names d' = field_names d
  /\ (forall f, f <> "strings" -> field_of d' f = field_of d f)
  /\ (forall key entry,
        entry_of d key = Some entry ->
        exists entry',
          entry_of d' key = Some entry'
          /\ (forall f, f <> "localizations" ->
                field_of entry' f = field_of entry f)
          /\ (field_names entry' = field_names entry
              \/ (has_localizations entry = false
                  /\ field_names entry'
                     = field_names entry ++ ["localizations"]))).
Proof.
  intros Hperm Hu Hrep. pose proof (nodupb_NoDup _ Hu) as Hnd.
  split; [|split].
  - destruct (repairs_rewrite _ _ _ Hrep) as [->|(m & s & s' & -> & Hm & ->)];
      [reflexivity|].
    simpl. now apply dict_keys_set_present with (v := JObj s).
  - intros f Hf.
    destruct (repairs_rewrite _ _ _ Hrep) as [->|(m & s & s' & -> & Hm & ->)];
      [reflexivity|].
    simpl. now apply dict_get_set_other.
  - intros key entry He.
    assert (Hg : exists choice,
               grown_items choice (strings_of d) (strings_of d')).
    { destruct Hrep as [H|H].
      - destruct (fixer_repair _ Hperm d d' Hnd H) as (a & _ & Hg & _). eauto.
      - destruct (analyzer_repair _ Hperm d d' Hnd H) as (a & _ & Hg & _).
        eauto. }
    destruct Hg as [choice Hg].
    destruct (grown_items_get _ _ _ _ _ Hg He) as (e' & He' & Hgrow).
    exists e'. split; [exact He'|].
    destruct Hgrow as [->|(_ & fields & locs & -> & -> & _)].
    + split; [reflexivity|now left].
    + split.
      * intros f Hf. simpl. now apply dict_get_set_other.
      * simpl. unfold dict_mem.
        destruct (dict_get fields "localizations") as [x|] eqn:Ef.
        -- left. now apply dict_keys_set_present with (v := x).
        -- right. split; [reflexivity|].
           apply dict_keys_set_new. now apply dict_get_None.
Qed.

(** ** Repairing a repaired catalog *)

Lemma analysis_missing list_of_set strict body d a :
  (forall a key value a',
      body a key value = Ok a' ->
      a' = apply_verdict list_of_set a (key, verdict_of strict value)) ->
  (strings <- py_get d "strings" (JObj []) ;;
   total <- py_len strings ;;
   items <- py_items strings ;;
   a <- for_items body items (initial_analysis total) ;;
   Ok (finish_analysis a)) = Ok a ->
  missing_languages a
  = missing_languages
      (fold_left (apply_verdict list_of_set) (verdicts strict (strings_of d))
         (initial_analysis (Z.of_nat (length (strings_of d))))).
Proof.
  intros Hbody H.
  inv_bind H as strings Hs. inv_bind H as total Ht.
  inv_bind H as items Hi. inv_bind H as a1 Hloop.
  inversion H; subst a. clear H.
  apply (for_items_verdicts list_of_set strict) in Hloop; [|assumption].
  destruct (finish_fields a1) as (_ & _ & _ & -> & _). subst a1.
  destruct d as [| | | | | |m]; try discriminate.
  destruct strings as [| | | | | |x]; try discriminate.
  inversion Hi; subst x. inversion Ht; subst total.
  assert (Es : strings_of (JObj m) = items).
  { unfold strings_of. simpl in Hs.
    destruct (dict_get m "strings"); inversion Hs; reflexivity. }
  now rewrite Es.
Qed.

Lemma fold_no_missing list_of_set strict items :
  (forall k e, In (k, e) items ->
     match verdict_of strict e with Missing _ => False | _ => True end) ->
  forall a0,
    missing_languages
      (fold_left (apply_verdict list_of_set) (verdicts strict items) a0)
    = missing_languages a0.
Proof.
  induction items as [|[k e] items IH]; intros Hall a0; [reflexivity|].
  cbn [verdicts map fold_left fst snd].
  rewrite IH by (intros k' e' H; apply (Hall k' e'); now right).
  specialize (Hall k e (or_introl eq_refl)).
  unfold apply_verdict. cbn [fst snd].
  destruct (verdict_of strict e); [reflexivity|destruct Hall|reflexivity..].
Qed.

Lemma readable_grown choice k e0 e' :
  grown choice k e0 e' -> readable_entry e0 = true -> readable_entry e' = true.
Proof.
  intros [->|(_ & f & locs & -> & -> & _)] H; [assumption|].
  unfold readable_entry. rewrite dict_get_set_same. apply orb_true_r.
Qed.

Lemma readable_repaired choice d d' :
  strings_rewritten d d' ->
  grown_items choice (strings_of d) (strings_of d') ->
  readable d = true -> readable d' = true.
Proof.
  intros [->|(m & s & s' & -> & Hm & ->)] Hg Hr; [assumption|].
  unfold readable, strings_of in *. rewrite dict_get_set_same in *.
  rewrite Hm in *. clear Hm. revert Hr.
  induction Hg as [|[k e] [k' e'] s s' [_ H] Hg IH]; [reflexivity|].
  cbn [forallb fst snd] in *. intros Hr. apply andb_true_iff in Hr.
  destruct Hr as [Hr1 Hr2]. rewrite (readable_grown _ _ _ _ H Hr1).
  now apply IH.
Qed.

Lemma fixer_analysis_domain list_of_set d :
  readable d = true
  <-> exists a, localization_fixer.analyze_completeness list_of_set d = Ok a.
Proof.
  unfold localization_fixer.analyze_completeness, readable.
  destruct d as [| | | | | |m]; cbn [py_get bind];
    try (split; [discriminate|intros [a H]; discriminate]).
  destruct (dict_get m "strings") as [x|].
  - destruct x as [| | | | | |s]; cbn [py_len py_items bind];
      try (split; [discriminate|intros [a H]; discriminate]).
    pose proof (fixer_loop_domain list_of_set s
                  (initial_analysis (Z.of_nat (length s)))) as Hl.
    destruct (for_items _ s _) as [a|err]; cbn [bind].
    + split; eauto.
    + destruct Hl as [-> ->]. split; [discriminate|intros [a H]; discriminate].
  - cbn [py_len py_items bind for_items length]. split; eauto.
Qed.

(** After repair every entry is excluded or has all ten codes. *)
Lemma repaired_entries choice d d' :
  NoDup (dict_keys (strings_of d)) ->
  grown_items choice (strings_of d) (strings_of d') ->
  (forall k e0 e',
      entry_of d k = Some e0 -> excluded e0 = false ->
      entry_of d' k = Some e' ->
      forall lang, In lang EXPECTED_LANGUAGES ->
        dict_mem lang (localizations_of e') = true) ->
  forall k e', entry_of d' k = Some e' ->
    excluded e' = true \/ missing_of e' = [].
Proof.
  intros Hnd Hg Hall k e' He'.
  destruct (entry_of d k) as [e0|] eqn:He0.
  - destruct (grown_items_get _ _ _ _ _ Hg He0) as (e'' & He'' & Hgrow).
    unfold entry_of in He'. rewrite He' in He''. inversion He''; subst e''.
    destruct (excluded e0) eqn:Ex.
    + left. destruct Hgrow as [->|[Hex _]]; congruence.
    + right. destruct (missing_of e') as [|l ls] eqn:Em; [reflexivity|].
      assert (Hl : In l (missing_of e')) by (rewrite Em; now left).
      apply missing_of_spec in Hl. destruct Hl as [Hl Hn].
      specialize (Hall k e0 e' He0 Ex He' l Hl).
      apply dict_mem_In in Hall. apply dict_get_None in Hn. contradiction.
  - exfalso. unfold entry_of in *. apply dict_get_None in He0. apply He0.
    rewrite <- (grown_items_keys _ _ _ Hg).
    apply dict_get_In in He'. change k with (fst (k, e')). now apply in_map.
Qed.

Lemma for_each_idle (fix_key : analysis -> json -> string -> result json) a :
  (forall d k, dict_get (missing_languages a) k = None ->
     fix_key a d k = Ok d) ->
  missing_languages a = [] ->
  forall keys d, for_each (fix_key a) keys d = Ok d.
Proof.
  intros Hfix Hm. induction keys as [|k keys IH]; intros d; [reflexivity|].
  cbn [for_each]. rewrite Hfix by (now rewrite Hm). cbn [bind]. apply IH.
Qed.

(** X9.  The automatic repair is idempotent.  Whenever it returns, the
    automatic analysis of its result returns, lists no key as incomplete,
    records no missing code and counts every translatable key complete;
    and repairing the result again returns that same result. *)
Theorem X9_fixer_repair_is_idempotent
  (console : string -> bool)
  (list_of_set : list string -> list string) d d' :
  (forall s, Permutation (list_of_set s) s) ->
  unique_keys d = true ->
  localization_fixer.fix_localizations console list_of_set d = Ok d' ->
  (exists a',
      localization_fixer.analyze_completeness list_of_set d' = Ok a'
      /\ incomplete_keys a' = []
      /\ missing_languages a' = []
      /\ complete_keys a' = (total_keys a' - should_not_translate a')%Z)
  /\ localization_fixer.fix_localizations console list_of_set d' = Ok d'.
Proof.
  intros Hperm Hu Hfix. pose proof (nodupb_NoDup _ Hu) as Hnd.
  destruct (fixer_repair _ Hperm d d' Hnd Hfix) as (a & Ha & Hg & _ & Hall).
  pose proof (repairs_rewrite list_of_set d d' (or_introl Hfix)) as Hrw.
  assert (Hr : readable d' = true).
  { apply (readable_repaired _ _ _ Hrw Hg).
    apply (fixer_analysis_domain list_of_set). eauto. }
  apply (fixer_analysis_domain list_of_set) in Hr. destruct Hr as [a' Ha'].
  pose proof (repaired_entries _ _ _ Hnd Hg Hall) as Hent.
  assert (Hv : forall k e', In (k, e') (strings_of d') ->
             incomplete_under false e' = false).
  { intros k e' Hin.
    assert (He' : entry_of d' k = Some e').
    { apply In_dict_get; [|assumption].
      now rewrite (grown_items_keys _ _ _ Hg). }
    unfold incomplete_under. cbn [complete_under]. unfold complete_by_presence.
    destruct (Hent k e' He') as [-> | ->]; [reflexivity|].
    now destruct (excluded e'). }
  assert (Hnone : filter (fun kv => incomplete_under false (snd kv))
                    (strings_of d') = []).
  { clear - Hv. induction (strings_of d') as [|[k e] s IH]; [reflexivity|].
    cbn [filter snd]. rewrite (Hv k e) by now left.
    apply IH. intros k' e' H. apply (Hv k' e'). now right. }
  pose proof (fixer_reported _ _ _ Ha') as Hrep.
  assert (Hi : incomplete_keys a' = []).
  { rewrite (reported_incomplete _ _ _ _ Hrep), Hnone. reflexivity. }
  assert (Hm : missing_languages a' = []).
  { rewrite (analysis_missing list_of_set false _ d' a'
               (fixer_entry_verdict list_of_set) Ha').
    rewrite fold_no_missing; [reflexivity|].
    intros k e Hin. specialize (Hv k e Hin).
    rewrite <- verdict_incomplete in Hv.
    destruct (verdict_of false e); try exact I. discriminate Hv. }
  split.
  - exists a'. split; [assumption|]. split; [assumption|].
    split; [assumption|].
    rewrite (rep_complete _ _ _ _ Hrep), (rep_total _ _ _ _ Hrep),
      (rep_excluded _ _ _ _ Hrep).
    rewrite (verdicts_partition false (strings_of d')), Hnone.
    cbn [length]. lia.
  - unfold localization_fixer.fix_localizations. rewrite Ha'. cbn [bind].
    cbv zeta. rewrite fixer_fixing_printed, Hi. cbn [bind for_each snd fst].
    now rewrite fixer_summary_printed.
Qed.

(** X10.  A second interactive repair changes nothing.  Whenever the
    interactive repair returns and the interactive analysis of its result
    returns, that analysis records no missing code, every key it still
    lists as incomplete has all ten codes and a Localization that is not
    translated, and repairing the result again returns that same
    result. *)
Theorem X10_analyzer_second_repair_changes_nothing
  (console : string -> bool)
  (list_of_set : list string -> list string) d d' a' :
  (forall s, Permutation (list_of_set s) s) ->
  unique_keys d = true ->
  localization_analyzer.fix_localizations console list_of_set d = Ok d' ->
  localization_analyzer.analyze_completeness list_of_set d' = Ok a' ->
  missing_languages a' = []
  /\ (forall k, In k (incomplete_keys a') ->
        exists e',
          entry_of d' k = Some e'
          /\ excluded e' = false
          /\ missing_of e' = []
          /\ all_states_translated e' = false)
  /\ localization_analyzer.fix_localizations console list_of_set d' = Ok d'.
Proof.
  intros Hperm Hu Hfix Ha'. pose proof (nodupb_NoDup _ Hu) as Hnd.
  destruct (analyzer_repair _ Hperm d d' Hnd Hfix) as (a & Ha & Hg & _ & Hall).
  pose proof (repaired_entries _ _ _ Hnd Hg Hall) as Hent.
  assert (Hnd' : NoDup (dict_keys (strings_of d')))
    by now rewrite (grown_items_keys _ _ _ Hg).
  pose proof (analyzer_reported _ _ _ Ha') as Hrep.
  assert (Hm : missing_languages a' = []).
  { rewrite (analysis_missing list_of_set true _ d' a'
               (analyzer_entry_verdict list_of_set) Ha').
    rewrite fold_no_missing; [reflexivity|].
    intros k e Hin.
    assert (He' : entry_of d' k = Some e) by now apply In_dict_get.
    unfold verdict_of.
    destruct (Hent k e He') as [-> | ->]; [exact I|].
    destruct (excluded e); [exact I|].
    now destruct (true && negb (all_states_translated e)). }
  split; [assumption|]. split.
  - intros k Hk.
    apply (incomplete_keys_entry list_of_set true d' a' k Hnd' Hrep) in Hk.
    destruct Hk as (e' & He' & Hv). exists e'. split; [assumption|].
    unfold verdict_of in Hv.
    destruct (excluded e') eqn:Ex; [discriminate Hv|]. split; [reflexivity|].
    destruct (Hent k e' He') as [H|H]; [congruence|].
    split; [assumption|]. rewrite H in Hv. cbn [andb] in Hv.
    now destruct (all_states_translated e').
  - unfold localization_analyzer.fix_localizations. rewrite Ha'. cbn [bind].
    assert (Hc : py_copy d' = Ok d').
    { unfold localization_analyzer.analyze_completeness in Ha'.
      destruct d'; try discriminate. reflexivity. }
    rewrite Hc. cbn [bind]. rewrite analyzer_fixing_printed. cbn [bind].
    apply (for_each_idle (localization_analyzer.fix_key console));
      [|assumption].
    intros d0 k Hk. unfold localization_analyzer.fix_key. now rewrite Hk.
Qed.

(** ** The order in which the missing codes are enumerated *)

Lemma repaired_localization choice d d1 d2 key lang :
  grown_items choice (strings_of d) (strings_of d1) ->
  grown_items choice (strings_of d) (strings_of d2) ->
  (forall k e0 e',
      entry_of d k = Some e0 -> excluded e0 = false ->
      entry_of d1 k = Some e' ->
      forall lang, In lang EXPECTED_LANGUAGES ->
        dict_mem lang (localizations_of e') = true) ->
  (forall k e0 e',
      entry_of d k = Some e0 -> excluded e0 = false ->
      entry_of d2 k = Some e' ->
      forall lang, In lang EXPECTED_LANGUAGES ->
        dict_mem lang (localizations_of e') = true) ->
  localization_of d1 key lang = localization_of d2 key lang.
Proof.
  intros Hg1 Hg2 Hall1 Hall2.
  destruct (grown_localizations _ _ _ Hg1) as (Hk1 & Hn1 & _).
  destruct (grown_localizations _ _ _ Hg2) as (Hk2 & Hn2 & _).
  destruct (localization_of d key lang) as [x|] eqn:Ex.
  - now rewrite (Hk1 _ _ _ Ex), (Hk2 _ _ _ Ex).
  - destruct (in_dec string_dec lang EXPECTED_LANGUAGES) as [Hin|Hout].
    + unfold localization_of in Ex.
      destruct (entry_of d key) as [e0|] eqn:He0.
      * destruct (excluded e0) eqn:Hex.
        -- destruct (grown_items_get _ _ _ _ _ Hg1 He0) as (e1 & He1 & G1).
           destruct (grown_items_get _ _ _ _ _ Hg2 He0) as (e2 & He2 & G2).
           apply grown_excluded in G1; [|assumption].
           apply grown_excluded in G2; [|assumption]. subst e1 e2.
           unfold localization_of, entry_of. now rewrite He1, He2.
        -- assert (Hm : In lang (missing_of e0))
             by (apply missing_of_spec; auto).
           destruct (repair_choice _ d d1 key e0 lang Hg1) as (v1 & Ev1 & ->);
             auto.
           { intros e' He'. now apply (Hall1 key e0 e'). }
           destruct (repair_choice _ d d2 key e0 lang Hg2) as (v2 & Ev2 & ->);
             auto.
           { intros e' He'. now apply (Hall2 key e0 e'). }
           congruence.
      * destruct (localization_of d1 key lang) as [y|] eqn:E1.
        { destruct (Hn1 _ _ _ E1) as [H|(_ & _ & e0 & v & H & _)];
            unfold localization_of in H; rewrite ?He0 in H; discriminate. }
        destruct (localization_of d2 key lang) as [y|] eqn:E2; [|reflexivity].
        destruct (Hn2 _ _ _ E2) as [H|(_ & _ & e0 & v & H & _)];
          unfold localization_of in H; rewrite ?He0 in H; discriminate.
    + destruct (localization_of d1 key lang) as [y|] eqn:E1.
      { destruct (Hn1 _ _ _ E1) as [H|(_ & H & _)]; [congruence|tauto]. }
      destruct (localization_of d2 key lang) as [y|] eqn:E2; [|reflexivity].
      destruct (Hn2 _ _ _ E2) as [H|(_ & H & _)]; [congruence|tauto].
Qed.

(** X11.  The repaired catalog does not depend on the order in which
    the set of missing codes is enumerated: two runs of the same repair
    script under two enumeration orders give every key the same
    Localization under every code. *)
Theorem X11_repair_does_not_depend_on_enumeration_order
  (console : string -> bool)
  (order1 order2 : list string -> list string) d d1 d2 :
  (forall s, Permutation (order1 s) s) ->
  (forall s, Permutation (order2 s) s) ->
  unique_keys d = true ->
  (localization_fixer.fix_localizations console order1 d = Ok d1
   /\ localization_fixer.fix_localizations console order2 d = Ok d2)
  \/ (localization_analyzer.fix_localizations console order1 d = Ok d1
      /\ localization_analyzer.fix_localizations console order2 d = Ok d2) ->
  forall key lang, localization_of d1 key lang = localization_of d2 key lang.
Proof.
  intros Hp1 Hp2 Hu H key lang. pose proof (nodupb_NoDup _ Hu) as Hnd.
  destruct H as [[H1 H2]|[H1 H2]].
  - destruct (fixer_repair _ Hp1 d d1 Hnd H1) as (a1 & _ & Hg1 & _ & Hall1).
    destruct (fixer_repair _ Hp2 d d2 Hnd H2) as (a2 & _ & Hg2 & _ & Hall2).
    exact (repaired_localization _ d d1 d2 key lang Hg1 Hg2 Hall1 Hall2).
  - destruct (analyzer_repair _ Hp1 d d1 Hnd H1) as (a1 & _ & Hg1 & _ & Hall1).
    destruct (analyzer_repair _ Hp2 d d2 Hnd H2) as (a2 & _ & Hg2 & _ & Hall2).
    exact (repaired_localization _ d d1 d2 key lang Hg1 Hg2 Hall1 Hall2).
Qed.

(** ** What the normaliser adds and what it keeps *)

Lemma normalizer_entry d d' key e :
  fix_localizations.fix_localizations d = Ok d' ->
  entry_of d key = Some e ->
  exists e',
    entry_of d' key = Some e' /\ fix_localizations.fix_entry key e = Ok e'.
Proof.
  intros H He. apply normalizer_entries in H.
  exact (Forall2_dict_get
           (fun k x x' => fix_localizations.fix_entry k x = Ok x')
           _ _ key e H He).
Qed.

Lemma coerce_state_frame l l' :
  fix_localizations.coerce_state l = Ok l' ->
  field_names l' = field_names l
  /\ (forall f, f <> "stringUnit" -> field_of l' f = field_of l f)
  /\ (forall f, f <> "state" -> unit_field l' f = unit_field l f).
Proof.
  intros H. destruct (coerce_state_spec _ _ H) as [[_ ->]|(f & u & -> & Hf & ->)];
    [auto|].
  split; [|split].
  - simpl. now apply dict_keys_set_present with (v := JObj u).
  - intros g Hg. simpl. now apply dict_get_set_other.
  - intros g Hg. unfold unit_field, string_unit_of.
    rewrite dict_get_set_same, Hf. simpl. now apply dict_get_set_other.
Qed.

(** X12.  The English step of the normaliser.  In a translatable entry
    that has a ['localizations'] key, ['en'] is added exactly when it is
    absent and some other code is present: it then comes last, valued
    with the key and in state [translated]; otherwise the codes are the
    ones the entry had, in the same order, and an empty ['localizations']
    stays empty. *)
Theorem X12_normalizer_adds_english_when_absent d d' key e :
  fix_localizations.fix_localizations d = Ok d' ->
  entry_of d key = Some e ->
  excluded e = false ->
  has_localizations e = true ->
  exists e',
    entry_of d' key = Some e'
    /\ if dict_mem "en" (localizations_of e)
       then dict_keys (localizations_of e') = dict_keys (localizations_of e)
       else
         match localizations_of e with
         | [] => localizations_of e' = []
         | _ :: _ =>
             dict_keys (localizations_of e')
             = dict_keys (localizations_of e) ++ ["en"]
             /\ dict_get (localizations_of e') "en"
                = Some (translated_unit (JStr key))
         end.
Proof.
  intros H He Hex Hhas.
  destruct (normalizer_entry _ _ _ _ H He) as (e' & He' & Hfix).
  exists e'. split; [assumption|].
  destruct (fix_entry_spec _ _ _ Hfix)
    as [[_ [Hc|Hc]]|(_ & f & locs & items' & -> & Hf & Hup & ->)];
    [congruence..|].
  apply update_items_Forall2 in Hup.
  pose proof (Forall2_dict_keys
                (fun _ l l' => fix_localizations.coerce_state l = Ok l')
                _ _ Hup) as Hkeys.
  unfold localizations_of. rewrite dict_get_set_same, Hf.
  unfold with_english in *.
  destruct (dict_mem "en" locs) eqn:Een; cbn [negb andb] in *;
    [assumption|].
  destruct locs as [|kv locs].
  - cbn in Hkeys. destruct items'; [reflexivity|discriminate].
  - replace (Z.of_nat (length (kv :: locs)) >? 0)%Z with true in *
      by (symmetry; apply Z.gtb_lt; simpl length; lia).
    split.
    + rewrite Hkeys. apply dict_keys_set_new.
      intros Hin. apply dict_mem_In in Hin. congruence.
    + destruct (Forall2_dict_get
                  (fun _ l l' => fix_localizations.coerce_state l = Ok l')
                  _ _ "en" _ Hup (dict_get_set_same _ _ _))
        as (l' & Hl' & Hco).
      rewrite Hl'. cbv in Hco. inversion Hco. reflexivity.
Qed.

(** X13.  The normaliser changes states and adds ['en'], nothing else.
    The document keeps its keys and every value not under ['strings'];
    the catalog keeps its keys in order; an entry keeps its field names
    and every field other than ['localizations']; and a Localization
    that was there is still there under its code, with the same field
    names, the same fields other than ['stringUnit'] and, inside the
    ['stringUnit'], every field other than ['state'], the value among
    them. *)
Theorem X13_normalizer_changes_states_only d d' :
  fix_localizations.fix_localizations d = Ok d' ->
  field_names d' = field_names d
  /\ (forall f, f <> "strings" -> field_of d' f = field_of d f)
  /\ dict_keys (strings_of d') = dict_keys (strings_of d)
  /\ (forall key e,
        entry_of d key = Some e ->
        exists e',
          entry_of d' key = Some e'
          /\ field_names e' = field_names e
          /\ (forall f, f <> "localizations" ->
                field_of e' f = field_of e f)
          /\ (forall lang l,
                dict_get (localizations_of e) lang = Some l ->
                exists l',
                  dict_get (localizations_of e') lang = Some l'
                  /\ field_names l' = field_names l
                  /\ (forall f, f <> "stringUnit" ->
                        field_of l' f = field_of l f)
                  /\ (forall f, f <> "state" ->
                        unit_field l' f = unit_field l f)
                  /\ value_of l' = value_of l)).
Proof.
  intros H. split; [|split; [|split]].
  - destruct (normalizer_spec _ _ H) as [[-> _]|(m & s & s' & -> & Hm & _ & ->)];
      [reflexivity|].
    simpl. now apply dict_keys_set_present with (v := JObj s).
  - intros f Hf.
    destruct (normalizer_spec _ _ H) as [[-> _]|(m & s & s' & -> & Hm & _ & ->)];
      [reflexivity|].
    simpl. now apply dict_get_set_other.
  - apply (Forall2_dict_keys
             (fun k x x' => fix_localizations.fix_entry k x = Ok x')).
    now apply normalizer_entries.
  - intros key e He.
    destruct (normalizer_entry _ _ _ _ H He) as (e' & He' & Hfix).
    exists e'. split; [assumption|].
    destruct (fix_entry_spec _ _ _ Hfix)
      as [[-> _]|(_ & f & locs & items' & -> & Hf & Hup & ->)].
    { split; [reflexivity|]. split; [reflexivity|]. intros lang l Hl.
      exists l. auto 6. }
    split; [|split].
    + simpl. now apply dict_keys_set_present with (v := JObj locs).
    + intros g Hg. simpl. now apply dict_get_set_other.
    + intros lang l Hl. unfold localizations_of in *.
      rewrite dict_get_set_same. rewrite Hf in Hl.
      apply update_items_Forall2 in Hup.
      assert (Hw : dict_get (with_english key locs) lang = Some l).
      { unfold with_english.
        destruct (negb (dict_mem "en" locs) && _) eqn:Ec; [|assumption].
        rewrite dict_get_set_other; [assumption|].
        intros ->. unfold dict_mem in Ec. rewrite Hl in Ec. discriminate. }
      destruct (Forall2_dict_get
                  (fun _ x x' => fix_localizations.coerce_state x = Ok x')
                  _ _ lang l Hup Hw) as (l' & Hl' & Hco).
      exists l'. split; [assumption|].
      destruct (coerce_state_frame _ _ Hco) as (F1 & F2 & F3).
      split; [assumption|]. split; [assumption|]. split; [assumption|].
      specialize (F3 "value"%string ltac:(discriminate)).
      unfold unit_field, value_of in *.
      destruct (string_unit_of l') as [[| | | | | |u']|],
               (string_unit_of l) as [[| | | | | |u]|];
        simpl in F3; congruence.
Qed.

(** ** The normaliser before an analysis *)

Lemma coerced_items (items items' : list (string * json)) :
  Forall2 (fun kv kv' =>
             fst kv' = fst kv
             /\ fix_localizations.coerce_state (snd kv) = Ok (snd kv'))
    items items' ->
  forallb (fun kv => is_translated (snd kv)) items' = false ->
  exists lang l, In (lang, l) items' /\ string_unit_of l = None.
Proof.
  induction 1 as [|[k l] [k' l'] s s' [_ Hco] HF IH]; [discriminate|].
  cbn [forallb fst snd] in *. intros Hall.
  destruct (is_translated l') eqn:Et.
  - destruct (IH Hall) as (lang & x & Hin & Hx). exists lang, x.
    split; [now right|assumption].
  - exists k', l'. split; [now left|].
    pose proof (coerce_state_translated _ _ Hco) as Hst.
    destruct (string_unit_of l) eqn:Eu.
    + unfold is_translated in Et. rewrite Hst in Et. discriminate.
    + now subst l'.
Qed.

(** X14.  After the normaliser an entry is incomplete for the
    interactive analysis only for lack of a code or of a ['stringUnit']:
    whenever that analysis of the normalised catalog returns, every key
    it lists as incomplete has a translatable entry that misses a target
    code or holds a Localization without a ['stringUnit']. *)
Theorem X14_after_normalizer_only_real_gaps_remain
  (list_of_set : list string -> list string) d d' a :
  unique_keys d = true ->
  fix_localizations.fix_localizations d = Ok d' ->
  localization_analyzer.analyze_completeness list_of_set d' = Ok a ->
  forall key, In key (incomplete_keys a) ->
    exists e',
      entry_of d' key = Some e'
      /\ excluded e' = false
      /\ (missing_of e' <> []
          \/ exists lang l,
               In (lang, l) (localizations_of e')
               /\ string_unit_of l = None).
Proof.
  intros Hu H Ha key Hk. pose proof (nodupb_NoDup _ Hu) as Hnd.
  pose proof (normalizer_entries _ _ H) as HF.
  assert (Hnd' : NoDup (dict_keys (strings_of d'))).
  { rewrite (Forall2_dict_keys
               (fun k x x' => fix_localizations.fix_entry k x = Ok x')
               _ _ HF). assumption. }
  pose proof (analyzer_reported _ _ _ Ha) as Hrep.
  apply (incomplete_keys_entry list_of_set true d' a key Hnd' Hrep) in Hk.
  destruct Hk as (e' & He' & Hv). exists e'. split; [assumption|].
  unfold verdict_of in Hv.
  destruct (excluded e') eqn:Ex; [discriminate Hv|]. split; [reflexivity|].
  destruct (missing_of e') as [|c cs] eqn:Em; [|left; discriminate].
  right. cbn [andb] in Hv.
  destruct (all_states_translated e') eqn:Eall; [discriminate Hv|].
  destruct (entry_of d key) as [e|] eqn:He.
  - destruct (normalizer_entry _ _ _ _ H He) as (e'' & He'' & Hfix).
    rewrite He' in He''. inversion He''; subst e''.
    destruct (fix_entry_spec _ _ _ Hfix)
      as [[-> [Hc|Hc]]|(_ & f & locs & items' & -> & Hf & Hup & ->)].
    + congruence.
    + exfalso. unfold all_states_translated, localizations_of in Eall.
      destruct e as [| | | | | |f]; try discriminate.
      simpl in Hc. unfold dict_mem in Hc.
      destruct (dict_get f "localizations"); discriminate.
    + apply update_items_Forall2 in Hup.
      unfold all_states_translated, localizations_of in *.
      rewrite dict_get_set_same in *.
      exact (coerced_items _ _ Hup Eall).
  - exfalso. unfold entry_of in *. apply dict_get_None in He. apply He.
    rewrite <- (Forall2_dict_keys
                  (fun k x x' => fix_localizations.fix_entry k x = Ok x')
                  _ _ HF).
    apply dict_get_In in He'. change key with (fst (key, e')).
    now apply in_map.
Qed.

Lemma fix_entry_keeps_complete k e e' :
  fix_localizations.fix_entry k e = Ok e' ->
  excluded e' = excluded e
  /\ (complete_by_presence e = true -> complete_by_presence e' = true).
Proof.
  intros H.
  destruct (fix_entry_spec _ _ _ H)
    as [[-> _]|(Hex & f & locs & items' & -> & Hf & Hup & ->)]; [auto|].
  assert (Hex' : excluded (JObj (dict_set f "localizations" (JObj items')))
                 = excluded (JObj f)).
  { simpl. now rewrite dict_get_set_other by discriminate. }
  split; [assumption|].
  unfold complete_by_presence. rewrite Hex'.
  destruct (excluded (JObj f)); [discriminate|]. cbn [negb andb].
  destruct (missing_of (JObj f)) as [|c cs] eqn:Em; [|discriminate].
  intros _.
  assert (Hen : dict_mem "en" locs = true).
  { destruct (dict_mem "en" locs) eqn:E; [reflexivity|]. exfalso.
    assert (Hin : In "en"%string (missing_of (JObj f))).
    { apply missing_of_spec. split; [unfold EXPECTED_LANGUAGES; simpl; tauto|].
      unfold localizations_of. rewrite Hf. unfold dict_mem in E.
      now destruct (dict_get locs "en"). }
    rewrite Em in Hin. destruct Hin. }
  unfold with_english in Hup. rewrite Hen in Hup. cbn [negb andb] in Hup.
  apply update_items_Forall2 in Hup.
  pose proof (Forall2_dict_keys
                (fun _ l l' => fix_localizations.coerce_state l = Ok l')
                _ _ Hup) as Hkeys.
  unfold missing_of, localizations_of in *.
  rewrite dict_get_set_same. rewrite Hf in Em. now rewrite Hkeys, Em.
Qed.

Lemma count_entries_Forall2 (R : json -> json -> Prop) (p q : json -> bool)
  (s s' : list (string * json)) :
  (forall e e', R e e' -> p e = true -> q e' = true) ->
  Forall2 (fun kv kv' => R (snd kv) (snd kv')) s s' ->
  (count_entries p s <= count_entries q s')%Z.
Proof.
  intros Hpq HF. unfold count_entries.
  induction HF as [|[k e] [k' e'] s s' HR HF IH]; [reflexivity|].
  cbn [filter snd] in *. specialize (Hpq e e' HR).
  destruct (p e), (q e'); cbn [length]; try lia;
    discriminate (Hpq eq_refl).
Qed.

(** X15.  The normaliser never lowers the status.  Whenever the status
    script returns on a catalog and on its normalised form, it reports
    the same total and the same excluded count, and at least as many
    complete keys after as before. *)
Theorem X15_normalizer_never_lowers_the_status d d' s p s' p' :
  fix_localizations.fix_localizations d = Ok d' ->
  localization_status.check_localization_status d = Ok (s, p) ->
  localization_status.check_localization_status d' = Ok (s', p') ->
  localization_status.total_keys s' = localization_status.total_keys s
  /\ localization_status.should_not_translate s'
     = localization_status.should_not_translate s
  /\ (localization_status.complete_keys s
      <= localization_status.complete_keys s')%Z.
Proof.
  intros H Hs Hs'.
  destruct (status_reported _ _ _ Hs) as (T & E & C & _).
  destruct (status_reported _ _ _ Hs') as (T' & E' & C' & _).
  rewrite T, T', E, E', C, C'.
  pose proof (normalizer_entries _ _ H) as HF.
  assert (HR : Forall2
                 (fun kv kv' =>
                    excluded (snd kv') = excluded (snd kv)
                    /\ (complete_by_presence (snd kv) = true ->
                        complete_by_presence (snd kv') = true))
                 (strings_of d) (strings_of d')).
  { eapply Forall2_impl; [|exact HF].
    intros [k e] [k' e'] [_ Hfix]. exact (fix_entry_keeps_complete _ _ _ Hfix). }
  split; [|split].
  - now rewrite (Forall2_length HF).
  - apply Z.le_antisymm.
    + apply (count_entries_Forall2
               (fun e' e => excluded e' = excluded e
                            /\ (complete_by_presence e = true ->
                                complete_by_presence e' = true))).
      * intros e' e [Hx _] Hp. congruence.
      * apply Forall2_flip. exact HR.
    + apply (count_entries_Forall2
               (fun e e' => excluded e' = excluded e
                            /\ (complete_by_presence e = true ->
                                complete_by_presence e' = true)));
        [|exact HR].
      intros e e' [Hx _] Hp. congruence.
  - apply (count_entries_Forall2
             (fun e e' => excluded e' = excluded e
                          /\ (complete_by_presence e = true ->
                              complete_by_presence e' = true)));
      [|exact HR].
    intros e e' [_ Hc]. exact Hc.
Qed.

(** ** The breakdown of the report *)

Section Breakdown.
Import print_analysis.

Lemma int_get_set_same {V} (m : list (Z * V)) k v :
  int_get (int_set m k v) k = Some v.
Proof.
  induction m as [|[k' v'] m IH]; simpl.
  - now rewrite Z.eqb_refl.
  - destruct (Z.eqb_spec k k') as [->|Hne]; simpl.
    + now rewrite Z.eqb_refl.
    + destruct (Z.eqb_spec k k'); [contradiction|assumption].
Qed.

Lemma int_get_set_other {V} (m : list (Z * V)) k k' v :
  k' <> k -> int_get (int_set m k v) k' = int_get m k'.
Proof.
  intros Hne. induction m as [|[k1 v1] m IH]; simpl.
  - destruct (Z.eqb_spec k' k); congruence.
  - destruct (Z.eqb_spec k k1) as [->|]; simpl.
    + destruct (Z.eqb_spec k' k1); congruence.
    + now rewrite IH.
Qed.

Lemma int_keys_set_In {V} (m : list (Z * V)) k v x :
  In x (map fst (int_set m k v)) <-> x = k \/ In x (map fst m).
Proof.
  induction m as [|[k1 v1] m IH]; simpl.
  - intuition congruence.
  - destruct (Z.eqb_spec k k1) as [->|Hne]; simpl.
    + intuition congruence.
    + rewrite IH. intuition congruence.
Qed.

Lemma int_set_NoDup {V} (m : list (Z * V)) k v :
  NoDup (map fst m) -> NoDup (map fst (int_set m k v)).
Proof.
  induction m as [|[k1 v1] m IH]; simpl; intros H.
  - constructor; [intros []|constructor].
  - inversion H as [|? ? Hnot Hnd]; subst.
    destruct (Z.eqb_spec k k1) as [->|Hne]; simpl.
    + now constructor.
    + constructor; [|auto]. rewrite int_keys_set_In. intros [E|Hin]; auto.
Qed.

Lemma int_get_In {V} (m : list (Z * V)) k :
  In k (map fst m) <-> int_get m k <> None.
Proof.
  induction m as [|[k1 v1] m IH]; simpl.
  - intuition congruence.
  - destruct (Z.eqb_spec k k1) as [->|Hne].
    + split; [discriminate|auto].
    + rewrite <- IH. intuition congruence.
Qed.

Lemma nonempty_snoc keys key : nonempty (keys ++ [key]) = Some (keys ++ [key]).
Proof. now destruct keys. Qed.

Lemma nonempty_Some keys keys' : nonempty keys = Some keys' -> keys' = keys.
Proof. destruct keys; simpl; congruence. Qed.

Lemma nonempty_None keys : nonempty keys = None -> keys = [].
Proof. destruct keys; simpl; congruence. Qed.

Lemma keys_with_snoc a count done key :
  keys_with a count (done ++ [key])
  = keys_with a count done
    ++ (if (count_of a key =? count)%Z then [key] else []).
Proof. unfold keys_with. rewrite filter_app. reflexivity. Qed.

(** One round of the grouping loop. *)
Lemma group_key_grouped a done missing_counts key :
  grouped a done missing_counts ->
  exists missing_counts',
    group_key a missing_counts key = Ok missing_counts'
    /\ grouped a (done ++ [key]) missing_counts'.
Proof.
  intros [Hnd Hget]. unfold group_key.
  change (Z.of_nat (length (missing_langs a key))) with (count_of a key).
  destruct (int_get missing_counts (count_of a key)) as [keys|] eqn:E0.
  - rewrite E0. eexists. split; [reflexivity|]. split.
    + now apply int_set_NoDup.
    + intros count. rewrite keys_with_snoc.
      destruct (Z.eqb_spec (count_of a key) count) as [<-|Hne].
      * rewrite int_get_set_same. rewrite Hget in E0.
        apply nonempty_Some in E0. subst keys. now rewrite nonempty_snoc.
      * rewrite int_get_set_other by congruence. rewrite app_nil_r. apply Hget.
  - rewrite int_get_set_same. eexists. split; [reflexivity|]. split.
    + now apply int_set_NoDup, int_set_NoDup.
    + intros count. rewrite keys_with_snoc.
      destruct (Z.eqb_spec (count_of a key) count) as [<-|Hne].
      * rewrite int_get_set_same. rewrite Hget in E0.
        apply nonempty_None in E0. now rewrite E0.
      * rewrite !int_get_set_other by congruence. rewrite app_nil_r.
        apply Hget.
Qed.

Lemma group_keys_grouped a keys :
  forall done missing_counts,
    grouped a done missing_counts ->
    exists missing_counts',
      for_each (group_key a) keys missing_counts = Ok missing_counts'
      /\ grouped a (done ++ keys) missing_counts'.
Proof.
  induction keys as [|key keys IH]; intros done mc H.
  - exists mc. rewrite app_nil_r. auto.
  - destruct (group_key_grouped a done mc key H) as (mc1 & E1 & H1).
    cbn [for_each]. rewrite E1. cbn [bind].
    destruct (IH _ _ H1) as (mc' & E' & H').
    exists mc'. split; [assumption|]. now rewrite <- app_assoc in H'.
Qed.

Lemma insert_descending_In x l y :
  In y (insert_descending x l) <-> y = x \/ In y l.
Proof.
  induction l as [|z l IH]; simpl.
  - intuition congruence.
  - destruct (z <? x)%Z; simpl; [intuition congruence|].
    rewrite IH. intuition congruence.
Qed.

Lemma insert_descending_sorted x l :
  StronglySorted Z.gt l -> ~ In x l ->
  StronglySorted Z.gt (insert_descending x l).
Proof.
  induction l as [|y l IH]; simpl; intros Hs Hx.
  - constructor; constructor.
  - inversion Hs as [|? ? Hl Hy]; subst.
    destruct (Z.ltb_spec y x) as [Hlt|Hge].
    + constructor; [assumption|]. constructor; [lia|].
      eapply Forall_impl; [|exact Hy]. intros z Hz. cbv beta in Hz. lia.
    + constructor; [apply IH; tauto|].
      apply Forall_forall. intros z Hz. apply insert_descending_In in Hz.
      destruct Hz as [->|Hz].
      * assert (x <> y) by (intros ->; tauto). lia.
      * rewrite Forall_forall in Hy. now apply Hy.
Qed.

Lemma sorted_reverse_In l y : In y (sorted_reverse l) <-> In y l.
Proof.
  induction l as [|x l IH]; simpl; [tauto|].
  rewrite insert_descending_In, IH. intuition congruence.
Qed.

Lemma sorted_reverse_sorted l :
  NoDup l -> StronglySorted Z.gt (sorted_reverse l).
Proof.
  induction 1 as [|x l Hx Hnd IH]; simpl; [constructor|].
  apply insert_descending_sorted; [assumption|].
  now rewrite sorted_reverse_In.
Qed.

Lemma descending_NoDup l : StronglySorted Z.gt l -> NoDup l.
Proof.
  induction 1 as [|x l Hs IH Hx]; constructor; [|assumption].
  intros Hin. rewrite Forall_forall in Hx. specialize (Hx x Hin). lia.
Qed.

Lemma emits_ok console : emits console (fun out => Ok out) [].
Proof. intros out. now rewrite app_nil_r. Qed.

Lemma emits_emit console text :
  emits console (fun out => emit console out text) [text].
Proof.
  intros out. unfold emit, py_print.
  destruct (accepts console text) eqn:E; cbn [bind]; [reflexivity|].
  split; [reflexivity|]. exists text. split; [now left|assumption].
Qed.

Lemma emits_seq console f g lines1 lines2 :
  emits console f lines1 ->
  emits console g lines2 ->
  emits console (fun out => out1 <- f out ;; g out1) (lines1 ++ lines2).
Proof.
  intros Hf Hg out. specialize (Hf out).
  destruct (f out) as [out1|err]; cbn [bind].
  - subst out1. specialize (Hg (out ++ lines1)).
    destruct (g (out ++ lines1)) as [out2|err].
    + now rewrite app_assoc.
    + destruct Hg as (E & text & Hin & Hacc). split; [assumption|].
      exists text. split; [apply in_or_app; now right|assumption].
  - destruct Hf as (E & text & Hin & Hacc). split; [assumption|].
    exists text. split; [apply in_or_app; now left|assumption].
Qed.

Lemma emits_for_each {X} console
  (body : list string -> X -> result (list string))
  (lines : X -> list string) xs :
  (forall x, In x xs -> emits console (fun out => body out x) (lines x)) ->
  emits console (fun out => for_each body xs out) (concat (map lines xs)).
Proof.
  induction xs as [|x xs IH]; intros Hbody; [apply emits_ok|].
  cbn [for_each map concat].
  apply (emits_seq console (fun out => body out x)
           (fun out => for_each body xs out)).
  - apply Hbody. now left.
  - apply IH. intros y Hy. apply Hbody. now right.
Qed.

(** The lines printed for a count are those of its group. *)
Lemma print_group_emits console a missing_counts count :
  int_get missing_counts count
  = Some (keys_with a count (incomplete_keys a)) ->
  emits console (fun out => print_group console a missing_counts out count)
    (group_lines (group_of a count)).
Proof.
  intros Hget. unfold print_group. rewrite Hget.
  set (keys := keys_with a count (incomplete_keys a)).
  assert (E : group_lines (group_of a count)
              = [heading count keys]
                ++ concat (map (fun key => [key_line a key]) (firstn 10 keys))
                ++ (if (Z.of_nat (length keys) >? 10)%Z
                    then [more_line keys] else [])).
  { unfold group_lines, group_of. fold keys.
    cbn [group_count group_size group_examples group_more app].
    unfold heading. f_equal. f_equal.
    - rewrite map_map. cbn [fst snd].
      induction (firstn 10 keys) as [|k ks IH]; [reflexivity|].
      cbn [map concat app]. now rewrite IH.
    - now destruct (Z.of_nat (length keys) >? 10)%Z. }
  rewrite E.
  apply (emits_seq console (fun out => emit console out (heading count keys))).
  { apply emits_emit. }
  apply (emits_seq console
           (fun out => for_each (print_key console a) (firstn 10 keys) out)
           (fun out2 =>
              if (Z.of_nat (length keys) >? 10)%Z
              then emit console out2 (more_line keys) else Ok out2)).
  - apply (emits_for_each console (print_key console a)
             (fun key => [key_line a key])).
    intros key _. apply emits_emit.
  - destruct (Z.of_nat (length keys) >? 10)%Z;
      [apply emits_emit|apply emits_ok].
Qed.

Lemma sum_zero {X} (l : list X) :
  fold_right Z.add 0%Z (map (fun _ => 0%Z) l) = 0%Z.
Proof. induction l; simpl; lia. Qed.

Lemma sum_split {X} (f g h : X -> Z) (l : list X) :
  (forall x, f x = (g x + h x)%Z) ->
  fold_right Z.add 0%Z (map f l)
  = (fold_right Z.add 0%Z (map g l) + fold_right Z.add 0%Z (map h l))%Z.
Proof. intros E. induction l; simpl; [reflexivity|]. rewrite E. lia. Qed.

Lemma sum_indicator x l :
  NoDup l -> In x l ->
  fold_right Z.add 0%Z (map (fun c => if (x =? c)%Z then 1%Z else 0%Z) l)
  = 1%Z.
Proof.
  induction 1 as [|y l Hy Hnd IH]; simpl; intros Hin; [destruct Hin|].
  destruct (Z.eqb_spec x y) as [->|Hne].
  - assert (E : fold_right Z.add 0%Z
                  (map (fun c => if (y =? c)%Z then 1%Z else 0%Z) l) = 0%Z).
    { clear IH Hnd Hin. induction l as [|z l IH]; [reflexivity|]. simpl.
      destruct (Z.eqb_spec y z) as [->|_]; [simpl in Hy; tauto|].
      rewrite IH by (simpl in Hy; tauto). reflexivity. }
    lia.
  - destruct Hin as [->|Hin]; [congruence|]. rewrite IH by assumption. lia.
Qed.

Lemma sum_keys_with a counts keys :
  NoDup counts ->
  (forall key, In key keys -> In (count_of a key) counts) ->
  fold_right Z.add 0%Z
    (map (fun count => Z.of_nat (length (keys_with a count keys))) counts)
  = Z.of_nat (length keys).
Proof.
  intros Hnd. induction keys as [|key keys IH]; intros Hall.
  - apply sum_zero.
  - rewrite (sum_split _
               (fun count => Z.of_nat (length (keys_with a count keys)))
               (fun count => if (count_of a key =? count)%Z
                             then 1%Z else 0%Z)).
    + rewrite IH by (intros k Hk; apply Hall; now right).
      rewrite sum_indicator; [|assumption|apply Hall; now left].
      cbn [length]. lia.
    + intros count. unfold keys_with. cbn [filter].
      destruct (count_of a key =? count)%Z; cbn [length]; lia.
Qed.

(** X16.  The breakdown of [print_analysis] prints one group for each
    number of missing languages that some incomplete key has, in strictly
    descending order of that number; a group shows the number of
    incomplete keys with that many missing languages, the first ten of
    them in report order, each with the missing languages recorded for
    it, and the number of keys left out when there are more than ten; the
    groups' sizes add up to the number of incomplete keys.  It returns
    after printing the lines of these groups under the title and the
    rule, nothing when no key is incomplete, or raises
    [UnicodeEncodeError] at one of these lines that the console
    rejects. *)
Theorem X16_breakdown_groups_incomplete_keys_by_missing_count
  (console : string -> bool) a :
  exists counts,
    StronglySorted Z.gt counts
    /\ (forall count,
          In count counts
          <-> exists key,
                In key (incomplete_keys a) /\ count_of a key = count)
    /\ total_size (map (group_of a) counts)
       = Z.of_nat (length (incomplete_keys a))
    /\ match print_analysis.breakdown console a with
       | Ok out => out = report_lines (map (group_of a) counts)
       | Raise err =>
           err = UnicodeEncodeError
           /\ exists text,
                In text (report_lines (map (group_of a) counts))
                /\ accepts console text = false
       end.
Proof.
  assert (H0 : grouped a [] []) by (split; [constructor|reflexivity]).
  destruct (group_keys_grouped a (incomplete_keys a) [] [] H0)
    as (mc & Emc & Hnd & Hget).
  cbn [app] in Hget.
  assert (Hin : forall count,
            In count (sorted_reverse (map fst mc))
            <-> exists key,
                  In key (incomplete_keys a) /\ count_of a key = count).
  { intros count. rewrite sorted_reverse_In, int_get_In, Hget.
    unfold keys_with. split.
    - intros Hne.
      destruct (filter _ (incomplete_keys a)) as [|key keys] eqn:Ef;
        [now destruct Hne|].
      assert (Hk : In key (filter (fun key => (count_of a key =? count)%Z)
                             (incomplete_keys a)))
        by (rewrite Ef; now left).
      apply filter_In in Hk. destruct Hk as [Hk Hc].
      exists key. split; [assumption|]. now apply Z.eqb_eq.
    - intros (key & Hk & Hc) E.
      assert (Hf : In key (filter (fun key => (count_of a key =? count)%Z)
                             (incomplete_keys a)))
        by (apply filter_In; split; [assumption|now apply Z.eqb_eq]).
      destruct (filter _ (incomplete_keys a)); [destruct Hf|discriminate]. }
  pose proof (sorted_reverse_sorted _ Hnd) as Hsorted.
  assert (Hsum : total_size (map (group_of a) (sorted_reverse (map fst mc)))
                 = Z.of_nat (length (incomplete_keys a))).
  { unfold total_size. rewrite map_map. cbn [group_of group_size].
    apply sum_keys_with; [now apply descending_NoDup|].
    intros key Hk. apply Hin. eauto. }
  assert (Hgroups : forall count,
            In count (sorted_reverse (map fst mc)) ->
            int_get mc count = Some (keys_with a count (incomplete_keys a))).
  { intros count Hc.
    assert (Hne : int_get mc count <> None)
      by (apply int_get_In; now apply sorted_reverse_In).
    rewrite Hget in Hne |- *.
    destruct (keys_with a count (incomplete_keys a));
      [now destruct Hne|reflexivity]. }
  set (counts := sorted_reverse (map fst mc)) in *.
  exists counts. split; [assumption|]. split; [assumption|].
  split; [assumption|].
  unfold breakdown.
  destruct (incomplete_keys a) as [|k0 ks] eqn:Ei.
  - assert (Ec : counts = []).
    { destruct counts as [|c cs]; [reflexivity|].
      destruct (proj1 (Hin c) (or_introl eq_refl)) as (key & [] & _). }
    rewrite Ec. reflexivity.
  - rewrite Emc.
    assert (Hne : exists c cs, counts = c :: cs).
    { destruct counts as [|c cs]; [|eauto].
      destruct (proj2 (Hin (count_of a k0))
                  (ex_intro _ k0 (conj (or_introl eq_refl) eq_refl))). }
    assert (Hem : emits console
              (fun out =>
                 out1 <- emit console out "MISSING TRANSLATIONS BREAKDOWN:" ;;
                 out2 <- emit console out1
                           "----------------------------------------" ;;
                 for_each (print_group console a mc) counts out2)
              (["MISSING TRANSLATIONS BREAKDOWN:"]
               ++ ["----------------------------------------"]
               ++ concat (map (fun count => group_lines (group_of a count))
                            counts))).
    { apply (emits_seq console
               (fun out => emit console out "MISSING TRANSLATIONS BREAKDOWN:"));
        [apply emits_emit|].
      apply (emits_seq console
               (fun out =>
                  emit console out "----------------------------------------")
               (fun out => for_each (print_group console a mc) counts out));
        [apply emits_emit|].
      apply (emits_for_each console (print_group console a mc)
               (fun count => group_lines (group_of a count))).
      intros count Hc. apply print_group_emits. rewrite Ei.
      now apply Hgroups. }
    specialize (Hem []).
    assert (Er : report_lines (map (group_of a) counts)
                 = ["MISSING TRANSLATIONS BREAKDOWN:"]
                   ++ ["----------------------------------------"]
                   ++ concat (map (fun count => group_lines (group_of a count))
                                counts)).
    { destruct Hne as (c & cs & ->). cbn [map report_lines app].
      now rewrite map_map. }
    rewrite Er. cbn [bind app] in Hem |- *. exact Hem.
Qed.

End Breakdown.

(** ** When the interactive repair raises *)

Lemma forallb_false_In {X} (p : X -> bool) (l : list X) :
  forallb p l = false -> exists x, In x l /\ p x = false.
Proof.
  induction l as [|x l IH]; simpl; [discriminate|].
  destruct (p x) eqn:E; simpl; intros H.
  - destruct (IH H) as (y & Hy & Hp). exists y. auto.
  - exists x. auto.
Qed.

(** An entry with no ['localizations'] key misses the ten codes. *)
Lemma unmapped_verdict strict e :
  entry_ok e = true ->
  excluded e = false ->
  has_localizations e = false ->
  verdict_of strict e = Missing EXPECTED_LANGUAGES.
Proof.
  intros Hok Hex Hhas.
  destruct (entry_ok_localizations _ Hok) as (f & -> & [Hf|(locs & Hf & _)]).
  - unfold verdict_of. rewrite Hex. unfold missing_of, localizations_of.
    rewrite Hf. reflexivity.
  - simpl in Hhas. unfold dict_mem in Hhas. rewrite Hf in Hhas. discriminate.
Qed.

(** The round of a key whose entry has no ['localizations'] key: the
    translations are generated, and the first store raises. *)
Lemma analyzer_round_raises a m s key f lang0 langs :
  dict_get m "strings" = Some (JObj s) ->
  dict_get s key = Some (JObj f) ->
  dict_get f "localizations" = None ->
  dict_get (missing_languages a) key = Some (lang0 :: langs) ->
  silent.analyzer_fix_key a (JObj m) key = Raise KeyError.
Proof.
  intros Hm Hs Hf Ha. unfold silent.analyzer_fix_key, localization_analyzer.add_translations. rewrite Ha.
  assert (Hgen : exists v' rest,
             localization_analyzer.generate_missing_translations (JObj m) key
               (lang0 :: langs)
             = Ok ((lang0, v') :: rest)).
  { set (g := fun lang =>
                translated_unit
                  match lookup_phrase localization_analyzer.translation_map
                          key lang with
                  | Some v => JStr v
                  | None => JStr key
                  end).
    destruct (fold_set_head g langs lang0 (g lang0) []) as (v' & rest & E).
    exists v', rest. rewrite <- E.
    unfold localization_analyzer.generate_missing_translations.
    rewrite (getitem_obj _ _ _ Hm). cbn [bind].
    rewrite (getitem_obj _ _ _ Hs). cbn [bind py_get]. rewrite Hf.
    reflexivity. }
  destruct Hgen as (v' & rest & ->). cbn [bind for_items].
  unfold assign_localization.
  rewrite (getitem_obj _ _ _ Hm). cbn [bind].
  rewrite (getitem_obj _ _ _ Hs). cbn [bind py_getitem]. rewrite Hf.
  reflexivity.
Qed.

Lemma analyzer_loop_raises a keys :
  forall m s,
    dict_get m "strings" = Some (JObj s) ->
    (forall k, In k keys ->
       exists e,
         dict_get s k = Some e
         /\ entry_ok e = true
         /\ (has_localizations e = false ->
             exists l ls, dict_get (missing_languages a) k = Some (l :: ls))) ->
    (exists k e,
        In k keys /\ dict_get s k = Some e /\ has_localizations e = false) ->
    for_each (silent.analyzer_fix_key a) keys (JObj m) = Raise KeyError.
Proof.
  induction keys as [|k keys IH]; intros m s Hm Hall (kw & ew & Hin & Hw & Hno);
    [destruct Hin|].
  cbn [for_each].
  destruct (Hall k (or_introl eq_refl)) as (e & He & Hok & Hmiss).
  destruct (has_localizations e) eqn:Hhas.
  - assert (Hne : kw <> k) by (intros ->; congruence).
    assert (Hin' : In kw keys) by (destruct Hin as [<-|Hin]; congruence).
    destruct (analyzer_round_total a m s k e Hm He (conj Hok Hhas))
      as [E|(e' & [Hok' Hhas'] & E)]; rewrite E; cbn [bind].
    + apply (IH m s Hm).
      * intros k' Hk'. apply Hall. now right.
      * exists kw, ew. auto.
    + apply (IH _ (dict_set s k e') (dict_get_set_same m _ _)).
      * intros k' Hk'. destruct (String.eqb_spec k' k) as [->|Hne'].
        -- exists e'. split; [apply dict_get_set_same|].
           split; [assumption|]. intros C. congruence.
        -- rewrite dict_get_set_other by assumption. apply Hall. now right.
      * exists kw, ew. split; [assumption|]. split; [|assumption].
        now rewrite dict_get_set_other.
  - destruct (Hmiss eq_refl) as (l & ls & Hl).
    destruct (entry_ok_localizations _ Hok) as (f & -> & [Hf|(locs & Hf & _)]).
    + now rewrite (analyzer_round_raises a m s k f l ls Hm He Hf Hl).
    + simpl in Hhas. unfold dict_mem in Hhas. rewrite Hf in Hhas. discriminate.
Qed.

(** On a catalog that follows the schema the rounds of the interactive
    repair go through exactly when every translatable entry has a
    ['localizations'] key, and raise [KeyError] when one has none. *)
Lemma silent_analyzer_raises list_of_set d :
  (forall s, Permutation (list_of_set s) s) ->
  unique_keys d = true ->
  well_formed d = true ->
  match silent.analyzer_fix_localizations list_of_set d with
  | Ok _ => all_mapped d = true
  | Raise err => all_mapped d = false /\ err = KeyError
  end.
Proof.
  intros Hperm Hu Hwf. destruct (all_mapped d) eqn:Hmap.
  - destruct (silent_analyzer_total list_of_set d Hu Hwf Hmap) as [d' ->].
    reflexivity.
  - assert (E : silent.analyzer_fix_localizations list_of_set d
                = Raise KeyError); [|rewrite E; auto].
    pose proof (nodupb_NoDup _ Hu) as Hnd.
    destruct (proj2 (analysis_total list_of_set d Hwf)) as [a Ha].
    pose proof (analyzer_reported _ _ _ Ha) as Hrep.
    destruct (well_formed_shape d Hwf) as (m & s & -> & Hm & Es & Hall).
    rewrite Forall_forall in Hall.
    unfold silent.analyzer_fix_localizations. rewrite Ha.
    cbn [bind py_copy]. apply (analyzer_loop_raises a _ m s Hm).
    + intros k Hk.
      apply (incomplete_keys_entry list_of_set true _ a k Hnd Hrep) in Hk.
      destruct Hk as (e & He & Hv). unfold entry_of in He. rewrite Es in He.
      exists e. split; [assumption|].
      pose proof (Hall _ (dict_get_In _ _ _ He)) as Hok.
      split; [exact Hok|]. intros Hhas.
      assert (Hex : excluded e = false).
      { destruct (excluded e) eqn:Ex; [|reflexivity].
        apply (verdict_excluded true) in Ex. rewrite Ex in Hv. discriminate. }
      assert (He' : entry_of (JObj m) k = Some e)
        by (unfold entry_of; now rewrite Es).
      rewrite (rep_missing _ _ _ _ Hrep k e Hnd He'),
        (unmapped_verdict true e Hok Hex Hhas).
      destruct (list_of_set EXPECTED_LANGUAGES) as [|l ls] eqn:El; [|eauto].
      specialize (Hperm EXPECTED_LANGUAGES). rewrite El in Hperm.
      apply Permutation_nil in Hperm. discriminate.
    + unfold all_mapped in Hmap. rewrite Es in Hmap.
      apply forallb_false_In in Hmap. destruct Hmap as ([k e] & Hin & Hp).
      cbn [snd] in Hp. apply orb_false_iff in Hp. destruct Hp as [Hex Hhas].
      assert (He : dict_get s k = Some e).
      { apply In_dict_get; [|assumption]. now rewrite <- Es. }
      exists k, e. split; [|auto].
      apply (incomplete_keys_entry list_of_set true _ a k Hnd Hrep).
      exists e. split; [unfold entry_of; now rewrite Es|].
      rewrite (unmapped_verdict true e (Hall _ Hin) Hex Hhas). reflexivity.
Qed.

(** X17.  On a catalog that follows the schema the interactive repair
    returns only when every translatable entry has a ['localizations']
    key.  When it raises, it raises [KeyError] and some translatable
    entry has no such key, or it raises [UnicodeEncodeError] and the
    console rejects the line printed for some key; so with a console that
    accepts those lines it returns exactly when every translatable entry
    has the key, and raises [KeyError] otherwise. *)
Theorem X17_analyzer_repair_raises_exactly_on_unmapped_entries
  (console : string -> bool)
  (list_of_set : list string -> list string) d :
  (forall s, Permutation (list_of_set s) s) ->
  unique_keys d = true ->
  well_formed d = true ->
  match localization_analyzer.fix_localizations console list_of_set d with
  | Ok _ => all_mapped d = true
  | Raise err =>
      (all_mapped d = false /\ err = KeyError)
      \/ (err = UnicodeEncodeError
          /\ exists key,
               In key (dict_keys (strings_of d))
               /\ ~ analyzer_prints console key)
  end.
Proof.
  intros Hperm Hu Hwf.
  pose proof (silent_analyzer_raises list_of_set d Hperm Hu Hwf) as Hs.
  pose proof (analyzer_printed console list_of_set d Hperm
                (nodupb_NoDup _ Hu)) as Hp.
  destruct (localization_analyzer.fix_localizations console list_of_set d)
    as [d'|err].
  - now rewrite Hp in Hs.
  - destruct Hp as [E|Hp]; [|now right].
    left. now rewrite E in Hs.
Qed.

(** X18.  On a catalog that follows the schema the automatic repair
    fails only at a print: it returns a catalog, or it raises
    [UnicodeEncodeError] and the console rejects the line printed for
    some key of the catalog. *)
Theorem X18_fixer_repair_fails_only_at_a_print
  (console : string -> bool)
  (list_of_set : list string -> list string) d :
  well_formed d = true ->
  (exists d',
      localization_fixer.fix_localizations console list_of_set d = Ok d')
  \/ (localization_fixer.fix_localizations console list_of_set d
      = Raise UnicodeEncodeError
      /\ exists key,
           In key (dict_keys (strings_of d)) /\ ~ fixer_prints console key).
Proof.
  intros Hwf.
  destruct (silent_fixer_total list_of_set d Hwf) as [d0 Hs].
  pose proof (fixer_printed console list_of_set d) as Hp.
  destruct (localization_fixer.fix_localizations console list_of_set d)
    as [d'|err]; [left; eauto|].
  destruct Hp as [E|[-> Hp]]; [congruence|]. right. auto.
Qed.

(** ** The further properties on sample catalogs *)

Lemma reverse_order_perm : forall s, Permutation (reverse_order s) s.
Proof. intros s. apply Permutation_sym, Permutation_rev. Qed.

Lemma X1_witness :
  match localization_analyzer.analyze_completeness source_order
          review_catalog with
  | Ok a =>
      total_keys a
      = (should_not_translate a + complete_keys a
         + Z.of_nat (length (incomplete_keys a)))%Z
  | Raise _ => False
  end.
Proof.
  destruct (localization_analyzer.analyze_completeness source_order
              review_catalog) as [a|e] eqn:E.
  - exact (X1_report_counts_every_key_once source_order review_catalog a
             (or_introl E)).
  - vm_compute in E. discriminate E.
Defined.

(** Both keys of the sample are incomplete for the interactive analysis,
    and listed in catalog order. *)
Lemma X2_witness :
  match localization_analyzer.analyze_completeness source_order
          review_catalog with
  | Ok a => incomplete_keys a = ["Save"; "Open"]
  | Raise _ => False
  end.
Proof.
  destruct (localization_analyzer.analyze_completeness source_order
              review_catalog) as [a|e] eqn:E.
  - rewrite (proj1 (X2_incomplete_keys_in_catalog_order source_order
                      review_catalog a) E).
    vm_compute. reflexivity.
  - vm_compute in E. discriminate E.
Defined.

Lemma X3_witness :
  match localization_fixer.analyze_completeness source_order
          review_catalog with
  | Ok a =>
      match dict_get (missing_languages a) "Open" with
      | Some codes => codes <> [] /\ NoDup codes
      | None => False
      end
  | Raise _ => False
  end.
Proof.
  destruct (localization_fixer.analyze_completeness source_order
              review_catalog) as [a|e] eqn:E.
  - pose proof (X3_missing_languages_are_the_absent_codes source_order
                  review_catalog a "Open"
                  (JObj [("localizations",
                          JObj [("en", string_unit "translated" "Open")])])
                  source_order_perm eq_refl (or_intror E) eq_refl) as H.
    destruct (dict_get (missing_languages a) "Open") as [codes|].
    + destruct H as (_ & H1 & H2 & _). split; assumption.
    + destruct H as [H|H]; vm_compute in H; discriminate H.
  - vm_compute in E. discriminate E.
Defined.

Lemma X4_witness :
  match localization_fixer.analyze_completeness source_order
          review_catalog with
  | Ok a => dict_keys (missing_languages a) = incomplete_keys a
  | Raise _ => False
  end.
Proof.
  destruct (localization_fixer.analyze_completeness source_order
              review_catalog) as [a|e] eqn:E.
  - exact (X4_fixer_records_missing_codes_for_each_incomplete_key
             source_order review_catalog a eq_refl E).
  - vm_compute in E. discriminate E.
Defined.


Lemma X6_witness :
  localization_status.check_localization_status review_catalog
  = (a <- localization_fixer.analyze_completeness source_order
            review_catalog ;;
     Ok (status_of a,
         localization_status.completion_percentage (status_of a))).
Proof.
  exact (X6_status_script_agrees_with_fixer_analysis source_order
           review_catalog).
Defined.

Lemma X7_witness :
  exists a a',
    localization_analyzer.analyze_completeness source_order review_catalog
    = Ok a
    /\ localization_fixer.analyze_completeness source_order review_catalog
       = Ok a'
    /\ (complete_keys a <= complete_keys a')%Z
    /\ incl (incomplete_keys a') (incomplete_keys a).
Proof.
  destruct (localization_analyzer.analyze_completeness source_order
              review_catalog) as [a|e] eqn:E.
  - destruct (X7_analyzer_is_the_stricter_analysis source_order
                review_catalog a E) as (a' & Ha' & _ & _ & _ & Hc & Hi).
    exists a, a'. split; [reflexivity|]. split; [exact Ha'|].
    split; [exact Hc|exact Hi].
  - vm_compute in E. discriminate E.
Defined.

Lemma X8_witness :
  match localization_fixer.fix_localizations utf8_console source_order bare_catalog with
  | Ok d' =>
      field_names d' = ["sourceLanguage"; "strings"; "version"]
      /\ field_of d' "version" = Some (JStr "1.0")
      /\ exists entry',
           entry_of d' "Save" = Some entry'
           /\ field_names entry' = ["localizations"]
  | Raise _ => False
  end.
Proof.
  destruct (localization_fixer.fix_localizations utf8_console source_order bare_catalog)
    as [d'|e] eqn:E.
  - destruct (X8_repair_touches_only_localizations utf8_console source_order
                bare_catalog d' source_order_perm eq_refl (or_introl E))
      as (H1 & H2 & H3).
    split; [rewrite H1; reflexivity|].
    split; [rewrite H2 by discriminate; reflexivity|].
    destruct (H3 "Save"%string (JObj []) eq_refl) as (entry' & He & _ & Hn).
    exists entry'. split; [exact He|].
    destruct Hn as [Hn|[_ Hn]]; [|exact Hn].
    exfalso. pose proof E as E2. vm_compute in E2. injection E2 as <-.
    vm_compute in He. injection He as <-. vm_compute in Hn. discriminate Hn.
  - vm_compute in E. discriminate E.
Defined.

Lemma X9_witness :
  match localization_fixer.fix_localizations utf8_console source_order save_catalog with
  | Ok d' => localization_fixer.fix_localizations utf8_console source_order d' = Ok d'
  | Raise _ => False
  end.
Proof.
  destruct (localization_fixer.fix_localizations utf8_console source_order save_catalog)
    as [d'|e] eqn:E.
  - exact (proj2 (X9_fixer_repair_is_idempotent utf8_console source_order
                    save_catalog d'
                    source_order_perm eq_refl E)).
  - vm_compute in E. discriminate E.
Defined.

Lemma X10_witness :
  match localization_analyzer.fix_localizations utf8_console source_order
          review_catalog with
  | Ok d' =>
      match localization_analyzer.analyze_completeness source_order d' with
      | Ok a' =>
          missing_languages a' = []
          /\ localization_analyzer.fix_localizations utf8_console source_order d' = Ok d'
      | Raise _ => False
      end
  | Raise _ => False
  end.
Proof.
  destruct (localization_analyzer.fix_localizations utf8_console source_order
              review_catalog) as [d'|e] eqn:E;
    [|vm_compute in E; discriminate E].
  destruct (localization_analyzer.analyze_completeness source_order d')
    as [a'|e] eqn:Ea.
  - destruct (X10_analyzer_second_repair_changes_nothing utf8_console
                source_order review_catalog d' a' source_order_perm eq_refl
                E Ea)
      as (H1 & _ & H3).
    split; [exact H1|exact H3].
  - pose proof E as E2. vm_compute in E2. injection E2 as <-.
    vm_compute in Ea. discriminate Ea.
Defined.

(** Enumerating the missing codes in the opposite order gives ['Save']
    the same French Localization. *)
Lemma X11_witness :
  match localization_fixer.fix_localizations utf8_console source_order save_catalog,
        localization_fixer.fix_localizations utf8_console reverse_order save_catalog with
  | Ok d1, Ok d2 =>
      localization_of d1 "Save" "fr" = localization_of d2 "Save" "fr"
  | _, _ => False
  end.
Proof.
  destruct (localization_fixer.fix_localizations utf8_console source_order save_catalog)
    as [d1|e] eqn:E1; [|vm_compute in E1; discriminate E1].
  destruct (localization_fixer.fix_localizations utf8_console reverse_order save_catalog)
    as [d2|e] eqn:E2; [|vm_compute in E2; discriminate E2].
  exact (X11_repair_does_not_depend_on_enumeration_order utf8_console
           source_order reverse_order save_catalog d1 d2 source_order_perm
           reverse_order_perm eq_refl (or_introl (conj E1 E2)) "Save"%string
           "fr"%string).
Defined.

(** The entry with French and German only gets ['en'], valued with the
    key, after them. *)
Lemma X12_witness :
  match fix_localizations.fix_localizations variations_catalog with
  | Ok d' =>
      exists e',
        entry_of d' "%lld items" = Some e'
        /\ dict_keys (localizations_of e') = ["fr"; "de"; "en"]
        /\ dict_get (localizations_of e') "en"
           = Some (translated_unit (JStr "%lld items"))
  | Raise _ => False
  end.
Proof.
  destruct (fix_localizations.fix_localizations variations_catalog)
    as [d'|e] eqn:E.
  - destruct (X12_normalizer_adds_english_when_absent variations_catalog d'
                "%lld items"
                (JObj [("localizations",
                        JObj [("fr", plural_variations);
                              ("de", string_unit "new" "%lld Objekte")])])
                E eq_refl eq_refl eq_refl) as (e' & He' & H).
    exists e'. split; [exact He'|]. exact H.
  - vm_compute in E. discriminate E.
Defined.

Lemma X13_witness :
  match fix_localizations.fix_localizations variations_catalog with
  | Ok d' =>
      field_names d' = ["sourceLanguage"; "strings"; "version"]
      /\ exists e' l',
           entry_of d' "%lld items" = Some e'
           /\ dict_get (localizations_of e') "de" = Some l'
           /\ value_of l' = Some (JStr "%lld Objekte")
  | Raise _ => False
  end.
Proof.
  destruct (fix_localizations.fix_localizations variations_catalog)
    as [d'|e] eqn:E.
  - destruct (X13_normalizer_changes_states_only variations_catalog d' E)
      as (H1 & _ & _ & H4).
    split; [rewrite H1; reflexivity|].
    destruct (H4 "%lld items"%string _ eq_refl) as (e' & He' & _ & _ & Hl).
    destruct (Hl "de"%string (string_unit "new" "%lld Objekte") eq_refl)
      as (l' & Hl' & _ & _ & _ & Hv).
    exists e', l'. split; [exact He'|]. split; [exact Hl'|].
    rewrite Hv. reflexivity.
  - vm_compute in E. discriminate E.
Defined.

(** After the normaliser the sample's ['Save'] is no longer listed;
    ['Open'] is, for its missing codes. *)
Lemma X14_witness :
  match fix_localizations.fix_localizations review_catalog with
  | Ok d' =>
      match localization_analyzer.analyze_completeness source_order d' with
      | Ok a =>
          incomplete_keys a = ["Open"]
          /\ exists e',
               entry_of d' "Open" = Some e'
               /\ excluded e' = false
               /\ (missing_of e' <> []
                   \/ exists lang l,
                        In (lang, l) (localizations_of e')
                        /\ string_unit_of l = None)
      | Raise _ => False
      end
  | Raise _ => False
  end.
Proof.
  destruct (fix_localizations.fix_localizations review_catalog)
    as [d'|e] eqn:E; [|vm_compute in E; discriminate E].
  pose proof E as E2. vm_compute in E2. injection E2 as <-.
  match goal with
  | |- match ?r with _ => _ end => destruct r as [a|e] eqn:Ea
  end; [|vm_compute in Ea; discriminate Ea].
  pose proof Ea as Ea2. vm_compute in Ea2. injection Ea2 as <-.
  split; [reflexivity|].
  refine (X14_after_normalizer_only_real_gaps_remain source_order
            review_catalog _ _ eq_refl E Ea "Open"%string _).
  now left.
Defined.

Lemma X15_witness :
  match fix_localizations.fix_localizations review_catalog with
  | Ok d' =>
      match localization_status.check_localization_status review_catalog,
            localization_status.check_localization_status d' with
      | Ok (s, _), Ok (s', _) =>
          (localization_status.complete_keys s
           <= localization_status.complete_keys s')%Z
      | _, _ => False
      end
  | Raise _ => False
  end.
Proof.
  destruct (fix_localizations.fix_localizations review_catalog)
    as [d'|e] eqn:E; [|vm_compute in E; discriminate E].
  destruct (localization_status.check_localization_status review_catalog)
    as [[s p]|e] eqn:Es; [|vm_compute in Es; discriminate Es].
  destruct (localization_status.check_localization_status d')
    as [[s' p']|e] eqn:Es'.
  - exact (proj2 (proj2 (X15_normalizer_never_lowers_the_status
                            review_catalog d' s p s' p' E Es Es'))).
  - pose proof E as E2. vm_compute in E2. injection E2 as <-.
    vm_compute in Es'. discriminate Es'.
Defined.

(** The report of the interactive analysis on the sample: ['Open'], with
    nine missing languages, is shown before ['Save'], with none. *)
Example breakdown_of_review_catalog :
  match localization_analyzer.analyze_completeness source_order
          review_catalog with
  | Ok a =>
      print_analysis.breakdown utf8_console a
      = Ok ["MISSING TRANSLATIONS BREAKDOWN:";
            "----------------------------------------";
            String "010" "Missing 9 language(s) (1 keys):";
            "  'Open' -> Missing: ar, de, es, fr, hi, ja, ko, pt, zh-Hans";
            String "010" "Missing 0 language(s) (1 keys):";
            "  'Save' -> Missing: "]
  | Raise _ => False
  end.
Proof. vm_compute. reflexivity. Qed.

(** The freshly extracted entry beside a complete one. *)
Lemma X17_witness :
  localization_analyzer.fix_localizations utf8_console source_order
    (catalog [("Save", review_entry); ("Open", JObj [])])
  = Raise KeyError.
Proof.
  pose proof (X17_analyzer_repair_raises_exactly_on_unmapped_entries
                utf8_console source_order
                (catalog [("Save", review_entry); ("Open", JObj [])])
                source_order_perm eq_refl eq_refl) as H.
  destruct (localization_analyzer.fix_localizations utf8_console source_order
              (catalog [("Save", review_entry); ("Open", JObj [])]))
    as [d'|err].
  - vm_compute in H. discriminate H.
  - destruct H as [[_ ->]|[_ (key & Hin & Hno)]]; [reflexivity|].
    exfalso. apply Hno. intros langs Hl. unfold accepts.
    rewrite analyzer_message_ascii; [reflexivity| |assumption].
    destruct Hin as [<-|[<-|[]]]; reflexivity.
Defined.

(** A key that holds a lone surrogate, which [json.load] accepts and a
    UTF-8 console cannot encode: the automatic repair fills the entry and
    raises at the print that ends the round. *)
Lemma X18_witness :
  localization_fixer.fix_localizations utf8_console source_order
    surrogate_catalog
  = Raise UnicodeEncodeError.
Proof.
  destruct (X18_fixer_repair_fails_only_at_a_print utf8_console source_order
              surrogate_catalog eq_refl) as [[d' E]|[E _]].
  - vm_compute in E. discriminate E.
  - exact E.
Defined.

(** The interactive repair raises on the same key. *)
Example interactive_repair_raises_on_unprintable_key :
  well_formed surrogate_catalog = true
  /\ all_mapped surrogate_catalog = true
  /\ localization_analyzer.fix_localizations utf8_console source_order
       surrogate_catalog
     = Raise UnicodeEncodeError.
Proof. repeat split; vm_compute; reflexivity. Qed.
